(** * Search Battle: the streaming search route

    A shallow embedding of
    [elastic-search-implementation/src/app/api/search/route.ts] together
    with the two stores it reads (the [reviews] table filled by
    [scripts/seed-pg.mjs] and the [reviews] index filled by
    [scripts/seed-es.mjs]).

    - [Js]        the fragment of JavaScript the route relies on: values,
                  [JSON.stringify], [parseInt], [toLowerCase], [Math.round];
    - [Postgres]  the [reviews] table and the statements sent to it;
    - [Elastic]   the [reviews] index and the requests sent to it;
    - [Stream]    the [ReadableStream] controller the route writes to;
    - [Route]     the handler [GET] and its two asynchronous adapters,
                  run against a schedule of backend replies.

    JavaScript strings are modelled by their UTF-8 bytes, so that
    [TextEncoder.encode] is the identity; numbers that the route handles
    are integers and are modelled by [Z] (with [NaN] apart), clock
    readings by rationals.

    [pool] and [client] are the [pg] pool and the Elasticsearch client
    the seed scripts also build.  Neither engine is part of the
    repository: what they do on the calls the repository sends is
    taken from their documentation. *)

From Stdlib Require Import List String Ascii ZArith QArith Qround Bool Lia.
From Stdlib Require Import DecimalString DecimalPos DecimalZ.
Import ListNotations.

Local Open Scope string_scope.
Local Open Scope Z_scope.

(* ================================================================== *)
(** * JavaScript values and built-ins *)
(* ================================================================== *)

Module Js.

(** Characters that cannot be written inside a string literal. *)
Definition dquote : ascii := "034"%char.
Definition backslash : ascii := "092"%char.
Definition LF : ascii := "010"%char.
Definition CR : ascii := "013"%char.

Definition str1 (c : ascii) : string := String c EmptyString.

(** [sq s] is [s] with every apostrophe turned into a double quote; it
    only serves to write expected JSON texts legibly. *)
Fixpoint sq (s : string) : string :=
  match s with
  | EmptyString => EmptyString
  | String c s' => String (if Ascii.eqb c "'"%char then dquote else c) (sq s')
  end.

Fixpoint join (sep : string) (l : list string) : string :=
  match l with
  | [] => EmptyString
  | [x] => x
  | x :: l' => x ++ sep ++ join sep l'
  end.

(** A JavaScript value.  An object is the list of its own enumerable
    properties in insertion order. *)
#[warnings="-register-all"]
Inductive value : Type :=
| Undefined
| Null
| Bool (b : bool)
| Num (n : Z)
| NaN
| Str (s : string)
| Arr (items : list value)
| Obj (props : list (string * value)).

Definition object : Type := list (string * value).

(** Thrown values. *)
Inductive error : Type :=
| TypeError (message : string)
| BackendError (message : string).

(** A computation that may throw. *)
Definition throws (A : Type) : Type := (error + A)%type.

Definition typeof (v : value) : string :=
  match v with
  | Undefined => "undefined"
  | Null => "object"
  | Bool _ => "boolean"
  | Num _ | NaN => "number"
  | Str _ => "string"
  | Arr _ | Obj _ => "object"
  end.

(** [o[k]] on an object. *)
Fixpoint lookup (k : string) (o : object) : value :=
  match o with
  | [] => Undefined
  | (k', v) :: o' => if String.eqb k k' then v else lookup k o'
  end.

(** [v.k]: reading a property of [undefined] or [null] throws. *)
Definition get (v : value) (k : string) : throws value :=
  match v with
  | Undefined => inl (TypeError "Cannot read properties of undefined")
  | Null => inl (TypeError "Cannot read properties of null")
  | Obj o => inr (lookup k o)
  | _ => inr Undefined
  end.

(** [const { k, ...rest } = o]: [rest] keeps every other property. *)
Definition rest_without (k : string) (o : object) : object :=
  filter (fun p => negb (String.eqb (fst p) k)) o.

(** ** Strings *)

Definition is_upper (c : ascii) : bool :=
  let n := nat_of_ascii c in (65 <=? n)%nat && (n <=? 90)%nat.

Definition lower_char (c : ascii) : ascii :=
  if is_upper c then ascii_of_nat (nat_of_ascii c + 32) else c.

(** [s.toLowerCase()], on the ASCII letters: the letters beyond ASCII
    are left as they are, so that the function is the one of the
    language on ASCII text. *)
Fixpoint toLowerCase (s : string) : string :=
  match s with
  | EmptyString => EmptyString
  | String c s' => String (lower_char c) (toLowerCase s')
  end.




(** An integer of 32 bits: what the [INTEGER] columns of the table and
    the [integer] field of the index hold. *)
Definition int32 (n : Z) : bool := (-2147483648 <=? n) && (n <=? 2147483647).

(** No character of [s] is the zero byte, which a [TEXT] cannot hold. *)
Fixpoint no_zero_byte (s : string) : bool :=
  match s with
  | EmptyString => true
  | String c s' => negb (Ascii.eqb c "000"%char) && no_zero_byte s'
  end.

(** No line feed and no carriage return occurs in [s]. *)
Fixpoint single_line (s : string) : bool :=
  match s with
  | EmptyString => true
  | String c s' => negb (Ascii.eqb c LF) && negb (Ascii.eqb c CR) && single_line s'
  end.

(** ** Numbers *)

(** Decimal rendering of an integer ([Number::toString]). *)
Definition string_of_Z (n : Z) : string :=
  NilZero.string_of_int (Z.to_int n).

(** [Math.round]: the nearest integer, halves rounded up. *)
Definition Math_round (x : Q) : Z := Qfloor (x + (1 # 2)).

(** The white space and line ends of one byte. *)
Definition is_space (c : ascii) : bool :=
  let n := nat_of_ascii c in
  ((9 <=? n)%nat && (n <=? 13)%nat) || (n =? 32)%nat.

(** The bytes of the white space and line ends of more than one byte:
    U+00A0, U+1680, U+2000 to U+200A, U+2028, U+2029, U+202F, U+205F,
    U+3000 and U+FEFF. *)
Definition wide_space2 (a b : ascii) : bool :=
  (nat_of_ascii a =? 194)%nat && (nat_of_ascii b =? 160)%nat.

Definition wide_space3 (a b c : ascii) : bool :=
  let x := nat_of_ascii a in
  let y := nat_of_ascii b in
  let z := nat_of_ascii c in
  ((x =? 225) && (y =? 154) && (z =? 128))%nat ||
  ((x =? 226) && (y =? 128) &&
   (((128 <=? z) && (z <=? 138)) || (z =? 168) || (z =? 169) || (z =? 175)))%nat ||
  ((x =? 226) && (y =? 129) && (z =? 159))%nat ||
  ((x =? 227) && (y =? 128) && (z =? 128))%nat ||
  ((x =? 239) && (y =? 187) && (z =? 191))%nat.

(** The bytes one of them can start with. *)
Definition wide_lead (a : ascii) : bool :=
  let x := nat_of_ascii a in
  ((x =? 194) || (x =? 225) || (x =? 226) || (x =? 227) || (x =? 239))%nat.

(** [s] from its first character that is neither white space nor a
    line end, as [parseInt] reads it. *)
Fixpoint skip_spaces (s : string) : string :=
  match s with
  | EmptyString => s
  | String a s1 =>
      if is_space a then skip_spaces s1
      else if wide_lead a then
        match s1 with
        | EmptyString => s
        | String b s2 =>
            if wide_space2 a b then skip_spaces s2
            else match s2 with
                 | EmptyString => s
                 | String c s3 =>
                     if wide_space3 a b c then skip_spaces s3 else s
                 end
        end
      else s
  end.

(** Value of [c] as a digit in the given radix (10 or 16). *)
Definition digit (radix : Z) (c : ascii) : option Z :=
  let n := Z.of_nat (nat_of_ascii c) in
  let d := if (48 <=? n) && (n <=? 57) then Some (n - 48)
           else if (97 <=? n) && (n <=? 102) then Some (n - 87)
           else if (65 <=? n) && (n <=? 70) then Some (n - 55)
           else None in
  match d with
  | Some k => if k <? radix then Some k else None
  | None => None
  end.

(** Value of the longest prefix of digits of [s], continuing [acc]. *)
Fixpoint digits (radix : Z) (s : string) (acc : Z) : Z :=
  match s with
  | String c s' =>
      match digit radix c with
      | Some d => digits radix s' (radix * acc + d)
      | None => acc
      end
  | EmptyString => acc
  end.

Definition parse_unsigned (radix : Z) (s : string) : value :=
  match s with
  | String c _ =>
      match digit radix c with
      | Some _ => Num (digits radix s 0)
      | None => NaN
      end
  | EmptyString => NaN
  end.

Definition negate (v : value) : value :=
  match v with
  | Num n => Num (- n)
  | _ => v
  end.

Definition strip_hex_prefix (s : string) : option string :=
  match s with
  | String "0" (String "x" s') => Some s'
  | String "0" (String "X" s') => Some s'
  | _ => None
  end.

Definition parse_magnitude (s : string) : value :=
  match strip_hex_prefix s with
  | Some s' => parse_unsigned 16 s'
  | None => parse_unsigned 10 s
  end.

(** [parseInt(s)] without a radix argument, on a string. *)
Definition parseInt_string (s : string) : value :=
  match skip_spaces s with
  | String "-" s' => negate (parse_magnitude s')
  | String "+" s' => parse_magnitude s'
  | s' => parse_magnitude s'
  end.

(** [ToString], which [parseInt] applies to its argument. *)
Fixpoint ToString (v : value) : string :=
  match v with
  | Undefined => "undefined"
  | Null => "null"
  | Bool true => "true"
  | Bool false => "false"
  | Num n => string_of_Z n
  | NaN => "NaN"
  | Str s => s
  | Arr items =>
      join "," (map (fun x => match x with
                              | Undefined | Null => EmptyString
                              | _ => ToString x
                              end) items)
  | Obj _ => "[object Object]"
  end.

Definition parseInt (v : value) : value := parseInt_string (ToString v).

(** ** JSON.stringify *)

Definition hex_digit (n : nat) : ascii :=
  nth n ["0"; "1"; "2"; "3"; "4"; "5"; "6"; "7"; "8"; "9";
         "a"; "b"; "c"; "d"; "e"; "f"]%char "0"%char.

(** One character of a quoted JSON string. *)
Definition escape_char (c : ascii) : string :=
  let n := nat_of_ascii c in
  if Ascii.eqb c dquote then String backslash (str1 dquote)
  else if Ascii.eqb c backslash then String backslash (str1 backslash)
  else if (n =? 8)%nat then String backslash "b"
  else if (n =? 9)%nat then String backslash "t"
  else if (n =? 10)%nat then String backslash "n"
  else if (n =? 12)%nat then String backslash "f"
  else if (n =? 13)%nat then String backslash "r"
  else if (n <? 32)%nat then
    String backslash ("u00" ++ String (hex_digit (n / 16))
                                      (str1 (hex_digit (n mod 16))))
  else str1 c.

Fixpoint escape (s : string) : string :=
  match s with
  | EmptyString => EmptyString
  | String c s' => escape_char c ++ escape s'
  end.

Definition quote (s : string) : string :=
  String dquote (escape s ++ str1 dquote).

(** [JSON.stringify(v)]; [None] stands for the result [undefined]. *)
Fixpoint stringify (v : value) : option string :=
  match v with
  | Undefined => None
  | Null => Some "null"
  | Bool true => Some "true"
  | Bool false => Some "false"
  | Num n => Some (string_of_Z n)
  | NaN => Some "null"
  | Str s => Some (quote s)
  | Arr items =>
      Some ("[" ++ join "," (map (fun x => match stringify x with
                                           | Some t => t
                                           | None => "null"
                                           end) items) ++ "]")
  | Obj props =>
      Some ("{" ++ join "," (flat_map (fun p => match stringify (snd p) with
                                                | Some t => [quote (fst p) ++ ":" ++ t]
                                                | None => []
                                                end) props) ++ "}")
  end.

(** [JSON.stringify] of an object literal, which is always a string. *)
Definition JSON_stringify (v : value) : string :=
  match stringify v with
  | Some t => t
  | None => "undefined"
  end.

End Js.

(* ================================================================== *)
(** * The relational store *)
(* ================================================================== *)

Module Postgres.
Import Js.

(** A row of [reviews], as created by [seed-pg.mjs]:
    [id SERIAL PRIMARY KEY, external_id INTEGER UNIQUE,
     review TEXT NOT NULL, sentiment INTEGER NOT NULL]. *)
Record row : Type := {
  id : Z;
  external_id : Z;
  review : string;
  sentiment : Z
}.

(** The table in heap order, and the next value of its [id] sequence. *)
Record database : Type := {
  reviews : list row;
  next_id : Z
}.

Definition empty : database := {| reviews := []; next_id := 1 |}.

(** [t LIKE p]: [%] stands for any run of characters, [_] for any one
    character, and a backslash makes the character after it literal.
    (A pattern that ends in a lone backslash, which PostgreSQL refuses,
    matches nothing.)  A character is taken to be a byte, which it is
    in ASCII text; what is said below of [_] is said of ASCII text. *)
Fixpoint like (p : string) : string -> bool :=
  match p with
  | EmptyString =>
      fun t => match t with EmptyString => true | String _ _ => false end
  | String c p' =>
      if Ascii.eqb c "%" then
        fix any (t : string) : bool :=
          like p' t || match t with
                       | EmptyString => false
                       | String _ t' => any t'
                       end
      else if Ascii.eqb c "_" then
        fun t => match t with
                 | EmptyString => false
                 | String _ t' => like p' t'
                 end
      else if Ascii.eqb c backslash then
        match p' with
        | EmptyString => fun _ => false
        | String c' p'' =>
            fun t => match t with
                     | EmptyString => false
                     | String x t' => Ascii.eqb x c' && like p'' t'
                     end
        end
      else
        fun t => match t with
                 | EmptyString => false
                 | String x t' => Ascii.eqb x c && like p' t'
                 end
  end.


(** [t ILIKE p]: [LIKE] on the lower-cased pattern and text.  The
    letters folded are those [toLowerCase] folds, A to Z; what is said
    below of the letter case is said of ASCII text. *)
Definition ilike (p t : string) : bool :=
  like (toLowerCase p) (toLowerCase t).

(** The statement of [route.ts]. *)
Definition select_sql : string :=
  "SELECT *, count(*) OVER() AS total_count FROM reviews WHERE review ILIKE $1 LIMIT 10".

Definition placeholders (i : nat) : string :=
  "($" ++ string_of_Z (Z.of_nat (i * 3 + 1)) ++
  ", $" ++ string_of_Z (Z.of_nat (i * 3 + 2)) ++
  ", $" ++ string_of_Z (Z.of_nat (i * 3 + 3)) ++ ")".

(** The statement that [insertBatch] of [seed-pg.mjs] builds for a batch
    of [n] records. *)
Definition insert_sql (n : nat) : string :=
  str1 LF ++ "        INSERT INTO reviews (external_id, review, sentiment)" ++
  str1 LF ++ "        VALUES " ++ join "," (map placeholders (seq 0 n)) ++
  str1 LF ++ "        ON CONFLICT (external_id) DO NOTHING" ++
  str1 LF ++ "    ".

(** One result row of [SELECT *, count( * ) OVER() AS total_count]: the
    columns of the table in order, then the window count, which the
    driver hands over as a decimal string ([count] is a [bigint]). *)
Definition result_row (total : nat) (r : row) : object :=
  [ ("id", Num (id r));
    ("external_id", Num (external_id r));
    ("review", Str (review r));
    ("sentiment", Num (sentiment r));
    ("total_count", Str (string_of_Z (Z.of_nat total))) ].

(** Rows that satisfy [review ILIKE pattern], in heap order. *)
Definition matching (pattern : string) (db : database) : list row :=
  filter (fun r => ilike pattern (review r)) (reviews db).

(** [... WHERE review ILIKE $1 LIMIT 10]: the window count is taken over
    all the rows that pass the filter, the limit cuts afterwards. *)
Definition select_ilike (pattern : string) (db : database) : list object :=
  let hits := matching pattern db in
  map (result_row (List.length hits)) (firstn 10 hits).

Definition has_external_id (e : Z) (t : list row) : bool :=
  existsb (fun r => Z.eqb (external_id r) e) t.

(** [INSERT ... VALUES (...), ... ON CONFLICT (external_id) DO NOTHING]
    on the values [insertBatch] binds, taken three by three: what
    [parseInt] gave, a column of the CSV file or nothing, what
    [parseInt] gave.  A row is made of an integer of 32 bits, a text
    without a zero byte and an integer of 32 bits; it draws the next
    value of the sequence of [id], and is added unless its
    [external_id] is in the table.  [None] when the statement is
    refused, which leaves no row of it in the table. *)
Fixpoint insert_values (vs : list value) (db : database) : option database :=
  match vs with
  | [] => Some db
  | Num e :: Str r :: Num s :: vs' =>
      if int32 e && int32 s && no_zero_byte r then
        let db' :=
          if has_external_id e (reviews db)
          then {| reviews := reviews db; next_id := next_id db + 1 |}
          else {| reviews := reviews db ++
                    [{| id := next_id db; external_id := e;
                        review := r; sentiment := s |}];
                  next_id := next_id db + 1 |} in
        insert_values vs' db'
      else None
  | _ => None
  end.

(** The server binds the values before it makes any row: the numbers
    have to be integers of 32 bits ([NaN] is none), the texts without
    a zero byte; a review that is missing is bound as [NULL]. *)
Fixpoint bound (vs : list value) : bool :=
  match vs with
  | [] => true
  | Num e :: r :: Num s :: vs' =>
      int32 e && int32 s &&
      match r with
      | Str r => no_zero_byte r
      | Undefined | Null => true
      | _ => false
      end &&
      bound vs'
  | _ => false
  end.

(** The rows made of bound values until the column [review TEXT NOT
    NULL] refuses one, that one counted: each has drawn a value of the
    sequence of [id]. *)
Fixpoint rows_made (vs : list value) : Z :=
  match vs with
  | Num _ :: Str _ :: Num _ :: vs' => 1 + rows_made vs'
  | Num _ :: _ :: Num _ :: _ => 1
  | _ => 0
  end.

(** What a refused [INSERT] has drawn from the sequence, which does
    not give it back: nothing when the values are not bound. *)
Definition drawn (vs : list value) : Z :=
  if bound vs then rows_made vs else 0.

(** [pool.query(text, values)] / [client.query(text, values)] for the
    statements this repository sends: the store afterwards and the
    [rows] of the result, or the error the promise rejects with (its
    message stands for the one of the server). *)
Definition query (text : string) (values : list value) (db : database)
  : database * throws (list object) :=
  if String.eqb text select_sql then
    match values with
    | [Str pattern] => (db, inr (select_ilike pattern db))
    | _ => (db, inl (BackendError "bind message supplies the wrong parameters"))
    end
  else if String.eqb text (insert_sql (Nat.div (List.length values) 3)) then
    match insert_values values db with
    | Some db' => (db', inr [])
    | None => ({| reviews := reviews db; next_id := next_id db + drawn values |},
               inl (BackendError "invalid input syntax"))
    end
  else (db, inl (BackendError "syntax error")).

(** [insertBatch(client, batch)] of [seed-pg.mjs]: [batch] holds
    [[external_id, review, sentiment]] triples. *)
Definition insertBatch (batch : list (list value)) (db : database)
  : database * throws (list object) :=
  query (insert_sql (List.length batch)) (List.concat batch) db.

End Postgres.

(* ================================================================== *)
(** * The search index *)
(* ================================================================== *)

Module Elastic.
Import Js.

(** [query: { query_string: { query, fields, default_operator,
    analyze_wildcard } }]. *)
Record query_string : Type := {
  query : string;
  fields : list string;
  default_operator : string;
  analyze_wildcard : bool
}.

(** The argument of [client.search]. *)
Record search_request : Type := {
  index : string;
  query_dsl : query_string;
  size : nat
}.

(** The cluster holds at most the one index [reviews]: the [_source] of
    its documents in index order, or [None] when it does not exist. *)
Definition cluster : Type := option (list value).

(** Hit counts are tracked exactly up to 10,000 matches (the engine's
    default, which the route does not change). *)
Definition track_total_hits : nat := 100 * 100.

(** ** A reference analysis of [query_string]

    The text of a field is cut into lower-cased alphanumeric terms; the
    query is cut at spaces into clauses, each a term pattern in which
    [*] stands for any run of characters and [?] for any one; with the
    operator [OR] a document matches when some clause matches some
    term.  The other operators of the [query_string] syntax are not
    interpreted. *)

Definition is_alnum (c : ascii) : bool :=
  let n := nat_of_ascii c in
  ((48 <=? n)%nat && (n <=? 57)%nat) ||
  ((65 <=? n)%nat && (n <=? 90)%nat) ||
  ((97 <=? n)%nat && (n <=? 122)%nat).

Definition flush (cur : string) (rest : list string) : list string :=
  match cur with
  | EmptyString => rest
  | String _ _ => cur :: rest
  end.

Fixpoint terms (s cur : string) : list string :=
  match s with
  | EmptyString => flush cur []
  | String c s' =>
      if is_alnum c then terms s' (cur ++ str1 (lower_char c))
      else flush cur (terms s' EmptyString)
  end.

Fixpoint clauses (s cur : string) : list string :=
  match s with
  | EmptyString => flush cur []
  | String c s' =>
      if is_space c then flush cur (clauses s' EmptyString)
      else clauses s' (cur ++ str1 c)
  end.

Fixpoint wildcard (p : string) : string -> bool :=
  match p with
  | EmptyString =>
      fun t => match t with EmptyString => true | String _ _ => false end
  | String c p' =>
      if Ascii.eqb c "*" then
        fix any (t : string) : bool :=
          wildcard p' t || match t with
                           | EmptyString => false
                           | String _ t' => any t'
                           end
      else if Ascii.eqb c "?" then
        fun t => match t with
                 | EmptyString => false
                 | String _ t' => wildcard p' t'
                 end
      else
        fun t => match t with
                 | EmptyString => false
                 | String x t' => Ascii.eqb x c && wildcard p' t'
                 end
  end.

Definition standard_matches (qs : query_string) (text : string) : bool :=
  existsb (fun clause => existsb (wildcard (toLowerCase clause))
                                 (terms text EmptyString))
          (clauses (query qs) EmptyString).

Section Engine.

(** How the engine decides that the text of a field satisfies a
    [query_string] query. *)
Variable matches : query_string -> string -> bool.

Definition doc_matches (qs : query_string) (doc : value) : bool :=
  existsb (fun f => match doc with
                    | Obj o => match lookup f o with
                               | Str text => matches qs text
                               | _ => false
                               end
                    | _ => false
                    end) (fields qs).

(** The documents that satisfy the query, in index order. *)
Definition found (req : search_request) (docs : list value) : list value :=
  filter (doc_matches (query_dsl req)) docs.

Definition hit (doc : value) : value :=
  Obj [("_index", Str "reviews"); ("_source", doc)].

(** The body of a search response: the first [size] hits, and the hit
    count, exact ([eq]) up to [track_total_hits] and a lower bound
    ([gte]) beyond.  The hits are listed in the order of the index;
    the engine lists them by score, an order that is left out here:
    of the hits, what is meant is how many they are and that they are
    documents found. *)
Definition search_response (req : search_request) (docs : list value) : value :=
  let found := found req docs in
  let n := List.length found in
  Obj [("hits",
        Obj [("total",
              Obj [("value", Num (Z.of_nat (Nat.min n track_total_hits)));
                   ("relation",
                    Str (if (n <=? track_total_hits)%nat then "eq" else "gte"))]);
             ("hits", Arr (map hit (firstn (size req) found)))])].

(** [client.search(req)]: the cluster afterwards and the response, or
    the error the promise rejects with. *)
Definition search (req : search_request) (c : cluster) : cluster * throws value :=
  match c with
  | Some docs =>
      if String.eqb (index req) "reviews"
      then (c, inr (search_response req docs))
      else (c, inl (BackendError "index_not_found_exception"))
  | None => (c, inl (BackendError "index_not_found_exception"))
  end.

End Engine.

(** Documents of a bulk body: actions and sources alternate. *)
Fixpoint bulk_sources (body : list value) : list value :=
  match body with
  | _action :: doc :: body' => doc :: bulk_sources body'
  | _ => []
  end.

(** [client.bulk({ body })] with [index] actions on [reviews], as
    [seed-es.mjs] sends them (the index is created on first use). *)
Definition bulk (body : list value) (c : cluster) : cluster :=
  match c with
  | Some docs => Some (docs ++ bulk_sources body)%list
  | None => Some (bulk_sources body)
  end.

(** [client.indices.delete] followed by [client.indices.create]. *)
Definition recreate (c : cluster) : cluster := Some [].

End Elastic.

(* ================================================================== *)
(** * The response stream *)
(* ================================================================== *)

Module Stream.
Import Js.

Inductive state : Type :=
| Readable
| Closed
| Errored (reason : error).

(** A [ReadableStreamDefaultController]: the state of its stream and
    the chunks handed to it so far, in order.  The consumer (the HTTP
    response) is taken to read every chunk as soon as it is enqueued. *)
Record controller : Type := {
  status : state;
  written : list string
}.

Definition fresh : controller := {| status := Readable; written := [] |}.

(** [controller.enqueue(chunk)] throws unless the stream is readable. *)
Definition enqueue (chunk : string) (c : controller) : throws unit * controller :=
  match status c with
  | Readable => (inr tt, {| status := Readable; written := (written c ++ [chunk])%list |})
  | _ => (inl (TypeError "Invalid state: Controller is already closed"), c)
  end.

(** [controller.close()] throws unless the stream is readable. *)
Definition close (c : controller) : throws unit * controller :=
  match status c with
  | Readable => (inr tt, {| status := Closed; written := written c |})
  | _ => (inl (TypeError "Invalid state: Controller is already closed"), c)
  end.

(** [controller.error(e)] does nothing unless the stream is readable. *)
Definition error (e : Js.error) (c : controller) : controller :=
  match status c with
  | Readable => {| status := Errored e; written := written c |}
  | _ => c
  end.

End Stream.
(* ================================================================== *)
(** * The route handler *)
(* ================================================================== *)

Module Route.
Import Js.

(** State of a promise. *)
Inductive promise : Type :=
| Pending
| Fulfilled
| Rejected (reason : error).

(** What the code of the handler acts on: the stream controller, the
    number of readings of [performance.now()] taken so far, and the
    lines written by [console.error]. *)
Record world : Type := {
  controller : Stream.controller;
  clock : nat;
  console : list error
}.

(** A piece of handler code: it may throw, and it changes the world. *)
Definition M (A : Type) : Type := world -> throws A * world.

Definition ret {A : Type} (a : A) : M A := fun w => (inr a, w).

Definition bind {A B : Type} (c : M A) (k : A -> M B) : M B :=
  fun w => match c w with
           | (inr a, w') => k a w'
           | (inl e, w') => (inl e, w')
           end.

#[local] Notation "x <- c ;; k" := (bind c (fun x => k))
  (at level 61, c at next level, right associativity).

(** A pure computation that may throw. *)
Definition lift {A : Type} (t : throws A) : M A := fun w => (t, w).

Definition controller_enqueue (chunk : string) : M unit :=
  fun w => let (r, c) := Stream.enqueue chunk (controller w) in
           (r, {| controller := c; clock := clock w; console := console w |}).

Definition controller_close : M unit :=
  fun w => let (r, c) := Stream.close (controller w) in
           (r, {| controller := c; clock := clock w; console := console w |}).

Definition controller_error (e : error) : M unit :=
  fun w => (inr tt, {| controller := Stream.error e (controller w);
                       clock := clock w; console := console w |}).

Definition console_error (e : error) : M unit :=
  fun w => (inr tt, {| controller := controller w; clock := clock w;
                       console := (console w ++ [e])%list |}).

(** [encoder.encode(s)]: strings are already UTF-8. *)
Definition encode (s : string) : string := s.

(** [array.map(f)], where [f] may throw and [array] may not be one. *)
Fixpoint map_throws (f : value -> throws value) (l : list value) : throws (list value) :=
  match l with
  | [] => inr []
  | x :: l' =>
      match f x with
      | inl e => inl e
      | inr y => match map_throws f l' with
                 | inl e => inl e
                 | inr ys => inr (y :: ys)
                 end
      end
  end.

Definition array_map (f : value -> throws value) (v : value) : throws value :=
  match v with
  | Arr items => match map_throws f items with
                 | inl e => inl e
                 | inr ys => inr (Arr ys)
                 end
  | Undefined => inl (TypeError "Cannot read properties of undefined")
  | Null => inl (TypeError "Cannot read properties of null")
  | _ => inl (TypeError "map is not a function")
  end.

(** The argument of [pool.query]. *)
Record pg_call : Type := {
  text : string;
  values : list value
}.

(** [pool.query(...)] as [postgresSearch] issues it: a fixed statement,
    the query bound as its one parameter between two [%]. *)
Definition postgres_call (query : string) : pg_call :=
  {| text := Postgres.select_sql;
     values := [Str ("%" ++ query ++ "%")] |}.

(** [client.search(...)] as [elasticSearch] issues it: the lower-cased
    query is spliced between two [*] into the [query_string] text. *)
Definition elastic_call (query : string) : Elastic.search_request :=
  {| Elastic.index := "reviews";
     Elastic.query_dsl :=
       {| Elastic.query := "*" ++ toLowerCase query ++ "*";
          Elastic.fields := ["review"];
          Elastic.default_operator := "OR";
          Elastic.analyze_wildcard := true |};
     Elastic.size := 10 |}.

(** [rows.length > 0 ? parseInt(rows[0].total_count) : 0]. *)
Definition postgres_total (rows : list object) : value :=
  match rows with
  | r :: _ => parseInt (lookup "total_count" r)
  | [] => Num 0
  end.

(** [rows.map(({ total_count, ...rest }) => rest)]. *)
Definition postgres_data (rows : list object) : list value :=
  map (fun r => Obj (rest_without "total_count" r)) rows.

(** [typeof result.hits.total === 'object' ? result.hits.total.value
    : result.hits.total]. *)
Definition elastic_total (result : value) : throws value :=
  match get result "hits" with
  | inl e => inl e
  | inr hits =>
      match get hits "total" with
      | inl e => inl e
      | inr total =>
          if String.eqb (typeof total) "object" then get total "value"
          else inr total
      end
  end.

(** [result.hits.hits.map((hit) => hit._source)]. *)
Definition elastic_data (result : value) : throws value :=
  match get result "hits" with
  | inl e => inl e
  | inr hits =>
      match get hits "hits" with
      | inl e => inl e
      | inr hh => array_map (fun hit => get hit "_source") hh
      end
  end.

(** The event of the stream that carries one outcome. *)
Definition frame (source : string) (data : value) (time : Z) : string :=
  let payload := JSON_stringify (Obj [("source", Str source);
                                      ("data", data);
                                      ("time", Num time)]) in
  "data: " ++ payload ++ String LF (str1 LF).

Section Handler.

(** [now k] is what the [k]-th call of [performance.now()] returns. *)
Variable now : nat -> Q.

Definition performance_now : M Q :=
  fun w => (inr (now (clock w)),
            {| controller := controller w; clock := S (clock w);
               console := console w |}).

Definition sendData (source : string) (data : value) (time : Z) : M unit :=
  controller_enqueue (encode (frame source data time)).

(** [postgresSearch] after its [await], on the rows the query gave. *)
Definition postgresSearch_resume (start : Q) (rows : list object) : M unit :=
  end_ <- performance_now ;;
  let total := postgres_total rows in
  let data := postgres_data rows in
  sendData "postgres" (Obj [("data", Arr data); ("total", total)])
           (Math_round (end_ - start)).

(** [elasticSearch] after its [await], on the response of the search. *)
Definition elasticSearch_resume (start : Q) (result : value) : M unit :=
  end_ <- performance_now ;;
  total <- lift (elastic_total result) ;;
  data <- lift (elastic_data result) ;;
  sendData "elastic" (Obj [("data", data); ("total", total)])
           (Math_round (end_ - start)).

(** The [start] callback of the stream, between two turns of the event
    loop: the promises of the two adapters and of [Promise.all], the
    reading each adapter took before its call, and the calls sent. *)
Record handler : Type := {
  io : world;
  postgres_start : Q;
  elastic_start : Q;
  calls : pg_call * Elastic.search_request;
  postgresSearch : promise;
  elasticSearch : promise;
  all : promise
}.

Definition with_io (w : world) (h : handler) : handler :=
  {| io := w; postgres_start := postgres_start h;
     elastic_start := elastic_start h; calls := calls h;
     postgresSearch := postgresSearch h; elasticSearch := elasticSearch h;
     all := all h |}.

Definition with_postgresSearch (p : promise) (h : handler) : handler :=
  {| io := io h; postgres_start := postgres_start h;
     elastic_start := elastic_start h; calls := calls h;
     postgresSearch := p; elasticSearch := elasticSearch h;
     all := all h |}.

Definition with_elasticSearch (p : promise) (h : handler) : handler :=
  {| io := io h; postgres_start := postgres_start h;
     elastic_start := elastic_start h; calls := calls h;
     postgresSearch := postgresSearch h; elasticSearch := p;
     all := all h |}.

Definition with_all (p : promise) (h : handler) : handler :=
  {| io := io h; postgres_start := postgres_start h;
     elastic_start := elastic_start h; calls := calls h;
     postgresSearch := postgresSearch h; elasticSearch := elasticSearch h;
     all := p |}.

(** [start(controller)] up to [await Promise.all(...)]: each adapter
    reads the clock and sends its call, one after the other, and both
    promises are pending when the callback first yields. *)
Definition start (query : string) : handler :=
  let w0 := {| controller := Stream.fresh; clock := O; console := [] |} in
  let w1 := snd (performance_now w0) in
  let w2 := snd (performance_now w1) in
  {| io := w2;
     postgres_start := now (clock w0);
     elastic_start := now (clock w1);
     calls := (postgres_call query, elastic_call query);
     postgresSearch := Pending;
     elasticSearch := Pending;
     all := Pending |}.

(** The [catch] block. *)
Definition catch_block (e : error) : M unit :=
  _ <- console_error e ;;
  controller_error e.

Definition run_catch (e : error) (h : handler) : handler :=
  with_io (snd (catch_block e (io h))) h.

(** What follows [await Promise.all([...])] once an adapter has
    settled: the first rejection goes to the [catch] block; when both
    promises are fulfilled the stream is closed. *)
Definition resume_start (h : handler) : handler :=
  match all h with
  | Pending =>
      match postgresSearch h, elasticSearch h with
      | Rejected e, _ => run_catch e (with_all (Rejected e) h)
      | _, Rejected e => run_catch e (with_all (Rejected e) h)
      | Fulfilled, Fulfilled =>
          match controller_close (io h) with
          | (inr _, w) => with_io w (with_all Fulfilled h)
          | (inl e, w) => run_catch e (with_io w (with_all Fulfilled h))
          end
      | _, _ => h
      end
  | _ => h
  end.

(** A turn of the event loop: one of the two backend calls settles,
    with a result or with an error. *)
Inductive event : Type :=
| PostgresSettles (reply : throws (list object))
| ElasticSettles (reply : throws value).

Definition settled (r : throws unit) : promise :=
  match r with
  | inr _ => Fulfilled
  | inl e => Rejected e
  end.

(** The adapter whose call settles runs to its end, then [start]
    resumes if it can.  A promise settles once. *)
Definition step (h : handler) (ev : event) : handler :=
  match ev with
  | PostgresSettles reply =>
      match postgresSearch h with
      | Pending =>
          match reply with
          | inl e => resume_start (with_postgresSearch (Rejected e) h)
          | inr rows =>
              let (r, w) := postgresSearch_resume (postgres_start h) rows (io h) in
              resume_start (with_postgresSearch (settled r) (with_io w h))
          end
      | _ => h
      end
  | ElasticSettles reply =>
      match elasticSearch h with
      | Pending =>
          match reply with
          | inl e => resume_start (with_elasticSearch (Rejected e) h)
          | inr result =>
              let (r, w) := elasticSearch_resume (elastic_start h) result (io h) in
              resume_start (with_elasticSearch (settled r) (with_io w h))
          end
      | _ => h
      end
  end.

Definition run (h : handler) (schedule : list event) : handler :=
  fold_left step schedule h.

(** What [GET] returns. *)
Inductive response : Type :=
| Json (status : Z) (body : value)
| EventStream (headers : list (string * string)) (h : handler).

(** [GET(req)], on [req.nextUrl.searchParams.get('q')]. *)
Definition GET (q : option string) : response :=
  match q with
  | None | Some EmptyString =>
      Json 400 (Obj [("error", Str (sq "Query parameter 'q' is required"))])
  | Some query =>
      EventStream [("Content-Type", "text/event-stream");
                   ("Cache-Control", "no-cache");
                   ("Connection", "keep-alive")]
                  (start query)
  end.

(** The chunks the response has carried so far. *)
Definition emitted (h : handler) : list string :=
  Stream.written (controller (io h)).

Definition stream_state (h : handler) : Stream.state :=
  Stream.status (controller (io h)).

(** The backend calls a response has caused. *)
Definition adapter_calls (r : response) : option (pg_call * Elastic.search_request) :=
  match r with
  | Json _ _ => None
  | EventStream _ h => Some (calls h)
  end.

End Handler.

End Route.
(* ================================================================== *)
(** * The route in front of its two stores *)
(* ================================================================== *)

Module System.
Import Js.

Record stores : Type := {
  db : Postgres.database;
  es : Elastic.cluster
}.

(** Which backend answers first. *)
Inductive race : Type :=
| PostgresFirst
| ElasticFirst.

Section Serve.

Variable matches : Elastic.query_string -> string -> bool.
Variable now : nat -> Q.

(** Both backends run the calls they were sent. *)
Definition answer (c : Route.pg_call * Elastic.search_request) (s : stores)
  : stores * (throws (list object) * throws value) :=
  let (db', rows) := Postgres.query (Route.text (fst c)) (Route.values (fst c)) (db s) in
  let (es', result) := Elastic.search matches (snd c) (es s) in
  ({| db := db'; es := es' |}, (rows, result)).

Definition schedule (winner : race) (r : throws (list object) * throws value)
  : list Route.event :=
  match winner with
  | PostgresFirst => [Route.PostgresSettles (fst r); Route.ElasticSettles (snd r)]
  | ElasticFirst => [Route.ElasticSettles (snd r); Route.PostgresSettles (fst r)]
  end.

(** A request served to its end while both backends are reachable: the
    stores afterwards and the handler once both calls have settled
    ([None] when the request was refused). *)
Definition serve (q : option string) (winner : race) (s : stores)
  : stores * option Route.handler :=
  match Route.GET now q with
  | Route.Json _ _ => (s, None)
  | Route.EventStream _ h =>
      let (s', r) := answer (Route.calls h) s in
      (s', Some (Route.run now h (schedule winner r)))
  end.

(** The totals the two adapters report for the replies they get. *)
Definition totals (r : throws (list object) * throws value)
  : throws value * throws value :=
  (match fst r with
   | inr rows => inr (Route.postgres_total rows)
   | inl e => inl e
   end,
   match snd r with
   | inr result => Route.elastic_total result
   | inl e => inl e
   end).

End Serve.

(** ** Sample data *)

(** A clock that advances by 1.25 ms between two readings. *)
Definition sample_clock (k : nat) : Q := (Z.of_nat k * 5 # 4).

Definition wombat : list value :=
  [Num 1; Str "a rare wombat sighting"; Num 0].

Definition wombat_source : value :=
  Obj [("external_id", Num 1);
       ("review", Str "a rare wombat sighting");
       ("sentiment", Num 0)].

(** Both stores seeded with the one record [wombat]. *)
Definition one_record : stores :=
  {| db := fst (Postgres.insertBatch [wombat] Postgres.empty);
     es := Elastic.bulk [Obj [("index", Obj [("_index", Str "reviews")])];
                         wombat_source] (Elastic.recreate None) |}.

Definition boom : error := BackendError "connect ECONNREFUSED".



Definition wombat_row (i : nat) : Postgres.row :=
  {| Postgres.id := Z.of_nat (S i);
     Postgres.external_id := Z.of_nat (S i);
     Postgres.review := "a rare wombat sighting";
     Postgres.sentiment := 0 |}.

(** Both stores holding [n] reviews that mention a wombat. *)
Definition wombats (n : nat) : stores :=
  {| db := {| Postgres.reviews := map wombat_row (seq 0 n);
              Postgres.next_id := Z.of_nat (S n) |};
     es := Some (repeat wombat_source n) |}.

End System.
(* ================================================================== *)
(** * What holds of every state the handler can reach *)
(* ================================================================== *)

Module Protocol.
Import Js Route.

Section Reachable.

Variable now : nat -> Q.

(** The events that carry an outcome: the one [postgresSearch] writes
    for the rows it was given, the one [elasticSearch] writes for a
    response it could read.  [k] numbers the clock reading taken when
    the call completed; readings 0 and 1 are those the two adapters
    took before their calls. *)
Inductive outcome_frame : string -> Prop :=
| postgres_frame (rows : list object) (k : nat) :
    (2 <= k)%nat ->
    outcome_frame
      (frame "postgres"
             (Obj [("data", Arr (postgres_data rows));
                   ("total", postgres_total rows)])
             (Math_round (now k - now 0)))
| elastic_frame (result data total : value) (k : nat) :
    (2 <= k)%nat ->
    elastic_total result = inr total ->
    elastic_data result = inr data ->
    outcome_frame
      (frame "elastic"
             (Obj [("data", data); ("total", total)])
             (Math_round (now k - now 1))).

Definition is_fulfilled (p : promise) : nat :=
  match p with
  | Fulfilled => 1
  | _ => 0
  end.

Definition is_rejected (p : promise) : bool :=
  match p with
  | Rejected _ => true
  | _ => false
  end.

(** How the stream, the console and the adapters stand with respect to
    the promise of [Promise.all]. *)
Definition agrees (h : handler) : Prop :=
  match all h with
  | Pending =>
      stream_state h = Stream.Readable /\ console (io h) = [] /\
      is_rejected (postgresSearch h) = false /\
      is_rejected (elasticSearch h) = false /\
      (is_fulfilled (postgresSearch h) + is_fulfilled (elasticSearch h) < 2)%nat
  | Fulfilled =>
      stream_state h = Stream.Closed /\ console (io h) = [] /\
      postgresSearch h = Fulfilled /\ elasticSearch h = Fulfilled
  | Rejected e =>
      stream_state h = Stream.Errored e /\ console (io h) = [e] /\
      (postgresSearch h = Rejected e \/ elasticSearch h = Rejected e)
  end.

Record consistent (h : handler) : Prop := {
  clock_started : (2 <= clock (io h))%nat;
  postgres_started : postgres_start h = now 0;
  elastic_started : elastic_start h = now 1;
  frames_only : Forall outcome_frame (emitted h);
  one_frame_each :
    List.length (emitted h)
    = (is_fulfilled (postgresSearch h) + is_fulfilled (elasticSearch h))%nat;
  all_agrees : agrees h
}.

End Reachable.

End Protocol.

From Stdlib Require DecimalFacts.

(* ================================================================== *)
(** * The rest of the application

    The two seed scripts, which fill the stores, and the page, which
    calls the route and shows what it streams.

    - [Wire]     what becomes of a value that is sent as JSON;
    - [Seed]     [scripts/seed-pg.mjs] and [scripts/seed-es.mjs], run on
                 the records the CSV parser yields;
    - [Special]  schedules and queries of a special kind;
    - [Url]      [encodeURIComponent] and the query of an address;
    - [Json]     [JSON.parse];
    - [Sse]      the event stream as an [EventSource] reads it;
    - [Page]     the state and the handlers of [Home], the page;
    - [Session]  a search from the page to the stores and back.

    The CSV parser ([columns: true]) yields for each line of the file
    an object whose properties are strings.  An [EventSource] hands
    each event of type [message] to [onmessage] and takes the end of
    the response, however it comes, for a lost connection, which it
    reports to [onerror].  The updates of the state that a handler of
    the page makes are in place before the next handler runs. *)
(* ================================================================== *)

(* ================================================================== *)
(** * Values on the wire *)
(* ================================================================== *)

Module Wire.
Import Js.

(** A value as it arrives once sent as JSON: [NaN] is [null],
    [undefined] is [null] in an array and makes a property vanish. *)
Fixpoint transmit (v : value) : value :=
  match v with
  | Undefined => Undefined
  | NaN => Null
  | Arr items =>
      Arr (map (fun x => match transmit x with
                         | Undefined => Null
                         | y => y
                         end) items)
  | Obj props =>
      Obj (flat_map (fun p => match transmit (snd p) with
                              | Undefined => []
                              | y => [(fst p, y)]
                              end) props)
  | _ => v
  end.

End Wire.

(* ================================================================== *)
(** * The seed scripts *)
(* ================================================================== *)

Module Seed.
Import Js.

(** Whether a value counts as true in a condition. *)
Definition truthy (v : value) : bool :=
  match v with
  | Undefined | Null | NaN => false
  | Bool b => b
  | Num n => negb (n =? 0)
  | Str EmptyString => false
  | Str (String _ _) => true
  | Arr _ | Obj _ => true
  end.

(** [a || b]. *)
Definition or_else (a b : value) : value := if truthy a then a else b.

(** What [console.log] and [console.error] print: a message, a message
    and the error caught, or a message and the items of a bulk response
    that carry an error (their documents stand for them). *)
Inductive line : Type :=
| Log (message : string)
| Error (message : string) (reason : error)
| Failed (message : string) (items : list value).

(** [`Indexed ${count} records...`] and its like. *)
Definition progress (count : nat) (tail : string) : line :=
  Log ("Indexed " ++ string_of_Z (Z.of_nat count) ++ tail).

(** ** [seed-pg.mjs] *)

Module Pg.

Definition BATCH_SIZE : nat := 100.

(** The statement that creates the table. *)
Definition create_sql : string :=
  str1 LF ++ "            CREATE TABLE IF NOT EXISTS reviews (" ++
  str1 LF ++ "                id SERIAL PRIMARY KEY," ++
  str1 LF ++ "                external_id INTEGER UNIQUE," ++
  str1 LF ++ "                review TEXT NOT NULL," ++
  str1 LF ++ "                sentiment INTEGER NOT NULL" ++
  str1 LF ++ "            );" ++
  str1 LF ++ "        ".

(** [client.query(text, values)]: the table being there,
    [CREATE TABLE IF NOT EXISTS] changes nothing; the other statements
    are those of [Postgres.query]. *)
Definition query (text : string) (values : list value) (db : Postgres.database)
  : Postgres.database * throws (list object) :=
  if String.eqb text create_sql then (db, inr [])
  else Postgres.query text values db.

(** The triple pushed on the batch for one record of the CSV file:
    [[parseInt(record[''] || record['0']), record['review'],
      parseInt(record['sentiment'])]]. *)
Definition triple (record : object) : list value :=
  [ parseInt (or_else (lookup EmptyString record) (lookup "0" record));
    lookup "review" record;
    parseInt (lookup "sentiment" record) ].

(** The variables of [seed]: the store, the console, [batch] and
    [count]. *)
Record state : Type := {
  db : Postgres.database;
  console : list line;
  batch : list (list value);
  count : nat
}.

(** How a piece of [seed] ends: normally, or on a thrown error. *)
Inductive outcome : Type :=
| Done (s : state)
| Threw (s : state) (e : error).

(** [await insertBatch(client, batch); count += batch.length;
    console.log(...); batch = []]. *)
Definition flush (s : state) : outcome :=
  match Postgres.insertBatch (batch s) (db s) with
  | (db', inr _) =>
      let count' := (count s + List.length (batch s))%nat in
      Done {| db := db';
              console := (console s ++ [progress count' " records..."])%list;
              batch := [];
              count := count' |}
  | (db', inl e) =>
      Threw {| db := db'; console := console s;
               batch := batch s; count := count s |} e
  end.

(** The body of [for await (const record of parser)]. *)
Definition visit (record : object) (s : state) : outcome :=
  let s' := {| db := db s; console := console s;
               batch := (batch s ++ [triple record])%list;
               count := count s |} in
  if (List.length (batch s') =? BATCH_SIZE)%nat then flush s' else Done s'.

(** The variables when a piece of [seed] has ended. *)
Definition final (o : outcome) : state :=
  match o with
  | Done s => s
  | Threw s _ => s
  end.

Fixpoint loop (records : list object) (s : state) : outcome :=
  match records with
  | [] => Done s
  | record :: records' =>
      match visit record s with
      | Done s' => loop records' s'
      | Threw s' e => Threw s' e
      end
  end.

Definition log (l : line) (s : state) : state :=
  {| db := db s; console := (console s ++ [l])%list;
     batch := batch s; count := count s |}.

(** The [try] block of [seed], once connected. *)
Definition try_block (records : list object) (s : state) : outcome :=
  let s := log (Log "Connected to PostgreSQL") s in
  match query create_sql [] (db s) with
  | (db', inl e) =>
      Threw {| db := db'; console := console s;
               batch := batch s; count := count s |} e
  | (db', inr _) =>
      let s := log (Log "Ensured reviews table exists")
                   {| db := db'; console := console s;
                      batch := batch s; count := count s |} in
      match loop records s with
      | Threw s' e => Threw s' e
      | Done s' =>
          let last :=
            if (0 <? List.length (batch s'))%nat then flush s' else Done s' in
          match last with
          | Threw s'' e => Threw s'' e
          | Done s'' => Done (log (Log "Seeding completed successfully!") s'')
          end
      end
  end.

(** [seed()], on the records the CSV parser yields: the store and the
    console when it returns. *)
Definition seed (records : list object) (store : Postgres.database)
  : Postgres.database * list line :=
  let s0 := {| db := store; console := []; batch := []; count := O |} in
  match try_block records s0 with
  | Done s => (db s, console s)
  | Threw s e => (db s, (console s ++ [Error "Error seeding data:" e])%list)
  end.

End Pg.

(** ** [seed-es.mjs] *)

Module Es.

Definition BATCH_SIZE : nat := 500.

Definition indexName : string := "reviews".

(** The index is created with [external_id] an [integer], [review] a
    [text] and [sentiment] a [keyword]: of the documents [seed] builds
    from the strings of a CSV record, it refuses those whose
    identifier is out of the range of 32 bits. *)
Definition refused (doc : value) : bool :=
  match doc with
  | Obj o => match lookup "external_id" o with
             | Num e => negb (int32 e)
             | _ => false
             end
  | _ => false
  end.

(** The actions of a bulk body whose document the index takes, each
    with its document. *)
Fixpoint taken (body : list value) : list value :=
  match body with
  | a :: doc :: body' =>
      if refused doc then taken body' else a :: doc :: taken body'
  | _ => []
  end.

(** [client.bulk({ body })]: the body travels as JSON and its items are
    indexed one by one; the cluster afterwards, and the items of the
    response that carry an error ([result.errors] says whether there
    are any). *)
Definition bulk (body : list value) (c : Elastic.cluster)
  : Elastic.cluster * list value :=
  let sent := map Wire.transmit body in
  (Elastic.bulk (taken sent) c, filter refused (Elastic.bulk_sources sent)).

(** The action and the document pushed on the batch for one record. *)
Definition action : value :=
  Obj [("index", Obj [("_index", Str indexName)])].

Definition document (record : object) : value :=
  Obj [ ("external_id",
         parseInt (or_else (lookup EmptyString record) (lookup "0" record)));
        ("review", lookup "review" record);
        ("sentiment", parseInt (lookup "sentiment" record)) ].

Record state : Type := {
  es : Elastic.cluster;
  console : list line;
  batch : list value;
  count : nat
}.

(** [count += batch.length / 2; console.log(...); batch = []].  The
    batch always holds an action and a document for each record. *)
Definition counted (s : state) : state :=
  let count' := (count s + Nat.div (List.length (batch s)) 2)%nat in
  {| es := es s;
     console := (console s ++ [progress count' " records in Elasticsearch..."])%list;
     batch := [];
     count := count' |}.

(** A full batch inside the loop: [const result = await
    client.bulk({ body: batch }); if (result.errors) console.error(...)],
    then the count. *)
Definition flush (s : state) : state :=
  let (es', items) := bulk (batch s) (es s) in
  let console' :=
    match items with
    | [] => console s
    | _ :: _ => (console s ++ [Failed "Bulk index errors:" items])%list
    end in
  counted {| es := es'; console := console'; batch := batch s; count := count s |}.

(** What is left after the loop: [await client.bulk({ body: batch })],
    whose response is not looked at, then the count. *)
Definition flush_rest (s : state) : state :=
  counted {| es := fst (bulk (batch s) (es s)); console := console s;
             batch := batch s; count := count s |}.

(** The body of [for await (const record of parser)]; the batch is
    sent when [batch.length / 2 === BATCH_SIZE]. *)
Definition visit (record : object) (s : state) : state :=
  let s' := {| es := es s; console := console s;
               batch := (batch s ++ [action; document record])%list;
               count := count s |} in
  if (List.length (batch s') =? 2 * BATCH_SIZE)%nat then flush s' else s'.

Definition loop (records : list object) (s : state) : state :=
  fold_left (fun s record => visit record s) records s.

Definition log (l : line) (s : state) : state :=
  {| es := es s; console := (console s ++ [l])%list;
     batch := batch s; count := count s |}.

(** [seed()], on the records the CSV parser yields, the cluster
    answering every request. *)
Definition seed (records : list object) (c : Elastic.cluster)
  : Elastic.cluster * list line :=
  let s := {| es := c; console := [Log "Connected to Elasticsearch"];
              batch := []; count := O |} in
  let s := match c with
           | Some _ => log (Log "Index reviews already exists. Deleting...") s
           | None => s
           end in
  let s := log (Log "Created index reviews")
               {| es := Elastic.recreate (es s); console := console s;
                  batch := batch s; count := count s |} in
  let s := loop records s in
  let s := if (0 <? List.length (batch s))%nat then flush_rest s else s in
  let s := log (Log "Elasticsearch seeding completed successfully!") s in
  (es s, console s).

End Es.

(** ** Records of the CSV file *)

(** A record both stores take: its identifier and its sentiment are
    read as integers of 32 bits, its review is a text. *)
Definition clean (record : object) : bool :=
  match Pg.triple record with
  | [Num e; Str r; Num s] => int32 e && int32 s && no_zero_byte r
  | _ => false
  end.

(** A triple the [INSERT] of [insertBatch] takes: an integer of 32
    bits, a text without a zero byte, an integer of 32 bits. *)
Definition accepted (t : list value) : bool :=
  match t with
  | [Num e; Str r; Num s] => int32 e && int32 s && no_zero_byte r
  | _ => false
  end.

(** The keys of the table are sound: no two rows share an [id], no two
    share an [external_id], and every [id] was drawn from the
    sequence. *)
Definition keys_sound (t : Postgres.database) : Prop :=
  NoDup (map Postgres.id (Postgres.reviews t)) /\
  NoDup (map Postgres.external_id (Postgres.reviews t)) /\
  Forall (fun r => Postgres.id r < Postgres.next_id t) (Postgres.reviews t).

Definition is_log (l : line) : Prop :=
  match l with
  | Log _ => True
  | Error _ _ | Failed _ _ => False
  end.

(** The console shows no error and ends on the given line. *)
Definition ends_well (final : string) (console : list line) : Prop :=
  Forall is_log console /\
  exists before, console = (before ++ [Log final])%list.

(** What a stored review says, whichever store holds it. *)
Definition fields_of_row (r : Postgres.row) : list value :=
  [Num (Postgres.external_id r); Str (Postgres.review r); Num (Postgres.sentiment r)].

Definition fields_of_document (d : value) : list value :=
  match d with
  | Obj o => [lookup "external_id" o; lookup "review" o; lookup "sentiment" o]
  | _ => []
  end.

(** A batch as [seed] of [seed-es.mjs] builds it: an action before each
    document. *)
Definition pairs (ds : list value) : list value :=
  flat_map (fun d => [Es.action; d]) ds.

(** A record as the CSV parser yields it: every column a string. *)
Definition is_text (v : value) : bool :=
  match v with
  | Str _ => true
  | _ => false
  end.

Definition parsed (record : object) : bool :=
  forallb (fun column => is_text (snd column)) record.

(** The document of the record as the index receives it, and whether
    the index takes it. *)
Definition received (record : object) : value :=
  Wire.transmit (Es.document record).

Definition indexable (record : object) : bool :=
  negb (Es.refused (received record)).

(** A record of which a number cannot be read, or the review is
    missing. *)
Definition unreadable (record : object) : bool :=
  match Pg.triple record with
  | [NaN; _; _] | [_; Undefined; _] | [_; _; NaN] => true
  | _ => false
  end.



(** A CSV record, as the parser yields it with [columns: true]. *)
Definition csv_record (id review sentiment : string) : object :=
  [(EmptyString, Str id); ("review", Str review); ("sentiment", Str sentiment)].

(** Two records of the file, and one whose first column is empty. *)
Definition two_records : list object :=
  [ csv_record "0" "One of the other reviewers has mentioned" "1";
    csv_record "1" "A wonderful little production" "1" ].

Definition nameless_record : object :=
  csv_record EmptyString "Basically there is a family" "0".

(** A record whose identifier does not fit 32 bits. *)
Definition oversized_record : object :=
  csv_record "4294967296" "Petter Mattei's Love in the Time of Money" "1".

End Seed.

(* ================================================================== *)
(** * Schedules and queries of a special kind *)
(* ================================================================== *)

Module Special.
Import Js Route.

(** The event comes from the table, or from the index. *)
Definition from_postgres (ev : event) : Prop :=
  match ev with
  | PostgresSettles _ => True
  | ElasticSettles _ => False
  end.

Definition from_elastic (ev : event) : Prop :=
  match ev with
  | PostgresSettles _ => False
  | ElasticSettles _ => True
  end.


(** A row of [reviews] as the relational adapter hands it on. *)
Definition record_of_row (r : Postgres.row) : value :=
  Obj [ ("id", Num (Postgres.id r));
        ("external_id", Num (Postgres.external_id r));
        ("review", Str (Postgres.review r));
        ("sentiment", Num (Postgres.sentiment r)) ].

End Special.

(* ================================================================== *)
(** * The address of a search request *)
(* ================================================================== *)

Module Url.
Import Js.

(** The characters [encodeURIComponent] leaves as they are. *)
Definition unreserved (c : ascii) : bool :=
  Elastic.is_alnum c ||
  existsb (Ascii.eqb c) ["-"; "_"; "."; "!"; "~"; "*"; "'"; "("; ")"]%char.

Definition upper_hex (n : nat) : ascii :=
  nth n ["0"; "1"; "2"; "3"; "4"; "5"; "6"; "7"; "8"; "9";
         "A"; "B"; "C"; "D"; "E"; "F"]%char "0"%char.

Definition encode_char (c : ascii) : string :=
  if unreserved c then str1 c
  else let n := nat_of_ascii c in
       String "%" (String (upper_hex (n / 16)) (str1 (upper_hex (n mod 16)))).

(** [encodeURIComponent(s)], on the bytes of [s]. *)
Fixpoint encodeURIComponent (s : string) : string :=
  match s with
  | EmptyString => EmptyString
  | String c s' => encode_char c ++ encodeURIComponent s'
  end.

(** What precedes the first [sep] in [s] (all of [s] without one), and
    what follows it. *)
Fixpoint before (sep : ascii) (s : string) : string :=
  match s with
  | EmptyString => EmptyString
  | String c s' => if Ascii.eqb c sep then EmptyString else String c (before sep s')
  end.

Fixpoint after (sep : ascii) (s : string) : option string :=
  match s with
  | EmptyString => None
  | String c s' => if Ascii.eqb c sep then Some s' else after sep s'
  end.

(** [s.split(sep)], continuing the piece [cur]. *)
Fixpoint split (sep : ascii) (s cur : string) : list string :=
  match s with
  | EmptyString => [cur]
  | String c s' =>
      if Ascii.eqb c sep then cur :: split sep s' EmptyString
      else split sep s' (cur ++ str1 c)
  end.

(** The query of an address: what stands between the first [?] and
    the fragment. *)
Definition search (url : string) : string :=
  match after "?" (before "#" url) with
  | Some q => q
  | None => EmptyString
  end.

(** Decoding of a name or a value of the query: [+] is a space, then
    [%] and two hexadecimal digits are the byte they write. *)
Fixpoint plus_to_space (s : string) : string :=
  match s with
  | EmptyString => EmptyString
  | String c s' => String (if Ascii.eqb c "+" then " "%char else c) (plus_to_space s')
  end.

Fixpoint percent_decode (s : string) : string :=
  match s with
  | EmptyString => EmptyString
  | String c s1 =>
      let literal := String c (percent_decode s1) in
      if Ascii.eqb c "%" then
        match s1 with
        | String h1 (String h2 s3) =>
            match digit 16 h1, digit 16 h2 with
            | Some a, Some b =>
                String (ascii_of_nat (Z.to_nat (16 * a + b))) (percent_decode s3)
            | _, _ => literal
            end
        | _ => literal
        end
      else literal
  end.

Definition decode (s : string) : string := percent_decode (plus_to_space s).

(** [url.searchParams]: the pieces between [&], each a name and a
    value around its first [=]. *)
Definition parameter (piece : string) : string * string :=
  (decode (before "=" piece),
   decode (match after "=" piece with
           | Some v => v
           | None => EmptyString
           end)).

Definition searchParams (url : string) : list (string * string) :=
  map parameter
      (filter (fun piece => negb (String.eqb piece EmptyString))
              (split "&" (search url) EmptyString)).

(** No character of [s] is [sep]. *)
Definition free_of (sep : ascii) (s : string) : Prop :=
  forall a b, s <> a ++ String sep b.

(** [searchParams.get(name)]: the first value under the name, or
    [null]. *)
Fixpoint get (name : string) (params : list (string * string)) : option string :=
  match params with
  | [] => None
  | (k, v) :: params' => if String.eqb k name then Some v else get name params'
  end.

End Url.

(* ================================================================== *)
(** * JSON.parse *)
(* ================================================================== *)

Module Json.
Import Js.

(** The result of reading a value at the head of a text: the value and
    what follows it, a syntax error, or a text that is not interpreted
    here (a number that is not an integer, an escape beyond ASCII).
    Numbers are the integers, as everywhere in this development. *)
Inductive result (A : Type) : Type :=
| Parsed (a : A) (rest : string)
| SyntaxError
| Unread.

Arguments Parsed {A} a rest.
Arguments SyntaxError {A}.
Arguments Unread {A}.

Definition is_ws (c : ascii) : bool :=
  let n := nat_of_ascii c in
  (n =? 32)%nat || (n =? 9)%nat || (n =? 10)%nat || (n =? 13)%nat.

Fixpoint skip_ws (s : string) : string :=
  match s with
  | String c s' => if is_ws c then skip_ws s' else s
  | EmptyString => s
  end.

(** ** Strings *)

(** The character an escape of one letter stands for. *)
Definition simple_escape (e : ascii) : option ascii :=
  if Ascii.eqb e dquote then Some dquote
  else if Ascii.eqb e backslash then Some backslash
  else if Ascii.eqb e "/" then Some "/"%char
  else if Ascii.eqb e "b" then Some "008"%char
  else if Ascii.eqb e "f" then Some "012"%char
  else if Ascii.eqb e "n" then Some LF
  else if Ascii.eqb e "r" then Some CR
  else if Ascii.eqb e "t" then Some "009"%char
  else None.

Definition hex4 (a b c d : ascii) : option Z :=
  match digit 16 a, digit 16 b, digit 16 c, digit 16 d with
  | Some x, Some y, Some z, Some w => Some (((x * 16 + y) * 16 + z) * 16 + w)
  | _, _, _, _ => None
  end.

Definition consed (c : ascii) (r : result string) : result string :=
  match r with
  | Parsed t rest => Parsed (String c t) rest
  | SyntaxError => SyntaxError
  | Unread => Unread
  end.

(** The characters of a string, read after its opening quote up to
    the closing one. *)
Fixpoint parse_chars (s : string) : result string :=
  match s with
  | EmptyString => SyntaxError
  | String c s1 =>
      if Ascii.eqb c dquote then Parsed EmptyString s1
      else if Ascii.eqb c backslash then
        match s1 with
        | EmptyString => SyntaxError
        | String e s2 =>
            match simple_escape e with
            | Some x => consed x (parse_chars s2)
            | None =>
                if Ascii.eqb e "u" then
                  match s2 with
                  | String h1 (String h2 (String h3 (String h4 s3))) =>
                      match hex4 h1 h2 h3 h4 with
                      | Some n =>
                          if n <? 128
                          then consed (ascii_of_nat (Z.to_nat n)) (parse_chars s3)
                          else Unread
                      | None => SyntaxError
                      end
                  | _ => SyntaxError
                  end
                else SyntaxError
            end
        end
      else if (nat_of_ascii c <? 32)%nat then SyntaxError
      else consed c (parse_chars s1)
  end.

(** ** Numbers *)

Definition is_digit (c : ascii) : bool :=
  let n := nat_of_ascii c in (48 <=? n)%nat && (n <=? 57)%nat.

Fixpoint drop_digits (s : string) : string :=
  match s with
  | String c s' => if is_digit c then drop_digits s' else s
  | EmptyString => s
  end.

(** An integer: digits without a needless zero in front, and neither
    a fraction nor an exponent behind. *)
Definition parse_natural (s : string) : result Z :=
  match s with
  | EmptyString => SyntaxError
  | String c s' =>
      if is_digit c then
        let rest := drop_digits s' in
        if Ascii.eqb c "0" && negb (String.eqb rest s') then SyntaxError
        else match rest with
             | String x _ =>
                 if Ascii.eqb x "." || Ascii.eqb x "e" || Ascii.eqb x "E"
                 then Unread
                 else Parsed (digits 10 s 0) rest
             | EmptyString => Parsed (digits 10 s 0) rest
             end
      else SyntaxError
  end.

Definition parse_number (s : string) : result value :=
  match s with
  | String "-" s' =>
      match parse_natural s' with
      | Parsed n rest => Parsed (Num (- n)) rest
      | SyntaxError => SyntaxError
      | Unread => Unread
      end
  | _ =>
      match parse_natural s with
      | Parsed n rest => Parsed (Num n) rest
      | SyntaxError => SyntaxError
      | Unread => Unread
      end
  end.

(** ** Values *)

(** [s] without the prefix [word], if it starts with it. *)
Fixpoint after_word (word s : string) : option string :=
  match word with
  | EmptyString => Some s
  | String c word' =>
      match s with
      | String x s' => if Ascii.eqb x c then after_word word' s' else None
      | EmptyString => None
      end
  end.

(** Setting the property [k] of an object being built: a key that is
    there keeps its place and takes the new value. *)
Fixpoint define (k : string) (v : value) (o : object) : object :=
  match o with
  | [] => [(k, v)]
  | (k', v') :: o' =>
      if String.eqb k' k then (k', v) :: o' else (k', v') :: define k v o'
  end.

(** A value at the head of [s]; [fuel] bounds the calls, and the
    length of the text is always enough. *)
Fixpoint parse_value (fuel : nat) (s : string) : result value :=
  match fuel with
  | O => Unread
  | S fuel' =>
      match skip_ws s with
      | EmptyString => SyntaxError
      | String c s1 =>
          if Ascii.eqb c dquote then
            match parse_chars s1 with
            | Parsed t rest => Parsed (Str t) rest
            | SyntaxError => SyntaxError
            | Unread => Unread
            end
          else if Ascii.eqb c "[" then
            match skip_ws s1 with
            | String "]" rest => Parsed (Arr []) rest
            | _ => parse_elements fuel' s1 []
            end
          else if Ascii.eqb c "{" then
            match skip_ws s1 with
            | String "}" rest => Parsed (Obj []) rest
            | _ => parse_members fuel' s1 []
            end
          else
            match after_word "null" (String c s1) with
            | Some rest => Parsed Null rest
            | None =>
                match after_word "true" (String c s1) with
                | Some rest => Parsed (Bool true) rest
                | None =>
                    match after_word "false" (String c s1) with
                    | Some rest => Parsed (Bool false) rest
                    | None => parse_number (String c s1)
                    end
                end
            end
      end
  end

with parse_elements (fuel : nat) (s : string) (acc : list value) : result value :=
  match fuel with
  | O => Unread
  | S fuel' =>
      match parse_value fuel' s with
      | Parsed v rest =>
          match skip_ws rest with
          | String x rest' =>
              if Ascii.eqb x "," then parse_elements fuel' rest' (acc ++ [v])%list
              else if Ascii.eqb x "]" then Parsed (Arr (acc ++ [v])%list) rest'
              else SyntaxError
          | EmptyString => SyntaxError
          end
      | SyntaxError => SyntaxError
      | Unread => Unread
      end
  end

with parse_members (fuel : nat) (s : string) (acc : object) : result value :=
  match fuel with
  | O => Unread
  | S fuel' =>
      match skip_ws s with
      | String q s1 =>
          if Ascii.eqb q dquote then
            match parse_chars s1 with
            | Parsed k rest =>
                match skip_ws rest with
                | String colon rest1 =>
                    if Ascii.eqb colon ":" then
                      match parse_value fuel' rest1 with
                      | Parsed v rest2 =>
                          match skip_ws rest2 with
                          | String x rest3 =>
                              if Ascii.eqb x ","
                              then parse_members fuel' rest3 (define k v acc)
                              else if Ascii.eqb x "}"
                              then Parsed (Obj (define k v acc)) rest3
                              else SyntaxError
                          | EmptyString => SyntaxError
                          end
                      | SyntaxError => SyntaxError
                      | Unread => Unread
                      end
                    else SyntaxError
                | EmptyString => SyntaxError
                end
            | SyntaxError => SyntaxError
            | Unread => Unread
            end
          else SyntaxError
      | EmptyString => SyntaxError
      end
  end.

(** [JSON.parse(s)]: one value, and nothing but white space after
    it. *)
Definition JSON_parse (s : string) : result value :=
  match parse_value (S (String.length s)) s with
  | Parsed v rest =>
      match skip_ws rest with
      | EmptyString => Parsed v EmptyString
      | String _ _ => SyntaxError
      end
  | SyntaxError => SyntaxError
  | Unread => Unread
  end.

(** ** Values as the language has them *)

Fixpoint distinct (keys : list string) : bool :=
  match keys with
  | [] => true
  | k :: keys' => negb (existsb (String.eqb k) keys') && distinct keys'
  end.

(** No object of [v] has two properties of the same name. *)
Fixpoint tidy (v : value) : bool :=
  match v with
  | Arr items => forallb tidy items
  | Obj props =>
      distinct (map fst props) && forallb (fun p => tidy (snd p)) props
  | _ => true
  end.

(** What [JSON.stringify] writes for an item of an array and for a
    property of an object, and what reading it back gives. *)
Definition element_text (x : value) : string :=
  match stringify x with
  | Some t => t
  | None => "null"
  end.

Definition element (x : value) : value :=
  match Wire.transmit x with
  | Undefined => Null
  | y => y
  end.

Definition member_text (p : string * value) : list string :=
  match stringify (snd p) with
  | Some t => [quote (fst p) ++ ":" ++ t]
  | None => []
  end.

Definition member (p : string * value) : list (string * value) :=
  match Wire.transmit (snd p) with
  | Undefined => []
  | y => [(fst p, y)]
  end.

(** A character a value can start with is no white space and closes
    neither an array nor an object. *)
Definition opens (c : ascii) : bool :=
  negb (is_ws c) && negb (Ascii.eqb c "]") && negb (Ascii.eqb c "}").

(** What follows a value inside a text that [JSON.stringify] wrote. *)
Definition stops (rest : string) : Prop :=
  match rest with
  | EmptyString => True
  | String c _ => c = ","%char \/ c = "]"%char \/ c = "}"%char
  end.

(** A value that JSON can write as it is: no [undefined], no [NaN],
    and no object with two properties of the same name. *)
Fixpoint wire (v : value) : bool :=
  match v with
  | Undefined | NaN => false
  | Arr items => forallb wire items
  | Obj props =>
      distinct (map fst props) && forallb (fun p => wire (snd p)) props
  | _ => true
  end.

(** The text of [v] is read back as the value the receiver gets. *)
Definition reads_back (v : value) : Prop :=
  tidy v = true ->
  forall (t rest : string) (fuel : nat),
    stringify v = Some t ->
    (String.length t < fuel)%nat ->
    stops rest ->
    parse_value fuel (t ++ rest) = Parsed (Wire.transmit v) rest.

End Json.

(* ================================================================== *)
(** * The event stream as the browser reads it *)
(* ================================================================== *)

Module Sse.
Import Js.

(** The lines of a stream that are complete: a line ends with a line
    feed, a carriage return, or the two in a row.  [cur] is the line
    being read. *)
Fixpoint lines (s cur : string) : list string :=
  match s with
  | EmptyString => []
  | String c s' =>
      if Ascii.eqb c LF then cur :: lines s' EmptyString
      else if Ascii.eqb c CR then
        match s' with
        | EmptyString => [cur]
        | String c' s'' =>
            if Ascii.eqb c' LF then cur :: lines s'' EmptyString
            else cur :: lines s' EmptyString
        end
      else lines s' (cur ++ str1 c)
  end.

(** A byte order mark at the head of the stream is dropped. *)
Definition strip_bom (s : string) : string :=
  match s with
  | String "239" (String "187" (String "191" s')) => s'
  | _ => s
  end.

(** The data and the event type gathered for the event being read. *)
Record buffers : Type := {
  data : string;
  kind : string
}.

Definition empty : buffers := {| data := EmptyString; kind := EmptyString |}.

(** The name and the value of a field: around the first colon, less
    one space after it. *)
Definition field (line : string) : string * string :=
  match Url.after ":" line with
  | Some v =>
      (Url.before ":" line,
       match v with
       | String " " v' => v'
       | _ => v
       end)
  | None => (line, EmptyString)
  end.

(** [s] without the line feed that ends it, if one does. *)
Fixpoint chop (s : string) : string :=
  match s with
  | EmptyString => EmptyString
  | String c s' =>
      match s' with
      | EmptyString => if Ascii.eqb c LF then EmptyString else s
      | String _ _ => String c (chop s')
      end
  end.

(** One line: an empty line dispatches the event gathered (none
    without data), a line that starts with a colon is a comment, the
    fields [data] and [event] are gathered, [id] and [retry] (which
    the page does not use) and any other are passed over.  An event is
    its type and its data. *)
Definition take (line : string) (b : buffers)
  : buffers * option (string * string) :=
  match line with
  | EmptyString =>
      (empty,
       match data b with
       | EmptyString => None
       | String _ _ =>
           Some (match kind b with
                 | EmptyString => "message"
                 | String _ _ => kind b
                 end, chop (data b))
       end)
  | String c _ =>
      if Ascii.eqb c ":" then (b, None)
      else
        let (name, value) := field line in
        if String.eqb name "data"
        then ({| data := data b ++ value ++ str1 LF; kind := kind b |}, None)
        else if String.eqb name "event"
        then ({| data := data b; kind := value |}, None)
        else (b, None)
  end.

Fixpoint events (ls : list string) (b : buffers) : list (string * string) :=
  match ls with
  | [] => []
  | line :: ls' =>
      match take line b with
      | (b', Some e) => e :: events ls' b'
      | (b', None) => events ls' b'
      end
  end.

(** What [onmessage] is called with, in order: the data of the events
    of type [message]. *)
Definition messages (stream : string) : list string :=
  map snd
      (filter (fun e => String.eqb (fst e) "message")
              (events (lines (strip_bom stream) EmptyString) empty)).

(** The block [sendData] of the route writes for a payload. *)
Definition block (payload : string) : string :=
  "data: " ++ payload ++ String LF (str1 LF).

(** The object [sendData] writes: [{ source, data, time }]. *)
Definition payload (source : string) (data : value) (time : Z) : value :=
  Obj [("source", Str source); ("data", data); ("time", Num time)].

End Sse.

(* ================================================================== *)
(** * The page *)
(* ================================================================== *)

Module Page.
Import Js.

(** [s.trimStart()]: the white space and line ends that start [s],
    of one byte or more, are cut. *)
Fixpoint trimStart (s : string) : string :=
  match s with
  | EmptyString => s
  | String a s1 =>
      if is_space a then trimStart s1
      else match s1 with
           | EmptyString => s
           | String b s2 =>
               if wide_space2 a b then trimStart s2
               else match s2 with
                    | EmptyString => s
                    | String c s3 =>
                        if wide_space3 a b c then trimStart s3 else s
                    end
           end
  end.

(** [s.trimEnd()]: what remains once the white space that ends [s] is
    cut. *)
Fixpoint trimEnd (s : string) : string :=
  match s with
  | EmptyString => s
  | String a s1 =>
      match trimStart s with
      | EmptyString => EmptyString
      | String _ _ => String a (trimEnd s1)
      end
  end.

(** [s.trim()]. *)
Definition trim (s : string) : string := trimEnd (trimStart s).

(** The state of [Home]: the text of the input and the three other
    [useState] cells; [null] is [None]. *)
Record state : Type := {
  query : string;
  postgresResult : option value;
  elasticResult : option value;
  isSearching : bool
}.



(** The address [handleSearch] opens its [EventSource] on. *)
Definition request (text : string) : string :=
  "/api/search?q=" ++ Url.encodeURIComponent text.

(** [handleSearch]: the state it sets and the address it opens, if it
    opens one. *)
Definition handleSearch (st : state) : state * option string :=
  match trim (query st) with
  | EmptyString => (st, None)
  | String _ _ =>
      ({| query := query st; postgresResult := None; elasticResult := None;
          isSearching := true |},
       Some (request (query st)))
  end.

(** What the route gets from [req.nextUrl.searchParams.get('q')] for a
    request to the given address. *)
Definition received_query (url : string) : option string :=
  Url.get "q" (Url.searchParams url).










End Page.

(* ================================================================== *)
(** * A search from the page to the stores and back *)
(* ================================================================== *)

Module Session.
Import Js.




Section Submit.

Variable matches : Elastic.query_string -> string -> bool.
Variable now : nat -> Q.



End Submit.

End Session.
(* ================================================================== *)
(** * Facts about the JavaScript built-ins *)
(* ================================================================== *)

Module JsFacts.
Import Js.

Lemma digits_cons (k : Z) (c : ascii) (s : string) (acc : Z) :
  digit 10 c = Some k ->
  digits 10 (String c s) acc = digits 10 s (10 * acc + k).
Proof. intro H. cbn [digits]. rewrite H. reflexivity. Qed.

Ltac eat_digit :=
  match goal with
  | |- context [digits 10 (String ?c ?s) ?a] =>
      let k := eval vm_compute in (digit 10 c) in
      match k with
      | Some ?v => rewrite (digits_cons v c s a) by reflexivity
      end
  end.

(** Reading the digits of a printed number gives the number back. *)
Lemma digits_of_uint_acc (d : Decimal.uint) (acc : positive) :
  digits 10 (NilEmpty.string_of_uint d) (Z.pos acc) = Z.pos (Pos.of_uint_acc d acc).
Proof.
  revert acc.
  induction d; intro acc; cbn [NilEmpty.string_of_uint Pos.of_uint_acc];
    [ reflexivity | eat_digit; rewrite <- IHd; f_equal; lia .. ].
Qed.

Lemma digits_of_uint (d : Decimal.uint) :
  digits 10 (NilEmpty.string_of_uint d) 0 = Z.of_N (Pos.of_uint d).
Proof.
  induction d; cbn [NilEmpty.string_of_uint Pos.of_uint];
    [ reflexivity | eat_digit .. ];
    [ exact IHd | apply (digits_of_uint_acc d) .. ].
Qed.

Lemma parseInt_of_uint (d : Decimal.uint) :
  d <> Decimal.Nil ->
  parseInt_string (NilEmpty.string_of_uint d)
  = Num (digits 10 (NilEmpty.string_of_uint d) 0).
Proof.
  intro Hd.
  destruct d as [|d|d|d|d|d|d|d|d|d|d]; [contradiction | ..];
    destruct d; reflexivity.
Qed.

Lemma parse_magnitude_of_uint (d : Decimal.uint) :
  d <> Decimal.Nil ->
  parse_magnitude (NilEmpty.string_of_uint d)
  = Num (digits 10 (NilEmpty.string_of_uint d) 0).
Proof.
  intro Hd.
  destruct d as [|d|d|d|d|d|d|d|d|d|d]; [contradiction | ..];
    destruct d; reflexivity.
Qed.

Lemma string_of_uint_nonnil (d : Decimal.uint) :
  d <> Decimal.Nil -> NilZero.string_of_uint d = NilEmpty.string_of_uint d.
Proof. destruct d; [contradiction | reflexivity ..]. Qed.

(** [parseInt] undoes the decimal rendering of an integer. *)
Lemma parseInt_string_of_Z (z : Z) : parseInt (Str (string_of_Z z)) = Num z.
Proof.
  unfold parseInt, string_of_Z; cbn [ToString].
  destruct z as [|p|p]; [reflexivity | |]; cbn [Z.to_int NilZero.string_of_int].
  - rewrite string_of_uint_nonnil by apply Unsigned.to_uint_nonnil.
    rewrite parseInt_of_uint by apply Unsigned.to_uint_nonnil.
    rewrite digits_of_uint, Unsigned.of_to. reflexivity.
  - rewrite string_of_uint_nonnil by apply Unsigned.to_uint_nonnil.
    assert (H : skip_spaces (String "-" (NilEmpty.string_of_uint (Pos.to_uint p)))
                = String "-" (NilEmpty.string_of_uint (Pos.to_uint p))) by reflexivity.
    unfold parseInt_string. rewrite H.
    rewrite parse_magnitude_of_uint by apply Unsigned.to_uint_nonnil.
    rewrite digits_of_uint, Unsigned.of_to. reflexivity.
Qed.

End JsFacts.

(* ================================================================== *)
(** * The reachable states of the handler *)
(* ================================================================== *)

Module ProtocolFacts.
Import Js Route Protocol.

Section Reachable.

Variable now : nat -> Q.

Lemma start_consistent (query : string) : consistent now (start now query).
Proof.
  split; cbn; try reflexivity; auto.
  repeat split; auto.
Qed.

Ltac break_hyps :=
  repeat match goal with
         | H : _ /\ _ |- _ => destruct H
         | H : _ \/ _ |- _ => destruct H
         end;
  subst; try discriminate; try lia.

Ltac frames :=
  repeat match goal with
         | |- Forall _ (_ ++ _) => apply Forall_app; split
         | |- Forall _ [_] => constructor; [ | constructor ]
         | |- outcome_frame _ _ => (apply postgres_frame; lia) || (eapply elastic_frame; eauto; lia)
         end; auto.

Lemma step_consistent (h : handler) (ev : event) :
  consistent now h -> consistent now (step now h ev).
Proof.
  intros [Hck Hps Hes Hfr Hlen Hag].
  destruct h as [[[st wr] ck con] ps es cl pgp esp al].
  unfold agrees, emitted, stream_state in *; cbn in *.
  destruct ev as [[e | rows] | [e | result]];
    destruct pgp, esp, al; cbn in *; break_hyps;
    unfold step, elasticSearch_resume, postgresSearch_resume, bind, lift,
      performance_now, sendData, controller_enqueue; cbn;
    try (destruct (elastic_total result) eqn:Htot; cbn);
    try (destruct (elastic_data result) eqn:Hdat; cbn);
    (split; unfold agrees, emitted, stream_state; cbn;
     rewrite ?length_app; cbn; try lia; auto; frames);
    repeat split; auto; lia.
Qed.

Lemma run_consistent (schedule : list event) (h : handler) :
  consistent now h -> consistent now (run now h schedule).
Proof.
  revert h.
  induction schedule as [| ev schedule IH]; intros h Hh; cbn; auto.
  apply IH, step_consistent, Hh.
Qed.

(** Every state reached from [start] is consistent. *)
Lemma reachable_consistent (query : string) (schedule : list event) :
  consistent now (run now (start now query) schedule).
Proof. apply run_consistent, start_consistent. Qed.

(** Once [Promise.all] has settled, no event changes what the caller
    sees. *)
Lemma settled_step (h : handler) (ev : event) :
  consistent now h -> all h <> Pending ->
  emitted (step now h ev) = emitted h /\
  stream_state (step now h ev) = stream_state h /\
  console (io (step now h ev)) = console (io h) /\
  all (step now h ev) = all h.
Proof.
  intros [Hck Hps Hes Hfr Hlen Hag] Hall.
  destruct h as [[[st wr] ck con] ps es cl pgp esp al].
  unfold agrees, emitted, stream_state in *; cbn in *.
  destruct ev as [[e | rows] | [e | result]];
    destruct pgp, esp, al; cbn in *; try congruence; break_hyps;
    unfold step, elasticSearch_resume, postgresSearch_resume, bind, lift,
      performance_now, sendData, controller_enqueue; cbn;
    try (destruct (elastic_total result) eqn:Htot; cbn);
    try (destruct (elastic_data result) eqn:Hdat; cbn);
    repeat split; auto.
Qed.

Lemma settled_run (schedule : list event) (h : handler) :
  consistent now h -> all h <> Pending ->
  emitted (run now h schedule) = emitted h /\
  stream_state (run now h schedule) = stream_state h /\
  console (io (run now h schedule)) = console (io h) /\
  all (run now h schedule) = all h.
Proof.
  revert h.
  induction schedule as [| ev schedule IH]; intros h Hh Hall; [cbn; auto |].
  change (run now h (ev :: schedule)) with (run now (step now h ev) schedule).
  destruct (settled_step h ev Hh Hall) as (He & Hs & Hc & Ha).
  destruct (IH (step now h ev)) as (He' & Hs' & Hc' & Ha').
  - apply step_consistent, Hh.
  - rewrite Ha. exact Hall.
  - rewrite He', Hs', Hc', Ha'. auto.
Qed.

End Reachable.
End ProtocolFacts.


(* ================================================================== *)
(** * Patterns against plain text *)
(* ================================================================== *)

Module LikeFacts.
Import Js Postgres.









Lemma toLowerCase_app (a b : string) :
  toLowerCase (a ++ b) = toLowerCase a ++ toLowerCase b.
Proof. induction a as [| c a IH]; cbn; [reflexivity | rewrite IH; reflexivity]. Qed.




End LikeFacts.

(* ================================================================== *)
(** * JSON texts hold no line break *)
(* ================================================================== *)

Module JsonFacts.
Import Js.

(** Induction on values, through arrays and objects. *)
Lemma value_induction (P : value -> Prop) :
  P Undefined -> P Null -> (forall b, P (Bool b)) -> (forall n, P (Num n)) ->
  P NaN -> (forall s, P (Str s)) ->
  (forall items, Forall P items -> P (Arr items)) ->
  (forall props, Forall (fun p => P (snd p)) props -> P (Obj props)) ->
  forall v, P v.
Proof.
  intros HU HN HB HZ HNaN HS HA HO.
  fix IH 1.
  intros [ | | b | n | | s | items | props];
    [ exact HU | exact HN | apply HB | apply HZ | exact HNaN | apply HS | | ].
  - apply HA. revert items. fix IHl 1.
    intros [| x l]; constructor; [apply IH | apply IHl].
  - apply HO. revert props. fix IHl 1.
    intros [| [k x] l]; constructor; [apply IH | apply IHl].
Qed.

Lemma single_line_app (a b : string) :
  single_line (a ++ b) = single_line a && single_line b.
Proof.
  induction a as [| c a IH]; cbn; [reflexivity |].
  rewrite IH, !andb_assoc. reflexivity.
Qed.

Lemma single_line_cons (c : ascii) (s : string) :
  single_line (String c s) = single_line (str1 c) && single_line s.
Proof. cbn [single_line str1]. rewrite andb_true_r. reflexivity. Qed.

Lemma single_line_escape_char (c : ascii) : single_line (escape_char c) = true.
Proof. destruct c as [[] [] [] [] [] [] [] []]; reflexivity. Qed.

Lemma single_line_escape (s : string) : single_line (escape s) = true.
Proof.
  induction s as [| c s IH]; [reflexivity |].
  cbn [escape]. rewrite single_line_app, single_line_escape_char, IH. reflexivity.
Qed.

Lemma single_line_quote (s : string) : single_line (quote s) = true.
Proof.
  unfold quote. cbn [single_line].
  rewrite single_line_app, single_line_escape. reflexivity.
Qed.

Lemma single_line_uint (d : Decimal.uint) :
  single_line (NilEmpty.string_of_uint d) = true.
Proof. induction d; cbn; auto. Qed.

Lemma single_line_string_of_Z (n : Z) : single_line (string_of_Z n) = true.
Proof.
  unfold string_of_Z.
  destruct n as [| p | p]; [reflexivity | |]; cbn [Z.to_int NilZero.string_of_int];
    rewrite JsFacts.string_of_uint_nonnil by apply Unsigned.to_uint_nonnil;
    cbn [single_line]; rewrite ?single_line_uint; reflexivity.
Qed.

Lemma single_line_join (sep : string) (l : list string) :
  single_line sep = true ->
  Forall (fun s => single_line s = true) l ->
  single_line (join sep l) = true.
Proof.
  intros Hsep Hl.
  induction Hl as [| x l Hx Hl IH]; [reflexivity |].
  destruct l as [| y l]; [exact Hx |].
  change (join sep (x :: y :: l)) with (x ++ sep ++ join sep (y :: l)).
  rewrite !single_line_app, Hx, Hsep, IH. reflexivity.
Qed.

(** [JSON.stringify] never puts a line break in its result. *)
Lemma single_line_stringify (v : value) (t : string) :
  stringify v = Some t -> single_line t = true.
Proof.
  revert t.
  induction v as [ | | b | n | | s | items IH | props IH] using value_induction;
    intros t; cbn [stringify]; try discriminate;
    try (intros [= <-]; reflexivity).
  - destruct b; intros [= <-]; reflexivity.
  - intros [= <-]. apply single_line_string_of_Z.
  - intros [= <-]. apply single_line_quote.
  - intros [= <-].
    rewrite single_line_cons, single_line_app.
    rewrite single_line_join; [reflexivity | reflexivity |].
    induction IH as [| x l Hx Hl IHl]; cbn [map]; constructor; [| exact IHl].
    destruct (stringify x) as [tx |]; [apply Hx; reflexivity | reflexivity].
  - intros [= <-].
    rewrite single_line_cons, single_line_app.
    rewrite single_line_join; [reflexivity | reflexivity |].
    induction IH as [| [k x] l Hx Hl IHl]; cbn [flat_map]; [constructor |].
    cbn [fst snd] in *.
    destruct (stringify x) as [tx |]; [| exact IHl].
    constructor; [| exact IHl].
    rewrite (single_line_cons dquote), !single_line_app.
    rewrite (single_line_cons ":" tx), single_line_escape, (Hx tx eq_refl).
    reflexivity.
Qed.

Lemma single_line_JSON_stringify (v : value) :
  single_line (JSON_stringify v) = true.
Proof.
  unfold JSON_stringify.
  destruct (stringify v) as [t |] eqn:Ht; [| reflexivity].
  apply (single_line_stringify v t Ht).
Qed.

End JsonFacts.

(* ================================================================== *)
(** * The adapters on what the stores reply *)
(* ================================================================== *)

Module AdapterFacts.
Import Js Route.

(** The statement of the route only reads. *)
Lemma query_select (pattern : string) (db : Postgres.database) :
  Postgres.query Postgres.select_sql [Str pattern] db
  = (db, inr (Postgres.select_ilike pattern db)).
Proof. reflexivity. Qed.

Lemma postgres_call_select (query : string) (db : Postgres.database) :
  Postgres.query (text (postgres_call query)) (values (postgres_call query)) db
  = (db, inr (Postgres.select_ilike ("%" ++ query ++ "%") db)).
Proof. reflexivity. Qed.

Lemma select_ilike_length (pattern : string) (db : Postgres.database) :
  List.length (Postgres.select_ilike pattern db)
  = Nat.min 10 (List.length (Postgres.matching pattern db)).
Proof.
  unfold Postgres.select_ilike. rewrite length_map, length_firstn. reflexivity.
Qed.

Lemma postgres_data_length (rows : list object) :
  List.length (postgres_data rows) = List.length rows.
Proof. apply length_map. Qed.

(** The total the adapter reports is the number of matching rows. *)
Lemma postgres_total_select (pattern : string) (db : Postgres.database) :
  postgres_total (Postgres.select_ilike pattern db)
  = Num (Z.of_nat (List.length (Postgres.matching pattern db))).
Proof.
  unfold Postgres.select_ilike.
  destruct (Postgres.matching pattern db) as [| r hits]; [reflexivity |].
  cbn [firstn map postgres_total].
  change (lookup "total_count" (Postgres.result_row _ r))
    with (Str (string_of_Z (Z.of_nat (List.length (r :: hits))))).
  apply JsFacts.parseInt_string_of_Z.
Qed.




Section Engine.

Variable matches : Elastic.query_string -> string -> bool.

Lemma search_reviews (query : string) (docs : list value) :
  Elastic.search matches (elastic_call query) (Some docs)
  = (Some docs, inr (Elastic.search_response matches (elastic_call query) docs)).
Proof. reflexivity. Qed.

Lemma elastic_total_response (req : Elastic.search_request) (docs : list value) :
  elastic_total (Elastic.search_response matches req docs)
  = inr (Num (Z.of_nat (Nat.min (List.length (Elastic.found matches req docs))
                                Elastic.track_total_hits))).
Proof. reflexivity. Qed.

Lemma map_throws_sources (l : list value) :
  map_throws (fun hit => get hit "_source") (map Elastic.hit l) = inr l.
Proof.
  induction l as [| x l IH]; [reflexivity |].
  cbn [map map_throws]. rewrite IH. reflexivity.
Qed.

Lemma elastic_data_response (req : Elastic.search_request) (docs : list value) :
  elastic_data (Elastic.search_response matches req docs)
  = inr (Arr (firstn (Elastic.size req) (Elastic.found matches req docs))).
Proof.
  unfold elastic_data, Elastic.search_response.
  cbn [get lookup String.eqb Ascii.eqb Bool.eqb array_map].
  rewrite map_throws_sources. reflexivity.
Qed.

End Engine.

End AdapterFacts.

(* ================================================================== *)
(** * One backend call settles *)
(* ================================================================== *)

Module StepFacts.
Import Js Route Protocol.

Section Steps.

Variable now : nat -> Q.

Ltac open_state h :=
  destruct h as [[[st wr] ck con] ps es cl pgp esp al];
  unfold agrees, emitted, stream_state in *; cbn in *; subst.

Ltac break_hyps :=
  repeat match goal with
         | H : _ /\ _ |- _ => destruct H
         end;
  subst; try discriminate.

(** The relational call returns rows while [start] is waiting: the
    outcome is written at once, behind what was written before. *)
Lemma postgres_arrives (h : handler) (rows : list object) :
  consistent now h -> all h = Pending -> postgresSearch h = Pending ->
  let h' := step now h (PostgresSettles (inr rows)) in
  emitted h'
  = (emitted h ++
     [frame "postgres"
            (Obj [("data", Arr (postgres_data rows));
                  ("total", postgres_total rows)])
            (Math_round (now (clock (io h)) - now 0))])%list /\
  elasticSearch h' = elasticSearch h /\
  (elasticSearch h = Pending ->
   stream_state h' = Stream.Readable /\ all h' = Pending) /\
  (elasticSearch h = Fulfilled -> stream_state h' = Stream.Closed) /\
  clock (io h') = S (clock (io h)) /\
  postgresSearch h' = Fulfilled.
Proof.
  intros [Hck Hps Hes Hfr Hlen Hag] Hall Hpg.
  open_state h. break_hyps.
  destruct esp; cbn in *; try discriminate;
    repeat split; auto; discriminate.
Qed.

(** The same for the search call, when its response can be read. *)
Lemma elastic_arrives (h : handler) (result total data : value) :
  consistent now h -> all h = Pending -> elasticSearch h = Pending ->
  elastic_total result = inr total -> elastic_data result = inr data ->
  let h' := step now h (ElasticSettles (inr result)) in
  emitted h'
  = (emitted h ++
     [frame "elastic" (Obj [("data", data); ("total", total)])
            (Math_round (now (clock (io h)) - now 1))])%list /\
  postgresSearch h' = postgresSearch h /\
  (postgresSearch h = Pending ->
   stream_state h' = Stream.Readable /\ all h' = Pending) /\
  (postgresSearch h = Fulfilled -> stream_state h' = Stream.Closed) /\
  clock (io h') = S (clock (io h)) /\
  elasticSearch h' = Fulfilled.
Proof.
  intros [Hck Hps Hes Hfr Hlen Hag] Hall Hpg Htot Hdat.
  open_state h. break_hyps.
  unfold elasticSearch_resume, bind, lift, performance_now, sendData,
    controller_enqueue; cbn.
  rewrite Htot, Hdat; cbn.
  destruct pgp; cbn in *; try discriminate;
    repeat split; auto; discriminate.
Qed.

(** A call fails while [start] is waiting: the error is logged, the
    stream is errored with it, and nothing is written. *)
Lemma postgres_fails (h : handler) (e : error) :
  consistent now h -> all h = Pending -> postgresSearch h = Pending ->
  let h' := step now h (PostgresSettles (inl e)) in
  emitted h' = emitted h /\
  stream_state h' = Stream.Errored e /\
  console (io h') = [e] /\
  all h' = Rejected e /\
  elasticSearch h' = elasticSearch h.
Proof.
  intros [Hck Hps Hes Hfr Hlen Hag] Hall Hpg.
  open_state h. break_hyps.
  destruct esp; cbn in *; try discriminate; repeat split; auto.
Qed.

Lemma elastic_fails (h : handler) (e : error) :
  consistent now h -> all h = Pending -> elasticSearch h = Pending ->
  let h' := step now h (ElasticSettles (inl e)) in
  emitted h' = emitted h /\
  stream_state h' = Stream.Errored e /\
  console (io h') = [e] /\
  all h' = Rejected e /\
  postgresSearch h' = postgresSearch h.
Proof.
  intros [Hck Hps Hes Hfr Hlen Hag] Hall Hes'.
  open_state h. break_hyps.
  destruct pgp; cbn in *; try discriminate; repeat split; auto.
Qed.

End Steps.

Lemma Math_round_nonneg (x : Q) : (0 <= x)%Q -> 0 <= Math_round x.
Proof.
  intro Hx. unfold Math_round.
  change 0 with (Qfloor 0).
  apply Qfloor_resp_le.
  apply Qle_trans with (y := x); [exact Hx |].
  rewrite <- (Qplus_0_r x) at 1.
  apply Qplus_le_r. discriminate.
Qed.

Lemma elapsed_nonneg (now : nat -> Q) (i j : nat) :
  (forall a b, (a <= b)%nat -> (now a <= now b)%Q) ->
  (i <= j)%nat -> 0 <= Math_round (now j - now i).
Proof.
  intros Hmono Hij. apply Math_round_nonneg.
  unfold Qminus. rewrite <- Qle_minus_iff. apply Hmono, Hij.
Qed.

End StepFacts.

(* ================================================================== *)
(** * A request served by both stores *)
(* ================================================================== *)

Module SystemFacts.
Import Js Route Protocol.

Section Served.

Variable matches : Elastic.query_string -> string -> bool.
Variable now : nat -> Q.



End Served.

End SystemFacts.

(* ================================================================== *)
(** * The coordinator: failures, the race, termination *)
(* ================================================================== *)

Import Js Route Protocol.

(** C1, as stated, fails: the search call is refused, then the
    relational call returns its one matching row; nothing reaches the
    caller, the stream is errored with the failure of the search call,
    and the relational adapter itself ends on the [TypeError] of
    [controller.enqueue]. *)
Lemma elastic_failure_hides_postgres_outcome :
  let rows := Postgres.select_ilike "%wombat%" (System.db System.one_record) in
  let h := run System.sample_clock (start System.sample_clock "wombat")
               [ElasticSettles (inl System.boom); PostgresSettles (inr rows)] in
  List.length rows = 1%nat /\
  emitted h = [] /\
  stream_state h = Stream.Errored System.boom /\
  postgresSearch h
  = Rejected (TypeError "Invalid state: Controller is already closed").
Proof. vm_compute. repeat split; reflexivity. Qed.

(** C1, amended: when a backend call fails while the coordinator is
    waiting, the failure is logged and the stream is errored with it;
    no event is written for the failure, what was written before it
    stays, and whatever the other backend answers afterwards is not
    written.  The other adapter's call is left as it was. *)
Theorem backend_failure_errors_stream
  (now : nat -> Q) (query : string) (before rest : list event) (e : error) :
  let h := run now (start now query) before in
  all h = Pending ->
  (postgresSearch h = Pending ->
   let h1 := step now h (PostgresSettles (inl e)) in
   let h' := run now h1 rest in
   elasticSearch h1 = elasticSearch h /\
   stream_state h' = Stream.Errored e /\
   console (io h') = [e] /\
   emitted h' = emitted h /\
   Forall (outcome_frame now) (emitted h'))
  /\
  (elasticSearch h = Pending ->
   let h1 := step now h (ElasticSettles (inl e)) in
   let h' := run now h1 rest in
   postgresSearch h1 = postgresSearch h /\
   stream_state h' = Stream.Errored e /\
   console (io h') = [e] /\
   emitted h' = emitted h /\
   Forall (outcome_frame now) (emitted h')).
Proof.
  intros h Hall.
  assert (Hh : consistent now h) by apply ProtocolFacts.reachable_consistent.
  split; intros Hp h1 h'.
  - destruct (StepFacts.postgres_fails now h e Hh Hall Hp)
      as (Hem & Hst & Hco & Hal & Hes).
    fold h1 in Hem, Hst, Hco, Hal, Hes.
    assert (H1 : consistent now h1) by apply ProtocolFacts.step_consistent, Hh.
    destruct (ProtocolFacts.settled_run now rest h1 H1) as (Hem' & Hst' & Hco' & _).
    { rewrite Hal. discriminate. }
    fold h' in Hem', Hst', Hco'.
    rewrite Hem', Hst', Hco', Hem, Hst, Hco.
    repeat split; auto. apply (frames_only now h Hh).
  - destruct (StepFacts.elastic_fails now h e Hh Hall Hp)
      as (Hem & Hst & Hco & Hal & Hes).
    fold h1 in Hem, Hst, Hco, Hal, Hes.
    assert (H1 : consistent now h1) by apply ProtocolFacts.step_consistent, Hh.
    destruct (ProtocolFacts.settled_run now rest h1 H1) as (Hem' & Hst' & Hco' & _).
    { rewrite Hal. discriminate. }
    fold h' in Hem', Hst', Hco'.
    rewrite Hem', Hst', Hco', Hem, Hst, Hco.
    repeat split; auto. apply (frames_only now h Hh).
Qed.

Lemma backend_failure_errors_stream_witness :
  let now := System.sample_clock in
  let rows := Postgres.select_ilike "%wombat%" (System.db System.one_record) in
  let h := run now (start now "wombat") [PostgresSettles (inr rows)] in
  let h' := run now (step now h (ElasticSettles (inl System.boom))) [] in
  all h = Pending /\ elasticSearch h = Pending /\
  stream_state h' = Stream.Errored System.boom /\
  emitted h' = emitted h.
Proof.
  intros now rows h h'.
  assert (Hall : all h = Pending) by reflexivity.
  assert (Hes : elasticSearch h = Pending) by reflexivity.
  split; [exact Hall | split; [exact Hes |]].
  destruct (proj2 (backend_failure_errors_stream now "wombat"
                     [PostgresSettles (inr rows)] [] System.boom Hall) Hes)
    as (_ & Hst & _ & Hem & _).
  split; [exact Hst | exact Hem].
Defined.

(** C2: both calls are sent, and both promises pending, before the
    coordinator waits on either; an outcome is written to the stream
    in the very turn its call returns, behind what was written before.
    If the relational call returns first, its outcome is out while the
    search call is still pending and the stream still open; the
    outcomes follow the order of completion, either way round. *)
Theorem outcomes_are_forwarded_on_arrival
  (now : nat -> Q) (query : string) (rows : list object)
  (result total data : value) :
  elastic_total result = inr total ->
  elastic_data result = inr data ->
  let h0 := start now query in
  let relational k :=
    frame "postgres"
          (Obj [("data", Arr (postgres_data rows)); ("total", postgres_total rows)])
          (Math_round (now k - now 0%nat)) in
  let indexed k :=
    frame "elastic" (Obj [("data", data); ("total", total)])
          (Math_round (now k - now 1%nat)) in
  let h1 := step now h0 (PostgresSettles (inr rows)) in
  let h2 := step now h0 (ElasticSettles (inr result)) in
  (calls h0 = (postgres_call query, elastic_call query) /\
   postgresSearch h0 = Pending /\ elasticSearch h0 = Pending /\
   all h0 = Pending /\ emitted h0 = []) /\
  (emitted h1 = [relational 2%nat] /\ elasticSearch h1 = Pending /\
   stream_state h1 = Stream.Readable) /\
  (emitted (step now h1 (ElasticSettles (inr result)))
   = [relational 2%nat; indexed 3%nat]) /\
  (emitted h2 = [indexed 2%nat] /\ postgresSearch h2 = Pending /\
   stream_state h2 = Stream.Readable) /\
  (emitted (step now h2 (PostgresSettles (inr rows)))
   = [indexed 2%nat; relational 3%nat]).
Proof.
  intros Htot Hdat h0 relational indexed h1 h2.
  assert (H0 : consistent now h0) by apply ProtocolFacts.start_consistent.
  destruct (StepFacts.postgres_arrives now h0 rows H0 eq_refl eq_refl)
    as (Hem1 & Hes1 & Hop1 & _ & Hck1 & _).
  destruct (StepFacts.elastic_arrives now h0 result total data H0 eq_refl eq_refl Htot Hdat)
    as (Hem2 & Hpg2 & Hop2 & _ & Hck2 & _).
  fold h1 in Hem1, Hes1, Hop1, Hck1. fold h2 in Hem2, Hpg2, Hop2, Hck2.
  destruct (Hop1 eq_refl) as [Hst1 Hall1].
  destruct (Hop2 eq_refl) as [Hst2 Hall2].
  assert (H1 : consistent now h1) by apply ProtocolFacts.step_consistent, H0.
  assert (H2 : consistent now h2) by apply ProtocolFacts.step_consistent, H0.
  destruct (StepFacts.elastic_arrives now h1 result total data H1 Hall1 Hes1 Htot Hdat)
    as (Hem12 & _).
  destruct (StepFacts.postgres_arrives now h2 rows H2 Hall2 Hpg2)
    as (Hem21 & _).
  rewrite Hck1 in Hem12. rewrite Hck2 in Hem21.
  rewrite Hem1 in Hem12. rewrite Hem2 in Hem21.
  repeat split; try reflexivity; try assumption.
Qed.

Lemma outcomes_are_forwarded_on_arrival_witness :
  let now := System.sample_clock in
  let rows := Postgres.select_ilike "%wombat%" (System.db System.one_record) in
  let result := Elastic.search_response Elastic.standard_matches
                  (elastic_call "wombat") [System.wombat_source] in
  let h1 := step now (start now "wombat") (PostgresSettles (inr rows)) in
  elastic_total result = inr (Num 1) /\
  elastic_data result = inr (Arr [System.wombat_source]) /\
  List.length (emitted h1) = 1%nat /\
  elasticSearch h1 = Pending /\
  stream_state h1 = Stream.Readable.
Proof.
  intros now rows result h1.
  assert (Htot : elastic_total result = inr (Num 1)) by reflexivity.
  assert (Hdat : elastic_data result = inr (Arr [System.wombat_source])) by reflexivity.
  split; [exact Htot | split; [exact Hdat |]].
  destruct (outcomes_are_forwarded_on_arrival now "wombat" rows result _ _ Htot Hdat)
    as (_ & (Hem & Hes & Hst) & _).
  fold h1 in Hem, Hes, Hst.
  rewrite Hem. repeat split; assumption.
Defined.

(** C7, as stated, fails: the search call is refused while the
    relational call is still pending; the stream is ended at once, in
    error, with one outcome still to come. *)
Lemma stream_ends_with_a_call_pending :
  let h := run System.sample_clock (start System.sample_clock "wombat")
               [ElasticSettles (inl System.boom)] in
  stream_state h = Stream.Errored System.boom /\
  postgresSearch h = Pending /\
  emitted h = [].
Proof. vm_compute. repeat split; reflexivity. Qed.

(** C7, amended: whatever the backends do, at most two events are
    written and each carries an outcome (there is no closing event);
    the stream stays open while the coordinator waits; it is closed
    exactly when both adapters have written their outcome; it is ended
    in error as soon as one adapter fails, whether or not the other
    has answered. *)
Theorem stream_termination
  (now : nat -> Q) (query : string) (schedule : list event) :
  let h := run now (start now query) schedule in
  (List.length (emitted h) <= 2)%nat /\
  Forall (outcome_frame now) (emitted h) /\
  (stream_state h = Stream.Readable <-> all h = Pending) /\
  (stream_state h = Stream.Closed <->
   postgresSearch h = Fulfilled /\ elasticSearch h = Fulfilled) /\
  (stream_state h = Stream.Closed -> List.length (emitted h) = 2%nat) /\
  (forall e, stream_state h = Stream.Errored e ->
             all h = Rejected e /\
             (postgresSearch h = Rejected e \/ elasticSearch h = Rejected e)) /\
  (is_rejected (postgresSearch h) || is_rejected (elasticSearch h) = true ->
   exists e, stream_state h = Stream.Errored e).
Proof.
  intro h.
  destruct (ProtocolFacts.reachable_consistent now query schedule)
    as [Hck Hps Hes Hfr Hlen Hag].
  fold h in Hck, Hps, Hes, Hfr, Hlen, Hag.
  unfold agrees in Hag.
  split; [| split; [exact Hfr |]].
  - rewrite Hlen. destruct (postgresSearch h), (elasticSearch h); cbn; lia.
  - destruct (all h) as [ | | e0];
      destruct Hag as (Hst & Hco & Hrest); rewrite Hst, Hlen.
    + destruct Hrest as (Hp & He & Hn).
      destruct (postgresSearch h), (elasticSearch h); cbn in *;
        repeat split; try discriminate; try lia; try tauto;
        intros; try discriminate; try (destruct H; discriminate).
    + destruct Hrest as [-> ->]. cbn.
      repeat split; try discriminate; auto; intros; discriminate.
    + repeat split; try discriminate; intros; try discriminate.
      * destruct H as [Hp He]. destruct Hrest as [H | H]; congruence.
      * injection H as ->. reflexivity.
      * injection H as ->. exact Hrest.
      * exists e0. reflexivity.
Qed.

Lemma stream_termination_witness :
  let now := System.sample_clock in
  let rows := Postgres.select_ilike "%wombat%" (System.db System.one_record) in
  let result := Elastic.search_response Elastic.standard_matches
                  (elastic_call "wombat") [System.wombat_source] in
  let h := run now (start now "wombat")
               [ElasticSettles (inr result); PostgresSettles (inr rows)] in
  stream_state h = Stream.Closed /\
  List.length (emitted h) = 2%nat /\
  postgresSearch h = Fulfilled /\ elasticSearch h = Fulfilled.
Proof.
  intros now rows result h.
  assert (Hst : stream_state h = Stream.Closed) by reflexivity.
  destruct (stream_termination now "wombat"
              [ElasticSettles (inr result); PostgresSettles (inr rows)])
    as (_ & _ & _ & Hclosed & Htwo & _).
  fold h in Hclosed, Htwo.
  split; [exact Hst | split; [exact (Htwo Hst) | exact (proj1 Hclosed Hst)]].
Defined.

(* ================================================================== *)
(** * The request, the queries, the outcomes *)
(* ================================================================== *)

(** C4, as stated, fails: a query of one space is served; the stream
    is opened and both adapters are called, with the space as query. *)
Lemma blank_query_is_served :
  GET System.sample_clock (Some " ")
  = EventStream [("Content-Type", "text/event-stream");
                 ("Cache-Control", "no-cache");
                 ("Connection", "keep-alive")]
                (start System.sample_clock " ") /\
  adapter_calls (GET System.sample_clock (Some " "))
  = Some ({| text := Postgres.select_sql; values := [Str "% %"] |},
          elastic_call " ").
Proof. split; reflexivity. Qed.

(** C4, amended: a request without [q], or with an empty [q], is
    answered 400 with a JSON error body, no adapter is called and no
    stream is opened; every other query, blank ones included, opens
    the stream and has both adapters called. *)
Theorem empty_query_is_refused (now : nat -> Q) :
  let refusal :=
    Json 400 (Obj [("error", Str (sq "Query parameter 'q' is required"))]) in
  GET now None = refusal /\
  GET now (Some EmptyString) = refusal /\
  adapter_calls refusal = None /\
  (forall c s,
      let query := String c s in
      exists headers,
        GET now (Some query) = EventStream headers (start now query) /\
        adapter_calls (GET now (Some query))
        = Some (postgres_call query, elastic_call query) /\
        stream_state (start now query) = Stream.Readable /\
        emitted (start now query) = []).
Proof.
  repeat split.
  intros c s query. eexists. repeat split.
Qed.




(** C6, as stated, fails: served from stores that hold one review,
    the relational outcome is tagged [postgres] and its record carries
    the column [id]; the indexed outcome is tagged [elastic]. *)
Lemma outcomes_are_tagged_postgres_and_elastic :
  option_map emitted
    (snd (System.serve Elastic.standard_matches System.sample_clock
            (Some "wombat") System.PostgresFirst System.one_record))
  = Some
      [sq "data: {'source':'postgres','data':{'data':[{'id':1,'external_id':1,'review':'a rare wombat sighting','sentiment':0}],'total':1},'time':3}"
         ++ String LF (str1 LF);
       sq "data: {'source':'elastic','data':{'data':[{'external_id':1,'review':'a rare wombat sighting','sentiment':0}],'total':1},'time':3}"
         ++ String LF (str1 LF)].
Proof. vm_compute. reflexivity. Qed.

(** C6, amended: every event written to the stream is [data: ]
    followed by one JSON text without a line break and by two line
    feeds; the JSON text is an object with the fields [source],
    [data] (itself [{data, total}]) and [time], in this order;
    [source] is [postgres] for the relational outcome, whose records
    are the rows of the result less their [total_count], and [elastic]
    for the indexed outcome, whose records are the [_source] of the
    hits.  A row of [reviews] so becomes
    [{id, external_id, review, sentiment}]. *)
Theorem events_are_single_data_blocks
  (now : nat -> Q) (query : string) (schedule : list event) :
  (forall chunk,
      In chunk (emitted (run now (start now query) schedule)) ->
      exists source records total time,
        let payload :=
          JSON_stringify (Obj [("source", Str source);
                               ("data", Obj [("data", records); ("total", total)]);
                               ("time", Num time)]) in
        chunk = "data: " ++ payload ++ String LF (str1 LF) /\
        single_line payload = true /\
        ((source = "postgres" /\
          exists rows,
            records = Arr (map (fun r => Obj (rest_without "total_count" r)) rows))
         \/
         (source = "elastic" /\
          exists result, elastic_data result = inr records))) /\
  (forall n r,
      rest_without "total_count" (Postgres.result_row n r)
      = [ ("id", Num (Postgres.id r));
          ("external_id", Num (Postgres.external_id r));
          ("review", Str (Postgres.review r));
          ("sentiment", Num (Postgres.sentiment r)) ]).
Proof.
  split; [| intros n r; reflexivity].
  intros chunk Hin.
  pose proof (frames_only now _ (ProtocolFacts.reachable_consistent now query schedule)) as Hfr.
  rewrite Forall_forall in Hfr.
  destruct (Hfr chunk Hin) as [rows k Hk | result data total k Hk Htot Hdat].
  - do 4 eexists. cbv zeta.
    split; [reflexivity |].
    split; [apply JsonFacts.single_line_JSON_stringify |].
    left. split; [reflexivity |]. exists rows. reflexivity.
  - do 4 eexists. cbv zeta.
    split; [reflexivity |].
    split; [apply JsonFacts.single_line_JSON_stringify |].
    right. split; [reflexivity |]. exists result. exact Hdat.
Qed.

Lemma events_are_single_data_blocks_witness :
  let now := System.sample_clock in
  let rows := Postgres.select_ilike "%wombat%" (System.db System.one_record) in
  let chunk :=
    sq "data: {'source':'postgres','data':{'data':[{'id':1,'external_id':1,'review':'a rare wombat sighting','sentiment':0}],'total':1},'time':3}"
      ++ String LF (str1 LF) in
  In chunk (emitted (run now (start now "wombat") [PostgresSettles (inr rows)])) /\
  exists source records total time,
    chunk = "data: " ++
            JSON_stringify (Obj [("source", Str source);
                                 ("data", Obj [("data", records); ("total", total)]);
                                 ("time", Num time)]) ++
            String LF (str1 LF).
Proof.
  intros now rows chunk.
  assert (Hin : In chunk (emitted (run now (start now "wombat")
                                       [PostgresSettles (inr rows)]))).
  { left. vm_compute. reflexivity. }
  split; [exact Hin |].
  destruct (proj1 (events_are_single_data_blocks now "wombat"
                     [PostgresSettles (inr rows)]) chunk Hin)
    as (source & records & total & time & Hchunk & _).
  exists source, records, total, time. exact Hchunk.
Defined.

(** C8: the [time] of an outcome is the difference, rounded to the
    nearest integer, between two readings of the clock: the one its
    adapter took just before sending its call (reading 0 for
    [postgresSearch], reading 1 for [elasticSearch]) and the one it
    takes as soon as the call has returned, before the outcome is
    serialized and written; the clock never going back, this is a
    nonnegative integer.  It holds of the outcome an adapter writes
    when its call returns, and of every event on the stream. *)
Theorem elapsed_time_is_the_call_duration
  (now : nat -> Q) (query : string) (before : list event)
  (rows : list object) (result total data : value) :
  (forall i j, (i <= j)%nat -> (now i <= now j)%Q) ->
  let h := run now (start now query) before in
  let returned := now (clock (io h)) in
  (postgres_start h = now 0%nat /\ elastic_start h = now 1%nat) /\
  (all h = Pending -> postgresSearch h = Pending ->
   let time := Math_round (returned - postgres_start h) in
   0 <= time /\
   emitted (step now h (PostgresSettles (inr rows)))
   = (emitted h ++
      [frame "postgres"
             (Obj [("data", Arr (postgres_data rows));
                   ("total", postgres_total rows)])
             time])%list) /\
  (all h = Pending -> elasticSearch h = Pending ->
   elastic_total result = inr total -> elastic_data result = inr data ->
   let time := Math_round (returned - elastic_start h) in
   0 <= time /\
   emitted (step now h (ElasticSettles (inr result)))
   = (emitted h ++
      [frame "elastic" (Obj [("data", data); ("total", total)]) time])%list) /\
  (forall chunk,
      In chunk (emitted h) ->
      exists source outcome sent back,
        chunk = frame source outcome (Math_round (now back - now sent)) /\
        ((source = "postgres" /\ sent = 0%nat) \/
         (source = "elastic" /\ sent = 1%nat)) /\
        (sent < back)%nat /\
        0 <= Math_round (now back - now sent)).
Proof.
  intros Hmono h returned.
  pose proof (ProtocolFacts.reachable_consistent now query before) as Hh.
  fold h in Hh.
  pose proof (postgres_started now h Hh) as Hps.
  pose proof (elastic_started now h Hh) as Hes.
  pose proof (clock_started now h Hh) as Hck.
  split; [split; assumption |].
  split; [| split].
  - intros Hall Hpg time. unfold time, returned. rewrite Hps.
    split; [apply StepFacts.elapsed_nonneg; [exact Hmono | lia] |].
    apply (StepFacts.postgres_arrives now h rows Hh Hall Hpg).
  - intros Hall Hel Htot Hdat time. unfold time, returned. rewrite Hes.
    split; [apply StepFacts.elapsed_nonneg; [exact Hmono | lia] |].
    apply (StepFacts.elastic_arrives now h result total data Hh Hall Hel Htot Hdat).
  - intros chunk Hin.
    pose proof (frames_only now h Hh) as Hfr.
    rewrite Forall_forall in Hfr.
    destruct (Hfr chunk Hin) as [rows' k Hk | result' data' total' k Hk Htot Hdat].
    + exists "postgres", (Obj [("data", Arr (postgres_data rows'));
                               ("total", postgres_total rows')]), 0%nat, k.
      repeat split; auto; try lia.
      apply StepFacts.elapsed_nonneg; [exact Hmono | lia].
    + exists "elastic", (Obj [("data", data'); ("total", total')]), 1%nat, k.
      repeat split; auto; try lia.
      apply StepFacts.elapsed_nonneg; [exact Hmono | lia].
Qed.

Lemma elapsed_time_is_the_call_duration_witness :
  let now := System.sample_clock in
  let rows := Postgres.select_ilike "%wombat%" (System.db System.one_record) in
  let h := run now (start now "wombat") [] in
  (forall i j, (i <= j)%nat -> (now i <= now j)%Q) /\
  all h = Pending /\ postgresSearch h = Pending /\
  emitted (step now h (PostgresSettles (inr rows)))
  = [sq "data: {'source':'postgres','data':{'data':[{'id':1,'external_id':1,'review':'a rare wombat sighting','sentiment':0}],'total':1},'time':3}"
       ++ String LF (str1 LF)].
Proof.
  intros now rows h.
  assert (Hmono : forall i j, (i <= j)%nat -> (now i <= now j)%Q).
  { intros i j Hij. unfold now, System.sample_clock, Qle. simpl. lia. }
  assert (Hall : all h = Pending) by reflexivity.
  assert (Hpg : postgresSearch h = Pending) by reflexivity.
  split; [exact Hmono | split; [exact Hall | split; [exact Hpg |]]].
  destruct (elapsed_time_is_the_call_duration now "wombat" [] rows Null Null Null Hmono)
    as (_ & Hstep & _).
  destruct (Hstep Hall Hpg) as [_ Hem].
  etransitivity; [exact Hem | vm_compute; reflexivity].
Defined.

(** C3, as stated, fails for the indexed adapter: with 10,001 matching
    documents in the index, the total it reports is 10,000. *)
Lemma indexed_total_stops_at_tracking_limit :
  let docs := repeat System.wombat_source (S Elastic.track_total_hits) in
  let req := elastic_call "wombat" in
  List.length (Elastic.found Elastic.standard_matches req docs)
  = S Elastic.track_total_hits /\
  Elastic.track_total_hits = Z.to_nat 10000 /\
  elastic_total (Elastic.search_response Elastic.standard_matches req docs)
  = inr (Num 10000).
Proof. vm_compute. repeat split; reflexivity. Qed.

(** C3, amended: when more than 10 rows match, the relational outcome
    holds exactly 10 records and its total is the number of matching
    rows, both read off the result of the one statement the adapter
    sends; when more than 10 documents match, the indexed outcome holds
    exactly 10 records and its total is the count the engine reports,
    which is the number of matching documents up to 10,000 and 10,000
    beyond. *)
Theorem page_is_capped_and_total_reported
  (matches : Elastic.query_string -> string -> bool)
  (query : string) (db : Postgres.database) (docs : list value) :
  let hits := Postgres.matching ("%" ++ query ++ "%") db in
  let found := Elastic.found matches (elastic_call query) docs in
  (10 < List.length hits ->
   exists rows,
     Postgres.query (text (postgres_call query)) (values (postgres_call query)) db
     = (db, inr rows) /\
     List.length (postgres_data rows) = 10 /\
     postgres_total rows = Num (Z.of_nat (List.length hits)))%nat
  /\
  (10 < List.length found ->
   exists result records,
     Elastic.search matches (elastic_call query) (Some docs)
     = (Some docs, inr result) /\
     elastic_data result = inr (Arr records) /\
     List.length records = 10 /\
     elastic_total result
     = inr (Num (Z.of_nat (Nat.min (List.length found) (Z.to_nat 10000)))))%nat.
Proof.
  intros hits found. split; intro Hmany.
  - exists (Postgres.select_ilike ("%" ++ query ++ "%") db).
    split; [reflexivity |].
    rewrite AdapterFacts.postgres_data_length, AdapterFacts.select_ilike_length,
      AdapterFacts.postgres_total_select.
    fold hits. split; [lia | reflexivity].
  - exists (Elastic.search_response matches (elastic_call query) docs).
    exists (firstn 10 found).
    split; [reflexivity |].
    split; [apply AdapterFacts.elastic_data_response |].
    split; [rewrite length_firstn; lia |].
    rewrite AdapterFacts.elastic_total_response. reflexivity.
Qed.

Lemma page_is_capped_and_total_reported_witness :
  let s := System.wombats 11 in
  let hits := Postgres.matching "%wombat%" (System.db s) in
  let found := Elastic.found Elastic.standard_matches (elastic_call "wombat")
                 (repeat System.wombat_source 11) in
  (10 < List.length hits)%nat /\ (10 < List.length found)%nat /\
  (exists rows,
      Postgres.query (text (postgres_call "wombat")) (values (postgres_call "wombat"))
                     (System.db s) = (System.db s, inr rows) /\
      List.length (postgres_data rows) = 10%nat /\
      postgres_total rows = Num (Z.of_nat (List.length hits))) /\
  (exists result records,
      Elastic.search Elastic.standard_matches (elastic_call "wombat")
                     (Some (repeat System.wombat_source 11))
      = (Some (repeat System.wombat_source 11), inr result) /\
      elastic_data result = inr (Arr records) /\
      List.length records = 10%nat /\
      elastic_total result
      = inr (Num (Z.of_nat (Nat.min (List.length found) (Z.to_nat 10000))))).
Proof.
  intros s hits found.
  assert (H1 : (10 < List.length hits)%nat) by (vm_compute; lia).
  assert (H2 : (10 < List.length found)%nat) by (vm_compute; lia).
  split; [exact H1 | split; [exact H2 |]].
  destruct (page_is_capped_and_total_reported Elastic.standard_matches "wombat"
              (System.db s) (repeat System.wombat_source 11)) as [Hpg Hes].
  split; [exact (Hpg H1) | exact (Hes H2)].
Defined.

(** C9: serving a request leaves the table and the index as they
    were, whichever backend answers first, and so does serving it a
    second time; the two calls of a query, sent again to the stores
    the first round left, get the same replies, hence the same two
    totals. *)
Theorem search_leaves_the_stores_unchanged
  (matches : Elastic.query_string -> string -> bool)
  (now now' : nat -> Q) (q : option string) (query : string)
  (winner winner' : System.race) (s : System.stores) :
  let first := System.serve matches now q winner s in
  let second := System.serve matches now' q winner' (fst first) in
  let c := (postgres_call query, elastic_call query) in
  let s1 := fst (System.answer matches c s) in
  fst first = s /\
  fst second = s /\
  s1 = s /\
  fst (System.answer matches c s1) = s /\
  System.totals (snd (System.answer matches c s1))
  = System.totals (snd (System.answer matches c s)).
Proof.
  intros first second c s1.
  assert (Hserve : forall clock w, fst (System.serve matches clock q w s) = s).
  { intros clock w.
    destruct q as [[| ch q] |]; [reflexivity | | reflexivity].
    destruct s as [db [docs |]]; reflexivity. }
  assert (Hs : s1 = s).
  { destruct s as [db [docs |]]; reflexivity. }
  split; [apply Hserve |].
  split; [unfold second, first; rewrite Hserve; apply Hserve |].
  rewrite Hs. repeat split.
  destruct s as [db [docs |]]; reflexivity.
Qed.


(* ================================================================== *)
(** * Seeding the table *)
(* ================================================================== *)

Module SeedPgFacts.
Import Js Seed.

Lemma triple_shape (record : object) :
  exists a b c, Pg.triple record = [a; b; c].
Proof. unfold Pg.triple. eauto. Qed.

Lemma accepted_shape (t : list value) :
  accepted t = true -> exists e r s, t = [Num e; Str r; Num s].
Proof.
  destruct t as [| [] [| [] [| [] [|]]]]; try discriminate. eauto.
Qed.

Lemma clean_accepted (record : object) :
  clean record = true -> accepted (Pg.triple record) = true.
Proof. intro H. exact H. Qed.

(** One more triple of an [INSERT]. *)
Lemma insert_values_cons (e : Z) (r : string) (s : Z) (vs : list value)
      (t : Postgres.database) :
  accepted [Num e; Str r; Num s] = true ->
  Postgres.insert_values (Num e :: Str r :: Num s :: vs) t
  = Postgres.insert_values vs
      (if Postgres.has_external_id e (Postgres.reviews t)
       then {| Postgres.reviews := Postgres.reviews t;
               Postgres.next_id := Postgres.next_id t + 1 |}
       else {| Postgres.reviews :=
                 (Postgres.reviews t ++
                  [{| Postgres.id := Postgres.next_id t;
                      Postgres.external_id := e;
                      Postgres.review := r;
                      Postgres.sentiment := s |}])%list;
               Postgres.next_id := Postgres.next_id t + 1 |}).
Proof.
  intro H. cbn [accepted] in H. cbn [Postgres.insert_values].
  rewrite H. reflexivity.
Qed.

Lemma insert_values_bad (e : Z) (r : string) (s : Z) (vs : list value)
      (t : Postgres.database) :
  accepted [Num e; Str r; Num s] = false ->
  Postgres.insert_values (Num e :: Str r :: Num s :: vs) t = None.
Proof.
  intro H. cbn [accepted] in H. cbn [Postgres.insert_values].
  rewrite H. reflexivity.
Qed.

(** An [INSERT] of accepted triples goes through, and a longer one is
    the shorter one followed by the rest. *)
Lemma insert_values_app (rows : list (list value)) (vs : list value)
      (t : Postgres.database) :
  Forall (fun row => accepted row = true) rows ->
  exists t',
    Postgres.insert_values (List.concat rows) t = Some t' /\
    Postgres.insert_values (List.concat rows ++ vs) t
    = Postgres.insert_values vs t'.
Proof.
  intro Hrows. revert t.
  induction Hrows as [| row rows Hrow Hrows IH]; intro t.
  - exists t. split; reflexivity.
  - destruct (accepted_shape row Hrow) as (e & r & s & ->).
    cbn [List.concat app]. rewrite !insert_values_cons by exact Hrow.
    apply IH.
Qed.

Lemma concat_length (rows : list (list value)) :
  Forall (fun row => List.length row = 3%nat) rows ->
  List.length (List.concat rows) = (3 * List.length rows)%nat.
Proof.
  induction 1 as [| row rows Hrow Hrows IH]; [reflexivity |].
  cbn [List.concat]. rewrite length_app, Hrow, IH. cbn [List.length]. lia.
Qed.

Lemma accepted_length (row : list value) :
  accepted row = true -> List.length row = 3%nat.
Proof. intro H. destruct (accepted_shape row H) as (e & r & s & ->). reflexivity. Qed.

(** What [Postgres.query] does of an [INSERT] built by [insertBatch]. *)
Lemma insertBatch_unfold (rows : list (list value)) (t : Postgres.database) :
  Forall (fun row => List.length row = 3%nat) rows ->
  Postgres.insertBatch rows t
  = match Postgres.insert_values (List.concat rows) t with
    | Some t' => (t', inr [])
    | None => ({| Postgres.reviews := Postgres.reviews t;
                  Postgres.next_id :=
                    Postgres.next_id t + Postgres.drawn (List.concat rows) |},
               inl (BackendError "invalid input syntax"))
    end.
Proof.
  intro Hlen. unfold Postgres.insertBatch, Postgres.query.
  assert (Hsel : String.eqb (Postgres.insert_sql (List.length rows))
                            Postgres.select_sql = false) by reflexivity.
  rewrite Hsel, (concat_length rows Hlen).
  replace (Nat.div (3 * List.length rows) 3) with (List.length rows)
    by (rewrite Nat.mul_comm, Nat.div_mul; [reflexivity | discriminate]).
  rewrite String.eqb_refl. reflexivity.
Qed.

(** A refused [INSERT] draws no value, or some, from the sequence. *)
Lemma rows_made_nonneg (vs : list value) : 0 <= Postgres.rows_made vs.
Proof.
  remember (List.length vs) as n eqn:Hn. revert vs Hn.
  induction n as [n IH] using lt_wf_ind. intros vs Hn.
  destruct vs as [| a [| b [| c vs']]].
  - cbn. lia.
  - destruct a; cbn; lia.
  - destruct a, b; cbn; lia.
  - cbn [List.length] in Hn.
    pose proof (IH (List.length vs') ltac:(lia) vs' eq_refl) as Hrest.
    destruct a, b, c; cbn [Postgres.rows_made]; lia.
Qed.

Lemma drawn_nonneg (vs : list value) : 0 <= Postgres.drawn vs.
Proof.
  unfold Postgres.drawn. destruct (Postgres.bound vs); [| lia].
  apply rows_made_nonneg.
Qed.

(** A refused batch leaves the rows of the table as they were, and
    the sequence where it was or further. *)
Lemma insertBatch_cases (rows : list (list value)) (t : Postgres.database) :
  (Postgres.reviews (fst (Postgres.insertBatch rows t)) = Postgres.reviews t /\
   Postgres.next_id t <= Postgres.next_id (fst (Postgres.insertBatch rows t)) /\
   exists e, snd (Postgres.insertBatch rows t) = inl e) \/
  (Postgres.insert_values (List.concat rows) t
   = Some (fst (Postgres.insertBatch rows t)) /\
   snd (Postgres.insertBatch rows t) = inr []).
Proof.
  unfold Postgres.insertBatch, Postgres.query.
  assert (Hsel : String.eqb (Postgres.insert_sql (List.length rows))
                            Postgres.select_sql = false) by reflexivity.
  rewrite Hsel. clear Hsel.
  destruct (String.eqb (Postgres.insert_sql (List.length rows))
                       (Postgres.insert_sql _));
    [| left; split; [reflexivity | split; [cbn; lia | eexists; reflexivity]]].
  destruct (Postgres.insert_values (List.concat rows) t) as [t' |];
    [right; split; reflexivity |].
  left. cbn [fst snd Postgres.reviews Postgres.next_id].
  split; [reflexivity | split; [| eexists; reflexivity]].
  pose proof (drawn_nonneg (List.concat rows)). lia.
Qed.

Lemma has_external_id_false (e : Z) (rows : list Postgres.row) :
  Postgres.has_external_id e rows = false <->
  ~ In e (map Postgres.external_id rows).
Proof.
  unfold Postgres.has_external_id. split.
  - intros H Hin. apply in_map_iff in Hin. destruct Hin as (r & Hr & Hin).
    assert (Hex : existsb (fun r => Z.eqb (Postgres.external_id r) e) rows = true).
    { apply existsb_exists. exists r. split; [exact Hin | apply Z.eqb_eq, Hr]. }
    congruence.
  - intro H. destruct (existsb _ rows) eqn:Hex; [| reflexivity].
    apply existsb_exists in Hex. destruct Hex as (r & Hin & Hr).
    apply Z.eqb_eq in Hr. exfalso. apply H. apply in_map_iff. eauto.
Qed.

(** An [INSERT] cut in triples, or refused. *)
Lemma insert_values_inv (vs : list value) (t t' : Postgres.database) :
  Postgres.insert_values vs t = Some t' ->
  vs = [] /\ t' = t \/
  exists e r s vs',
    vs = Num e :: Str r :: Num s :: vs' /\
    accepted [Num e; Str r; Num s] = true.
Proof.
  destruct vs as [| [] [| [] [| [] vs']]]; cbn [Postgres.insert_values];
    try discriminate; intro H; [left; injection H as <-; auto |].
  right. do 4 eexists. split; [reflexivity |].
  cbn [accepted]. destruct (_ && _); [reflexivity | discriminate].
Qed.

(** An [INSERT] that goes through keeps the rows that were there, adds
    at their end, and keeps the keys sound. *)
Lemma insert_values_keeps (vs : list value) (t t' : Postgres.database) :
  Postgres.insert_values vs t = Some t' ->
  (exists added, Postgres.reviews t' = (Postgres.reviews t ++ added)%list) /\
  (keys_sound t -> keys_sound t').
Proof.
  remember (List.length vs) as n eqn:Hn. revert vs t Hn.
  induction n as [n IH] using lt_wf_ind. intros vs t Hn H.
  destruct (insert_values_inv vs t t' H)
    as [[-> ->] | (e & r & s & vs' & -> & Hacc)].
  - split; [exists []; symmetry; apply app_nil_r | auto].
  - rewrite insert_values_cons in H by exact Hacc.
    cbn [List.length] in Hn.
    destruct (IH (List.length vs') ltac:(lia) vs' _ eq_refl H) as [[added Hadd] Hkeys].
    destruct (Postgres.has_external_id e (Postgres.reviews t)) eqn:Hhas;
      cbn [Postgres.reviews Postgres.next_id] in *.
    + split; [exists added; exact Hadd |].
      intros (Hid & Hext & Hlt). apply Hkeys. repeat split; auto.
      cbn. eapply Forall_impl; [| exact Hlt]. cbn. intros; lia.
    + split; [eexists; rewrite Hadd, <- app_assoc; reflexivity |].
      intros (Hid & Hext & Hlt). apply Hkeys.
      unfold keys_sound. cbn [Postgres.reviews Postgres.next_id].
      rewrite !map_app. cbn [map Postgres.id Postgres.external_id].
      repeat split.
      * apply NoDup_app; [exact Hid | repeat constructor; intros [] | ].
        intros x Hin [<- | []]. rewrite Forall_forall in Hlt.
        apply in_map_iff in Hin. destruct Hin as (row & Hrow & Hin).
        specialize (Hlt row Hin). lia.
      * apply NoDup_app; [exact Hext | repeat constructor; intros [] | ].
        intros x Hin [<- | []].
        apply has_external_id_false in Hhas. contradiction.
      * apply Forall_app. split.
        -- eapply Forall_impl; [| exact Hlt]. cbn. intros; lia.
        -- repeat constructor. cbn. lia.
Qed.

Section Preserved.

(** A property of the table that no [insertBatch] breaks. *)
Variable P : Postgres.database -> Prop.
Hypothesis insertBatch_keeps :
  forall rows t, P t -> P (fst (Postgres.insertBatch rows t)).

Lemma flush_keeps (s : Pg.state) : P (Pg.db s) -> P (Pg.db (Pg.final (Pg.flush s))).
Proof.
  intro H. unfold Pg.flush.
  pose proof (insertBatch_keeps (Pg.batch s) (Pg.db s) H) as H'.
  destruct (Postgres.insertBatch (Pg.batch s) (Pg.db s)) as [t' [e | rows]];
    exact H'.
Qed.

Lemma visit_keeps (record : object) (s : Pg.state) :
  P (Pg.db s) -> P (Pg.db (Pg.final (Pg.visit record s))).
Proof.
  intro H. unfold Pg.visit.
  destruct (Nat.eqb _ _); [apply flush_keeps; exact H | exact H].
Qed.

Lemma loop_keeps (records : list object) (s : Pg.state) :
  P (Pg.db s) -> P (Pg.db (Pg.final (Pg.loop records s))).
Proof.
  revert s. induction records as [| record records IH]; intros s H; [exact H |].
  cbn [Pg.loop]. pose proof (visit_keeps record s H) as Hv.
  destruct (Pg.visit record s) as [s' | s' e]; [apply IH; exact Hv | exact Hv].
Qed.

Lemma seed_keeps (records : list object) (t : Postgres.database) :
  P t -> P (fst (Pg.seed records t)).
Proof.
  intro H. unfold Pg.seed, Pg.try_block.
  change (Pg.query Pg.create_sql [] ?d) with (d, @inr error (list object) []).
  cbv iota beta.
  match goal with
  | |- context [Pg.loop records ?s0] =>
      pose proof (loop_keeps records s0 H) as Hl;
      destruct (Pg.loop records s0) as [s' | s' e]
  end; [| exact Hl].
  cbn [Pg.final] in Hl.
  destruct (Nat.ltb 0 (List.length (Pg.batch s'))); [| exact Hl].
  pose proof (flush_keeps s' Hl) as Hf.
  destruct (Pg.flush s') as [s'' | s'' e]; exact Hf.
Qed.

End Preserved.

Lemma triple_length (record : object) : List.length (Pg.triple record) = 3%nat.
Proof. reflexivity. Qed.

(** The loop over records whose triples are accepted: nothing is
    thrown, and inserting what is still in the batch would leave the
    table as one [INSERT] of everything would. *)
Lemma loop_accepted (records : list object) (s : Pg.state) :
  Forall (fun row => accepted row = true) (Pg.batch s) ->
  (List.length (Pg.batch s) < Pg.BATCH_SIZE)%nat ->
  Forall (fun record => accepted (Pg.triple record) = true) records ->
  Forall is_log (Pg.console s) ->
  exists s',
    Pg.loop records s = Pg.Done s' /\
    Forall (fun row => accepted row = true) (Pg.batch s') /\
    (List.length (Pg.batch s') < Pg.BATCH_SIZE)%nat /\
    Postgres.insert_values (List.concat (Pg.batch s')) (Pg.db s')
    = Postgres.insert_values
        (List.concat (Pg.batch s ++ map Pg.triple records)) (Pg.db s) /\
    Forall is_log (Pg.console s').
Proof.
  intros Hb Hlen Hrecords. revert s Hb Hlen.
  induction Hrecords as [| record records Hrecord Hrecords IH];
    intros s Hb Hlen Hlog.
  - exists s. cbn [map]. rewrite app_nil_r. auto.
  - cbn [Pg.loop]. unfold Pg.visit.
    set (B := (Pg.batch s ++ [Pg.triple record])%list).
    assert (HB : Forall (fun row => accepted row = true) B).
    { apply Forall_app. split; [exact Hb | repeat constructor; exact Hrecord]. }
    assert (HBlen : List.length B = S (List.length (Pg.batch s))).
    { unfold B. rewrite length_app. cbn. lia. }
    assert (Hcat : List.concat (Pg.batch s ++ map Pg.triple (record :: records))
                   = (List.concat B ++ List.concat (map Pg.triple records))%list).
    { unfold B. rewrite <- concat_app, <- app_assoc. reflexivity. }
    rewrite Hcat.
    cbn [Pg.batch].
    destruct (Nat.eqb (List.length B) Pg.BATCH_SIZE) eqn:Hfull.
    + unfold Pg.flush. cbn [Pg.batch Pg.db Pg.console Pg.count].
      rewrite insertBatch_unfold
        by (eapply Forall_impl; [| exact HB]; apply accepted_length).
      destruct (insert_values_app B (List.concat (map Pg.triple records))
                  (Pg.db s) HB) as (t' & Ht' & Happ).
      rewrite Ht', Happ.
      match goal with
      | |- context [Pg.loop records ?s1] =>
          destruct (IH s1) as (s' & Hloop & Hb' & Hlen' & Hins & Hlog');
            [ constructor
            | cbn; unfold Pg.BATCH_SIZE; lia
            | cbn [Pg.console]; apply Forall_app; split;
              [exact Hlog | repeat constructor]
            | ]
      end.
      exists s'. cbn [Pg.final Pg.batch Pg.db app] in *. repeat split; auto.
    + match goal with
      | |- context [Pg.loop records ?s1] =>
          destruct (IH s1) as (s' & Hloop & Hb' & Hlen' & Hins & Hlog');
            [ exact HB
            | cbn [Pg.batch]; apply Nat.eqb_neq in Hfull; lia
            | exact Hlog
            | ]
      end.
      exists s'. cbn [Pg.batch Pg.db] in *. repeat split; auto.
      rewrite Hins, concat_app. reflexivity.
Qed.

(** Seeding records whose triples are accepted leaves the table as
    one [INSERT] of all of them would, batches or not, and the console
    without an error. *)
Lemma seed_accepted (records : list object) (t : Postgres.database) :
  Forall (fun record => accepted (Pg.triple record) = true) records ->
  exists t',
    Postgres.insert_values (List.concat (map Pg.triple records)) t = Some t' /\
    fst (Pg.seed records t) = t' /\
    ends_well "Seeding completed successfully!" (snd (Pg.seed records t)).
Proof.
  intro Hrecords.
  unfold Pg.seed, Pg.try_block.
  change (Pg.query Pg.create_sql [] ?d) with (d, @inr error (list object) []).
  cbv iota beta.
  match goal with
  | |- context [Pg.loop records ?s0] =>
      destruct (loop_accepted records s0) as (s' & Hloop & Hb & Hlen & Hins & Hlog)
  end; try (cbn; repeat constructor; fail); [exact Hrecords |].
  rewrite Hloop. cbn [Pg.batch Pg.db Pg.log Pg.console Pg.count app] in Hins.
  assert (Hlen3 : Forall (fun row => List.length row = 3%nat) (Pg.batch s')).
  { eapply Forall_impl; [| exact Hb]. apply accepted_length. }
  destruct (insert_values_app (Pg.batch s') [] (Pg.db s') Hb) as (t' & Ht' & _).
  exists t'. split; [rewrite <- Hins; exact Ht' |].
  destruct (Nat.ltb 0 (List.length (Pg.batch s'))) eqn:Hne.
  - unfold Pg.flush. rewrite (insertBatch_unfold _ _ Hlen3), Ht'.
    cbn. split; [reflexivity |].
    split; [| eexists; reflexivity].
    repeat (apply Forall_app; split); auto; repeat constructor.
  - apply Nat.ltb_ge in Hne.
    destruct (Pg.batch s') as [| row rows] eqn:Hbatch; [| cbn in Hne; lia].
    cbn in Ht'. injection Ht' as <-.
    cbn. split; [reflexivity |].
    split; [| eexists; reflexivity].
    apply Forall_app. split; [exact Hlog | repeat constructor].
Qed.

Lemma has_external_id_true (e : Z) (rows : list Postgres.row) :
  Postgres.has_external_id e rows = true <->
  In e (map Postgres.external_id rows).
Proof.
  destruct (Postgres.has_external_id e rows) eqn:H.
  - split; [intros _ | reflexivity].
    destruct (in_dec Z.eq_dec e (map Postgres.external_id rows)) as [Hin | Hout];
      [exact Hin |].
    apply has_external_id_false in Hout. congruence.
  - apply has_external_id_false in H. split; [discriminate | contradiction].
Qed.

(** An [INSERT] of rows whose identifiers are new and distinct adds
    them all, in order, under the next values of the sequence. *)
Lemma insert_new (rows : list (list value)) (t : Postgres.database) :
  Forall (fun row => accepted row = true) rows ->
  NoDup (map (hd Undefined) rows) ->
  (forall row, In row rows ->
               ~ In (hd Undefined row)
                    (map (fun r => Num (Postgres.external_id r)) (Postgres.reviews t))) ->
  exists t',
    Postgres.insert_values (List.concat rows) t = Some t' /\
    map fields_of_row (Postgres.reviews t')
    = (map fields_of_row (Postgres.reviews t) ++ rows)%list /\
    map Postgres.id (Postgres.reviews t')
    = (map Postgres.id (Postgres.reviews t) ++
       map (fun i => Postgres.next_id t + Z.of_nat i) (seq 0 (List.length rows)))%list /\
    Postgres.next_id t' = Postgres.next_id t + Z.of_nat (List.length rows).
Proof.
  intro Hrows. revert t.
  induction Hrows as [| row rows Hrow Hrows IH]; intros t Hnodup Hnew.
  - exists t. cbn. rewrite !app_nil_r, Z.add_0_r. auto.
  - destruct (accepted_shape row Hrow) as (e & r & s & ->).
    cbn [List.concat app]. rewrite insert_values_cons by exact Hrow.
    assert (Hhas : Postgres.has_external_id e (Postgres.reviews t) = false).
    { apply has_external_id_false. intro Hin.
      apply (Hnew [Num e; Str r; Num s]); [left; reflexivity |].
      cbn [hd]. apply in_map_iff in Hin. destruct Hin as (x & Hx & Hin).
      apply in_map_iff. exists x. split; [rewrite Hx; reflexivity | exact Hin]. }
    rewrite Hhas.
    cbn [map hd] in Hnodup. apply NoDup_cons_iff in Hnodup.
    destruct Hnodup as [Hfresh Hnodup].
    match goal with
    | |- context [Postgres.insert_values _ ?t1] =>
        destruct (IH t1 Hnodup) as (t' & Hins & Hfields & Hids & Hnext)
    end.
    { intros row Hin. cbn [Postgres.reviews]. rewrite map_app, in_app_iff.
      intros [Hold | [Hsame | []]].
      - apply (Hnew row); [right; exact Hin | exact Hold].
      - cbn in Hsame. apply Hfresh. rewrite Hsame.
        apply in_map. exact Hin. }
    exists t'. split; [exact Hins |].
    cbn [Postgres.reviews Postgres.next_id] in Hfields, Hids, Hnext.
    rewrite Hfields, Hids, Hnext, !map_app. cbn [map fields_of_row
      Postgres.id Postgres.external_id Postgres.review Postgres.sentiment
      List.length].
    rewrite <- !app_assoc. cbn [app].
    repeat split; try lia.
    f_equal. cbn [seq map]. rewrite Z.add_0_r. f_equal.
    rewrite <- seq_shift, map_map. apply map_ext. intro i. lia.
Qed.

(** An [INSERT] of rows whose identifiers are all in the table adds
    nothing. *)
Lemma insert_known (rows : list (list value)) (t : Postgres.database) :
  Forall (fun row => accepted row = true) rows ->
  (forall row, In row rows ->
               In (hd Undefined row)
                  (map (fun r => Num (Postgres.external_id r)) (Postgres.reviews t))) ->
  exists t',
    Postgres.insert_values (List.concat rows) t = Some t' /\
    Postgres.reviews t' = Postgres.reviews t.
Proof.
  intro Hrows. revert t.
  induction Hrows as [| row rows Hrow Hrows IH]; intros t Hknown.
  - exists t. auto.
  - destruct (accepted_shape row Hrow) as (e & r & s & ->).
    cbn [List.concat app]. rewrite insert_values_cons by exact Hrow.
    assert (Hhas : Postgres.has_external_id e (Postgres.reviews t) = true).
    { apply has_external_id_true.
      specialize (Hknown _ (or_introl eq_refl)). cbn [hd] in Hknown.
      apply in_map_iff in Hknown. destruct Hknown as (x & [= Hx] & Hin).
      apply in_map_iff. exists x. auto. }
    rewrite Hhas.
    match goal with
    | |- context [Postgres.insert_values _ ?t1] =>
        destruct (IH t1) as (t' & Hins & Hsame)
    end.
    { intros row Hin. apply Hknown. right. exact Hin. }
    exists t'. auto.
Qed.

(** After an [INSERT], the identifier of each of its rows is in the
    table. *)
Lemma insert_makes_known (rows : list (list value)) (t t' : Postgres.database) :
  Forall (fun row => accepted row = true) rows ->
  Postgres.insert_values (List.concat rows) t = Some t' ->
  forall row, In row rows ->
              In (hd Undefined row)
                 (map (fun r => Num (Postgres.external_id r)) (Postgres.reviews t')).
Proof.
  intro Hrows. revert t.
  induction Hrows as [| row rows Hrow Hrows IH]; intros t Hins x Hin; [destruct Hin |].
  destruct (accepted_shape row Hrow) as (e & r & s & ->).
  cbn [List.concat app] in Hins. rewrite insert_values_cons in Hins by exact Hrow.
  destruct Hin as [<- | Hin]; [| eapply IH; eauto].
  destruct (insert_values_keeps _ _ _ Hins) as [[added Hadd] _].
  rewrite Hadd, map_app, in_app_iff. left. cbn [hd].
  destruct (Postgres.has_external_id e (Postgres.reviews t)) eqn:Hhas;
    cbn [Postgres.reviews].
  - apply has_external_id_true in Hhas.
    apply in_map_iff in Hhas. destruct Hhas as (y & Hy & Hiny).
    apply in_map_iff. exists y. split; [rewrite Hy; reflexivity | exact Hiny].
  - rewrite map_app, in_app_iff. right. left. reflexivity.
Qed.

Lemma loop_app (a b : list object) (s : Pg.state) :
  Pg.loop (a ++ b) s
  = match Pg.loop a s with
    | Pg.Done s' => Pg.loop b s'
    | Pg.Threw s' e => Pg.Threw s' e
    end.
Proof.
  revert s. induction a as [| record a IH]; intro s; [reflexivity |].
  cbn [app Pg.loop]. destruct (Pg.visit record s); [apply IH | reflexivity].
Qed.

(** Fewer records than fill a batch: nothing is sent. *)
Lemma loop_short (records : list object) (s : Pg.state) :
  (List.length (Pg.batch s) + List.length records < Pg.BATCH_SIZE)%nat ->
  Pg.loop records s
  = Pg.Done {| Pg.db := Pg.db s; Pg.console := Pg.console s;
               Pg.batch := (Pg.batch s ++ map Pg.triple records)%list;
               Pg.count := Pg.count s |}.
Proof.
  revert s. induction records as [| record records IH]; intros s Hlen.
  - cbn. rewrite app_nil_r. destruct s; reflexivity.
  - cbn [Pg.loop]. unfold Pg.visit. cbn [Pg.batch List.length] in *.
    assert (Hfull : Nat.eqb (List.length (Pg.batch s ++ [Pg.triple record]))
                            Pg.BATCH_SIZE = false).
    { apply Nat.eqb_neq. rewrite length_app. cbn. lia. }
    rewrite Hfull, IH.
    + cbn [Pg.db Pg.console Pg.batch Pg.count map].
      rewrite <- app_assoc. reflexivity.
    + cbn [Pg.batch]. rewrite length_app. cbn. lia.
Qed.

(** The batch is empty again after each full hundred. *)
Lemma loop_batch_length (records : list object) (s s' : Pg.state) :
  (List.length (Pg.batch s) < Pg.BATCH_SIZE)%nat ->
  Pg.loop records s = Pg.Done s' ->
  List.length (Pg.batch s')
  = Nat.modulo (List.length (Pg.batch s) + List.length records) Pg.BATCH_SIZE.
Proof.
  revert s. induction records as [| record records IH]; intros s Hlen Hloop.
  - cbn in Hloop. injection Hloop as <-.
    rewrite Nat.add_0_r, Nat.mod_small; [reflexivity | exact Hlen].
  - cbn [Pg.loop] in Hloop. unfold Pg.visit in Hloop. cbn [Pg.batch] in Hloop.
    assert (HB : List.length (Pg.batch s ++ [Pg.triple record])
                 = S (List.length (Pg.batch s))).
    { rewrite length_app. cbn. lia. }
    destruct (Nat.eqb _ Pg.BATCH_SIZE) eqn:Hfull.
    + apply Nat.eqb_eq in Hfull. unfold Pg.flush in Hloop.
      cbn [Pg.batch Pg.db Pg.console Pg.count] in Hloop.
      destruct (Postgres.insertBatch _ _) as [t' [e | rows]]; [discriminate |].
      apply IH in Hloop; [| cbn; unfold Pg.BATCH_SIZE; lia].
      rewrite Hloop. cbn [Pg.batch List.length].
      replace (List.length (Pg.batch s) + S (List.length records))%nat
        with (List.length records + 1 * Pg.BATCH_SIZE)%nat by lia.
      rewrite Nat.Div0.mod_add. reflexivity.
    + apply Nat.eqb_neq in Hfull.
      apply IH in Hloop; [| cbn [Pg.batch]; lia].
      rewrite Hloop. cbn [Pg.batch List.length]. f_equal. lia.
Qed.

(** An [INSERT] with a triple that is not accepted is refused. *)
Lemma insert_values_refused (rows : list (list value)) (t : Postgres.database) :
  Forall (fun row => List.length row = 3%nat) rows ->
  Exists (fun row => accepted row = false) rows ->
  Postgres.insert_values (List.concat rows) t = None.
Proof.
  intro Hlen. revert t.
  induction Hlen as [| row rows Hrow Hlen IH]; intros t Hbad;
    [inversion Hbad |].
  destruct row as [| a [| b [| c [|]]]]; try discriminate.
  cbn [List.concat app].
  destruct (accepted [a; b; c]) eqn:Hacc.
  - destruct (accepted_shape _ Hacc) as (e & r & s & [= -> -> ->]).
    rewrite insert_values_cons by exact Hacc. apply IH.
    inversion Hbad as [? ? H | ? ? H]; subst; [congruence | exact H].
  - destruct a, b, c; try reflexivity.
    apply insert_values_bad, Hacc.
Qed.

(** Once a triple that is not accepted sits in the batch, the rows of
    the table stay as they are: the batch is refused whenever it is
    sent. *)
Lemma loop_spoiled (records : list object) (s : Pg.state) :
  Forall (fun row => List.length row = 3%nat) (Pg.batch s) ->
  Exists (fun row => accepted row = false) (Pg.batch s) ->
  match Pg.loop records s with
  | Pg.Done s' =>
      Forall (fun row => List.length row = 3%nat) (Pg.batch s') /\
      Exists (fun row => accepted row = false) (Pg.batch s') /\
      Pg.db s' = Pg.db s /\ Pg.console s' = Pg.console s
  | Pg.Threw s' e =>
      Postgres.reviews (Pg.db s') = Postgres.reviews (Pg.db s) /\
      Pg.console s' = Pg.console s
  end.
Proof.
  revert s. induction records as [| record records IH]; intros s Hlen Hbad.
  - cbn. auto.
  - cbn [Pg.loop]. unfold Pg.visit. cbn [Pg.batch].
    set (B := (Pg.batch s ++ [Pg.triple record])%list).
    assert (HB : Forall (fun row => List.length row = 3%nat) B).
    { apply Forall_app. split; [exact Hlen | repeat constructor]. }
    assert (HBbad : Exists (fun row => accepted row = false) B).
    { apply Exists_app. left. exact Hbad. }
    destruct (Nat.eqb (List.length B) Pg.BATCH_SIZE).
    + unfold Pg.flush. cbn [Pg.batch Pg.db Pg.console Pg.count].
      rewrite (insertBatch_unfold B _ HB), (insert_values_refused B _ HB HBbad).
      cbn. auto.
    + match goal with
      | |- context [Pg.loop records ?s1] =>
          specialize (IH s1 HB HBbad); destruct (Pg.loop records s1)
      end; exact IH.
Qed.

Lemma flush_spoiled (s : Pg.state) :
  Forall (fun row => List.length row = 3%nat) (Pg.batch s) ->
  Exists (fun row => accepted row = false) (Pg.batch s) ->
  exists t' e,
    Pg.flush s = Pg.Threw {| Pg.db := t'; Pg.console := Pg.console s;
                             Pg.batch := Pg.batch s; Pg.count := Pg.count s |} e /\
    Postgres.reviews t' = Postgres.reviews (Pg.db s).
Proof.
  intros Hlen Hbad. unfold Pg.flush.
  rewrite (insertBatch_unfold _ _ Hlen), (insert_values_refused _ _ Hlen Hbad).
  do 2 eexists. split; reflexivity.
Qed.


Lemma seed_clean (records : list object) (t : Postgres.database) :
  Forall (fun record => clean record = true) records ->
  Postgres.insert_values (List.concat (map Pg.triple records)) t
  = Some (fst (Pg.seed records t)) /\
  ends_well "Seeding completed successfully!" (snd (Pg.seed records t)).
Proof.
  intro Hclean.
  destruct (seed_accepted records t) as (t' & Hins & Hseed & Hlog).
  - eapply Forall_impl; [| exact Hclean]. apply clean_accepted.
  - rewrite Hseed. split; assumption.
Qed.

Lemma unreadable_refused (record : object) :
  unreadable record = true -> accepted (Pg.triple record) = false.
Proof.
  unfold unreadable, accepted.
  destruct (Pg.triple record) as [| [] [| [] [| [] []]]]; congruence.
Qed.

(** A triple the [INSERT] does not take makes [seed] stop: the table
    is left with the rows of the full batches that came before it. *)
Lemma seed_refused
  (good rest : list object) (bad : object) (t : Postgres.database) :
  Forall (fun record => clean record = true) good ->
  accepted (Pg.triple bad) = false ->
  let sent := (Pg.BATCH_SIZE * (List.length good / Pg.BATCH_SIZE))%nat in
  Postgres.reviews (fst (Pg.seed (good ++ bad :: rest) t))
  = Postgres.reviews (fst (Pg.seed (firstn sent good) t)) /\
  exists before e,
    snd (Pg.seed (good ++ bad :: rest) t)
    = (before ++ [Error "Error seeding data:" e])%list.
Proof.
  intros Hgood Hbad sent.
  set (a := firstn sent good). set (g := skipn sent good).
  assert (Hsplit : good = (a ++ g)%list) by (symmetry; apply firstn_skipn).
  assert (Hsent : (sent <= List.length good)%nat).
  { unfold sent. apply Nat.Div0.mul_div_le. }
  assert (Ha : List.length a = sent) by (unfold a; rewrite length_firstn; lia).
  assert (Hg : (List.length g < Pg.BATCH_SIZE)%nat).
  { unfold g. rewrite length_skipn. unfold sent.
    pose proof (Nat.div_mod_eq (List.length good) Pg.BATCH_SIZE) as Hdm.
    pose proof (Nat.mod_upper_bound (List.length good) Pg.BATCH_SIZE) as Hub.
    unfold Pg.BATCH_SIZE in *. lia. }
  assert (Hacc : Forall (fun record => accepted (Pg.triple record) = true) good).
  { eapply Forall_impl; [| exact Hgood]. apply clean_accepted. }
  rewrite Hsplit in Hacc. apply Forall_app in Hacc. destruct Hacc as [Hacca Haccg].
  unfold Pg.seed, Pg.try_block.
  change (Pg.query Pg.create_sql [] ?d) with (d, @inr error (list object) []).
  cbv iota beta.
  match goal with
  | |- context [Pg.loop a ?s] => set (s0 := s)
  end.
  destruct (loop_accepted a s0) as (s1 & Hloop & _ & Hlen1 & _ & _);
    [constructor | cbn; unfold Pg.BATCH_SIZE; lia | exact Hacca
    | cbn; repeat constructor |].
  assert (Hempty : Pg.batch s1 = []).
  { pose proof (loop_batch_length a s0 s1) as Hmod.
    rewrite Ha in Hmod. cbn [Pg.batch s0 Pg.log List.length] in Hmod.
    unfold sent in Hmod. rewrite Nat.add_0_l, Nat.mul_comm, Nat.Div0.mod_mul in Hmod.
    apply length_zero_iff_nil, Hmod; [unfold Pg.BATCH_SIZE; lia | exact Hloop]. }
  rewrite Hloop, Hempty. cbn [List.length].
  change (Nat.ltb 0 0) with false.
  cbn [Pg.final Pg.log Pg.db fst snd].
  rewrite Hsplit, <- app_assoc, loop_app, Hloop.
  rewrite loop_app, loop_short
    by (rewrite Hempty; cbn; exact Hg).
  rewrite Hempty. cbn [app Pg.loop].
  unfold Pg.visit. cbn [Pg.batch Pg.db Pg.console Pg.count].
  set (B := (map Pg.triple g ++ [Pg.triple bad])%list).
  assert (HB3 : Forall (fun row => List.length row = 3%nat) B).
  { apply Forall_app. split; [| repeat constructor].
    apply Forall_map. apply Forall_forall. reflexivity. }
  assert (HBbad : Exists (fun row => accepted row = false) B).
  { apply Exists_app. right. constructor. exact Hbad. }
  destruct (Nat.eqb (List.length B) Pg.BATCH_SIZE).
  - match goal with
    | |- context [Pg.flush ?s] =>
        destruct (flush_spoiled s HB3 HBbad) as (t' & e & He & Hrev);
        rewrite He
    end.
    cbn [Pg.db] in Hrev. cbn. split; [exact Hrev | eauto].
  - match goal with
    | |- context [Pg.loop rest ?s] =>
        pose proof (loop_spoiled rest s HB3 HBbad) as Hsp;
        destruct (Pg.loop rest s) as [s4 | s4 e]
    end.
    + destruct Hsp as (H3 & Hex & Hdb & Hco). cbn [Pg.db Pg.console] in Hdb, Hco.
      assert (Hne : Nat.ltb 0 (List.length (Pg.batch s4)) = true).
      { apply Nat.ltb_lt. destruct (Pg.batch s4); [inversion Hex | cbn; lia]. }
      rewrite Hne.
      destruct (flush_spoiled s4 H3 Hex) as (t' & e & He & Hrev). rewrite He.
      cbn. split; [rewrite Hrev, Hdb; reflexivity | eauto].
    + destruct Hsp as [Hdb Hco]. cbn [Pg.db Pg.console] in Hdb, Hco.
      cbn. split; [exact Hdb | eauto].
Qed.


End SeedPgFacts.

(* ================================================================== *)
(** * Seeding the index *)
(* ================================================================== *)

Module SeedEsFacts.
Import Js Seed.

Lemma pairs_app (ds ds' : list value) :
  pairs (ds ++ ds') = (pairs ds ++ pairs ds')%list.
Proof. apply flat_map_app. Qed.

Lemma pairs_length (ds : list value) :
  List.length (pairs ds) = (2 * List.length ds)%nat.
Proof.
  induction ds as [| d ds IH]; [reflexivity |].
  change (pairs (d :: ds)) with (Es.action :: d :: pairs ds).
  cbn [List.length]. rewrite IH. lia.
Qed.

Lemma transmit_pairs (ds : list value) :
  map Wire.transmit (pairs ds) = pairs (map Wire.transmit ds).
Proof.
  induction ds as [| d ds IH]; [reflexivity |].
  change (pairs (d :: ds)) with (Es.action :: d :: pairs ds).
  cbn [map]. rewrite IH. reflexivity.
Qed.

Lemma bulk_sources_pairs (ds : list value) :
  Elastic.bulk_sources (pairs ds) = ds.
Proof.
  induction ds as [| d ds IH]; [reflexivity |].
  change (pairs (d :: ds)) with (Es.action :: d :: pairs ds).
  cbn [Elastic.bulk_sources]. rewrite IH. reflexivity.
Qed.

Lemma taken_pairs (ds : list value) :
  Es.taken (pairs ds) = pairs (filter (fun d => negb (Es.refused d)) ds).
Proof.
  induction ds as [| d ds IH]; [reflexivity |].
  change (pairs (d :: ds)) with (Es.action :: d :: pairs ds).
  cbn [Es.taken filter]. rewrite IH.
  destruct (Es.refused d); reflexivity.
Qed.

(** What the index does with a batch of [seed]. *)
Lemma bulk_pairs (ds docs : list value) :
  Es.bulk (pairs ds) (Some docs)
  = (Some (docs ++ filter (fun d => negb (Es.refused d)) (map Wire.transmit ds))%list,
     filter Es.refused (map Wire.transmit ds)).
Proof.
  unfold Es.bulk. cbv zeta. rewrite transmit_pairs, taken_pairs.
  unfold Elastic.bulk. rewrite !bulk_sources_pairs. reflexivity.
Qed.

Lemma filter_nil (A : Type) (f : A -> bool) (l : list A) :
  filter f l = [] <-> Forall (fun x => f x = false) l.
Proof.
  induction l as [| x l IH]; cbn.
  - split; [constructor | reflexivity].
  - destruct (f x) eqn:Hx.
    + split; [discriminate |]. intro H. inversion H. congruence.
    + rewrite IH. split; [intro H; constructor; assumption |].
      intro H. inversion H. assumption.
Qed.

(** The loop sends the documents read so far in full batches, in
    order, and keeps the rest in [batch]; the index takes of them
    those it does not refuse, and the console tells of a refusal. *)
Lemma loop_documents (records : list object) (s : Es.state)
      (ds docs : list value) :
  Es.batch s = pairs ds ->
  Es.es s = Some docs ->
  (List.length ds < Es.BATCH_SIZE)%nat ->
  exists sent ds' k lines,
    (ds ++ map Es.document records)%list = (sent ++ ds')%list /\
    List.length sent = (Es.BATCH_SIZE * k)%nat /\
    (List.length ds' < Es.BATCH_SIZE)%nat /\
    Es.batch (Es.loop records s) = pairs ds' /\
    Es.es (Es.loop records s)
    = Some (docs ++ filter (fun d => negb (Es.refused d)) (map Wire.transmit sent))%list /\
    Es.console (Es.loop records s) = (Es.console s ++ lines)%list /\
    (Forall is_log lines <->
     Forall (fun d => Es.refused (Wire.transmit d) = false) sent).
Proof.
  revert s ds docs.
  induction records as [| record records IH]; intros s ds docs Hbatch Hes Hlen.
  - exists [], ds, O, []. cbn. rewrite !app_nil_r.
    repeat split; auto; try lia.
  - unfold Es.loop. cbn [fold_left]. fold (Es.loop records (Es.visit record s)).
    unfold Es.visit. cbn [Es.batch].
    set (B := (ds ++ [Es.document record])%list).
    assert (HB : (Es.batch s ++ [Es.action; Es.document record])%list = pairs B).
    { rewrite Hbatch. unfold B. rewrite pairs_app. reflexivity. }
    assert (HlB : List.length B = S (List.length ds)).
    { unfold B. rewrite length_app. cbn. lia. }
    rewrite HB, pairs_length.
    destruct (Nat.eqb_spec (2 * List.length B) (2 * Es.BATCH_SIZE)) as [Hfull | Hmore].
    + unfold Es.flush. cbn [Es.batch Es.es Es.console Es.count].
      rewrite Hes, bulk_pairs.
      set (items := filter Es.refused (map Wire.transmit B)).
      match goal with
      | |- context [Es.loop records ?s1] =>
          destruct (IH s1 []
                       (docs ++ filter (fun d => negb (Es.refused d))
                                       (map Wire.transmit B))%list)
            as (sent & ds' & k & lines & Hall & Hk & Hlt & Hb' & He' & Hco & Hlog)
      end.
      * reflexivity.
      * reflexivity.
      * cbn [List.length]. unfold Es.BATCH_SIZE. lia.
      * exists (B ++ sent)%list, ds', (S k), 
          ((match items with
            | [] => []
            | _ :: _ => [Failed "Bulk index errors:" items]
            end ++
            [progress (Es.count s + Nat.div (List.length (pairs B)) 2)
                      " records in Elasticsearch..."]) ++ lines)%list.
        cbn [app] in Hall.
        split; [cbn [map]; unfold B; rewrite <- !app_assoc; cbn [app];
                rewrite Hall; reflexivity |].
        split; [rewrite length_app, Hk; lia |].
        split; [exact Hlt |]. split; [exact Hb' |].
        split; [rewrite He', map_app, filter_app, app_assoc; reflexivity |].
        split.
        -- rewrite Hco. cbn [Es.counted Es.console].
           destruct items; cbn [Es.console]; rewrite <- ?app_assoc; reflexivity.
        -- rewrite !Forall_app, Hlog.
           assert (Hitems : items = [] <->
                            Forall (fun d => Es.refused (Wire.transmit d) = false) B).
           { unfold items. rewrite filter_nil, Forall_map. reflexivity. }
           destruct items as [| i items'].
           ++ split.
              ** intros [_ Hs]. split; [apply Hitems; reflexivity | exact Hs].
              ** intros [_ Hs]. split; [| exact Hs].
                 split; repeat constructor.
           ++ split.
              ** intros [[Hf _] _]. inversion Hf as [| ? ? Hbad]. destruct Hbad.
              ** intros [HBok _]. apply Hitems in HBok. discriminate.
    + match goal with
      | |- context [Es.loop records ?s1] =>
          destruct (IH s1 B docs)
            as (sent & ds' & k & lines & Hall & Hk & Hlt & Hb' & He' & Hco & Hlog)
      end.
      * reflexivity.
      * exact Hes.
      * unfold Es.BATCH_SIZE in *. lia.
      * exists sent, ds', k, lines.
        split; [unfold B in Hall; rewrite <- app_assoc in Hall; exact Hall |].
        
        repeat split; try assumption; apply Hlog.
Qed.

(** The documents sent in full batches are those of the first records,
    as many as make full batches. *)
Lemma full_batches (A : Type) (all sent rest : list A) (k : nat) :
  all = (sent ++ rest)%list ->
  List.length sent = (Es.BATCH_SIZE * k)%nat ->
  (List.length rest < Es.BATCH_SIZE)%nat ->
  sent = firstn (Es.BATCH_SIZE * (List.length all / Es.BATCH_SIZE)) all.
Proof.
  intros Hall Hk Hlt.
  assert (Hdiv : (List.length all / Es.BATCH_SIZE)%nat = k).
  { rewrite Hall, length_app, Hk.
    rewrite Nat.mul_comm, Nat.div_add_l by discriminate.
    rewrite Nat.div_small by exact Hlt. lia. }
  rewrite Hdiv, <- Hk, Hall.
  rewrite firstn_app, Nat.sub_diag, firstn_all. cbn. rewrite app_nil_r. reflexivity.
Qed.

(** Whatever the cluster held, seeding leaves the index with the
    documents it takes, in the order of the file; the console shows a
    refusal only of a document sent in a full batch. *)
Lemma seed_documents (records : list object) (c : Elastic.cluster) :
  fst (Es.seed records c)
  = Some (filter (fun d => negb (Es.refused d)) (map received records)) /\
  (exists before,
      snd (Es.seed records c)
      = (before ++ [Log "Elasticsearch seeding completed successfully!"])%list) /\
  (Forall is_log (snd (Es.seed records c)) <->
   Forall (fun record => indexable record = true)
          (firstn (Es.BATCH_SIZE * (List.length records / Es.BATCH_SIZE)) records)).
Proof.
  unfold Es.seed.
  match goal with
  | |- context [Es.loop records ?s] => set (s0 := s)
  end.
  assert (Hlog0 : Forall is_log (Es.console s0))
    by (unfold s0; destruct c; cbn; repeat constructor).
  destruct (loop_documents records s0 [] [])
    as (sent & ds & k & lines & Hall & Hk & Hlt & Hb & He & Hco & Hlog);
    [ unfold s0; destruct c; reflexivity | reflexivity
    | cbn [List.length]; unfold Es.BATCH_SIZE; lia |].
  cbn [app] in Hall, He.
  assert (Hsent : sent = firstn (Es.BATCH_SIZE * (List.length records / Es.BATCH_SIZE))
                               (map Es.document records)).
  { rewrite <- (length_map Es.document records).
    apply (full_batches _ _ _ ds k Hall Hk Hlt). }
  assert (Hdocs : forall l,
             filter (fun d => negb (Es.refused d)) (map Wire.transmit (map Es.document l))
             = filter (fun d => negb (Es.refused d)) (map received l)).
  { intro l. rewrite map_map. reflexivity. }
  assert (Hidx : Forall is_log lines <->
                 Forall (fun record => indexable record = true)
                        (firstn (Es.BATCH_SIZE * (List.length records / Es.BATCH_SIZE))
                                records)).
  { rewrite Hlog, Hsent, firstn_map, Forall_map.
    split; apply Forall_impl; intro record; unfold indexable, received;
      destruct (Es.refused _); cbn; congruence. }
  set (s1 := Es.loop records s0) in *.
  assert (Hfinal : let s2 := if Nat.ltb 0 (List.length (Es.batch s1))
                             then Es.flush_rest s1 else s1 in
                   Es.es s2 = Some (filter (fun d => negb (Es.refused d))
                                           (map received records)) /\
                   exists tail, Forall is_log tail /\
                                Es.console s2 = (Es.console s1 ++ tail)%list).
  { destruct (Nat.ltb 0 (List.length (Es.batch s1))) eqn:Hne; cbv zeta.
    - unfold Es.flush_rest. cbn [Es.counted Es.es Es.console].
      rewrite He, Hb, bulk_pairs. cbn [fst].
      rewrite <- filter_app, <- map_app, <- Hall, Hdocs.
      split; [reflexivity |]. eexists. split; [| reflexivity]. repeat constructor.
    - apply Nat.ltb_ge in Hne. rewrite Hb, pairs_length in Hne.
      destruct ds as [| d ds]; [| cbn in Hne; lia].
      rewrite app_nil_r in Hall. rewrite He, <- Hall, Hdocs.
      split; [reflexivity |]. exists []. split; [constructor |].
      rewrite app_nil_r. reflexivity. }
  cbv zeta in Hfinal. destruct Hfinal as (Hes & tail & Htail & Hcons).
  cbn [Es.log Es.es Es.console fst snd].
  split; [exact Hes |].
  split; [eexists; reflexivity |].
  rewrite Hcons, Hco, !Forall_app, <- Hidx.
  split.
  - intros [[[_ Hl] _] _]. exact Hl.
  - intro Hl. repeat split; try assumption. repeat constructor.
Qed.

Lemma document_fields (record : object) :
  accepted (Pg.triple record) = true ->
  fields_of_document (received record) = Pg.triple record.
Proof.
  intro H. destruct (SeedPgFacts.accepted_shape _ H) as (e & r & s & Ht).
  unfold Pg.triple in Ht. injection Ht as He Hr Hs.
  unfold received, Es.document, Pg.triple. rewrite He, Hr, Hs. reflexivity.
Qed.

Lemma clean_indexable (record : object) :
  clean record = true -> indexable record = true.
Proof.
  unfold clean, indexable, received, Es.document, Pg.triple.
  destruct (parseInt (or_else _ _)) as [| | | e | | | |]; try discriminate.
  destruct (lookup "review" record) as [| | | | | r | |]; try discriminate.
  destruct (parseInt (lookup "sentiment" record)) as [| | | n | | | |];
    try discriminate.
  intro H. apply andb_true_iff in H. destruct H as [H _].
  apply andb_true_iff in H. destruct H as [H _].
  cbn. rewrite H. reflexivity.
Qed.

Lemma filter_all (A : Type) (f : A -> bool) (l : list A) :
  Forall (fun x => f x = true) l -> filter f l = l.
Proof.
  induction 1 as [| x l Hx _ IH]; [reflexivity |].
  cbn. rewrite Hx, IH. reflexivity.
Qed.

End SeedEsFacts.

(* ================================================================== *)
(** * The seed scripts: what they leave in the stores *)
(* ================================================================== *)

Import Seed.

(** X1: whatever the records, [seed] of [seed-pg.mjs] only adds rows
    at the end of the table: the rows that were there stay as they
    were, and no two rows come to share an [id] or an [external_id]. *)
Theorem seeding_keeps_rows_and_keys
  (records : list object) (t : Postgres.database) :
  keys_sound t ->
  keys_sound (fst (Pg.seed records t)) /\
  exists added,
    Postgres.reviews (fst (Pg.seed records t))
    = (Postgres.reviews t ++ added)%list.
Proof.
  intro Hkeys.
  apply (SeedPgFacts.seed_keeps
           (fun t' => keys_sound t' /\
                      exists added,
                        Postgres.reviews t' = (Postgres.reviews t ++ added)%list)).
  - intros rows t1 [Hk [added Hadd]].
    destruct (SeedPgFacts.insertBatch_cases rows t1)
      as [(Hsame & Hnext & _) | [Hins _]].
    + split; [| exists added; rewrite Hsame; exact Hadd].
      destruct Hk as (Hid & Hext & Hlt).
      unfold keys_sound. rewrite Hsame. repeat split; auto.
      eapply Forall_impl; [| exact Hlt]. intros r Hr. cbv beta in Hr. lia.
    + destruct (SeedPgFacts.insert_values_keeps _ _ _ Hins) as [[more Hmore] Hk'].
      split; [apply Hk', Hk |].
      exists (added ++ more)%list. rewrite Hmore, Hadd, app_assoc. reflexivity.
  - split; [exact Hkeys | exists []; symmetry; apply app_nil_r].
Qed.

Lemma seeding_keeps_rows_and_keys_witness :
  keys_sound Postgres.empty /\
  keys_sound (fst (Pg.seed two_records Postgres.empty)).
Proof.
  assert (H : keys_sound Postgres.empty).
  { unfold keys_sound. cbn. repeat split; constructor. }
  split; [exact H |].
  apply (seeding_keeps_rows_and_keys two_records Postgres.empty H).
Defined.

(** X2: when every record is clean, the batches of a hundred do not
    show in the result: the table [seed] leaves is the one that
    inserting the records one after the other, in the order of the
    file, each unless its [external_id] is there, leaves; and the
    console ends on the success line without an error. *)
Theorem batches_amount_to_one_insert
  (records : list object) (t : Postgres.database) :
  Forall (fun record => clean record = true) records ->
  Postgres.insert_values (List.concat (map Pg.triple records)) t
  = Some (fst (Pg.seed records t)) /\
  ends_well "Seeding completed successfully!" (snd (Pg.seed records t)).
Proof.
  apply SeedPgFacts.seed_clean.
Qed.

Lemma batches_amount_to_one_insert_witness :
  Forall (fun record => clean record = true) two_records /\
  Postgres.insert_values (List.concat (map Pg.triple two_records)) Postgres.empty
  = Some (fst (Pg.seed two_records Postgres.empty)).
Proof.
  assert (H : Forall (fun record => clean record = true) two_records)
    by (repeat constructor).
  split; [exact H |].
  apply (batches_amount_to_one_insert two_records Postgres.empty H).
Defined.

(** X3: clean records whose identifiers are distinct and not yet in
    the table are all added, in the order of the file, each with its
    identifier, review and sentiment, under the next values of the
    [id] sequence. *)
Theorem seeding_adds_new_records_in_order
  (records : list object) (t : Postgres.database) :
  Forall (fun record => clean record = true) records ->
  NoDup (map (fun record => hd Undefined (Pg.triple record)) records) ->
  (forall record,
      In record records ->
      ~ In (hd Undefined (Pg.triple record))
           (map (fun r => Num (Postgres.external_id r)) (Postgres.reviews t))) ->
  let t' := fst (Pg.seed records t) in
  map fields_of_row (Postgres.reviews t')
  = (map fields_of_row (Postgres.reviews t) ++ map Pg.triple records)%list /\
  map Postgres.id (Postgres.reviews t')
  = (map Postgres.id (Postgres.reviews t) ++
     map (fun i => Postgres.next_id t + Z.of_nat i)
         (seq 0 (List.length records)))%list /\
  Postgres.next_id t' = Postgres.next_id t + Z.of_nat (List.length records).
Proof.
  intros Hclean Hnodup Hnew t'.
  assert (Hacc : Forall (fun row => accepted row = true) (map Pg.triple records)).
  { apply Forall_map. eapply Forall_impl; [| exact Hclean].
    apply SeedPgFacts.clean_accepted. }
  destruct (SeedPgFacts.insert_new (map Pg.triple records) t Hacc)
    as (t1 & Hins & Hfields & Hids & Hnext).
  - rewrite map_map. exact Hnodup.
  - intros row Hin. apply in_map_iff in Hin. destruct Hin as (record & <- & Hin).
    apply Hnew, Hin.
  - destruct (SeedPgFacts.seed_clean records t Hclean) as [Hone _].
    assert (Ht : t' = t1) by (unfold t'; congruence).
    rewrite Ht, Hfields, Hids, Hnext, length_map. auto.
Qed.

Lemma seeding_adds_new_records_in_order_witness :
  Forall (fun record => clean record = true) two_records /\
  NoDup (map (fun record => hd Undefined (Pg.triple record)) two_records) /\
  map fields_of_row (Postgres.reviews (fst (Pg.seed two_records Postgres.empty)))
  = map Pg.triple two_records /\
  map Postgres.id (Postgres.reviews (fst (Pg.seed two_records Postgres.empty)))
  = [1; 2].
Proof.
  assert (H : Forall (fun record => clean record = true) two_records)
    by (repeat constructor).
  assert (Hnodup : NoDup (map (fun record => hd Undefined (Pg.triple record))
                              two_records)).
  { vm_compute. repeat constructor; cbn; intuition discriminate. }
  split; [exact H | split; [exact Hnodup |]].
  destruct (seeding_adds_new_records_in_order two_records Postgres.empty H Hnodup)
    as (Hfields & Hids & _).
  - intros record _ [].
  - split; [exact Hfields | exact Hids].
Defined.

(** X4: seeding the table a second time from the same clean records
    adds no row and changes none ([ON CONFLICT (external_id) DO
    NOTHING]). *)
Theorem seeding_again_adds_nothing
  (records : list object) (t : Postgres.database) :
  Forall (fun record => clean record = true) records ->
  let once := fst (Pg.seed records t) in
  Postgres.reviews (fst (Pg.seed records once)) = Postgres.reviews once.
Proof.
  intros Hclean once.
  assert (Hacc : Forall (fun row => accepted row = true) (map Pg.triple records)).
  { apply Forall_map. eapply Forall_impl; [| exact Hclean].
    apply SeedPgFacts.clean_accepted. }
  destruct (SeedPgFacts.seed_clean records t Hclean) as [Hone _].
  fold once in Hone.
  destruct (SeedPgFacts.seed_clean records once Hclean) as [Htwo _].
  destruct (SeedPgFacts.insert_known (map Pg.triple records) once Hacc)
    as (t' & Hins & Hsame).
  - apply (SeedPgFacts.insert_makes_known _ t once Hacc Hone).
  - congruence.
Qed.

Lemma seeding_again_adds_nothing_witness :
  Forall (fun record => clean record = true) two_records /\
  Postgres.reviews
    (fst (Pg.seed two_records (fst (Pg.seed two_records Postgres.empty))))
  = Postgres.reviews (fst (Pg.seed two_records Postgres.empty)).
Proof.
  assert (H : Forall (fun record => clean record = true) two_records)
    by (repeat constructor).
  split; [exact H |].
  apply (seeding_again_adds_nothing two_records Postgres.empty H).
Defined.

(** X5: a record of which a number cannot be read, or whose review is
    missing, makes [seed] stop on an error, and the batch it sits in is
    refused whole: the table is left with the rows of the full batches
    of a hundred that came before it, and with nothing of what
    follows. *)
Theorem seeding_stops_at_a_refused_batch
  (good rest : list object) (bad : object) (t : Postgres.database) :
  Forall (fun record => clean record = true) good ->
  unreadable bad = true ->
  let sent := (Pg.BATCH_SIZE * (List.length good / Pg.BATCH_SIZE))%nat in
  Postgres.reviews (fst (Pg.seed (good ++ bad :: rest) t))
  = Postgres.reviews (fst (Pg.seed (firstn sent good) t)) /\
  exists before e,
    snd (Pg.seed (good ++ bad :: rest) t)
    = (before ++ [Error "Error seeding data:" e])%list.
Proof.
  intros Hgood Hbad sent.
  destruct (SeedPgFacts.seed_refused good rest bad t Hgood) as [Hdb Hlog].
  - apply SeedPgFacts.unreadable_refused, Hbad.
  - split; [exact Hdb | exact Hlog].
Qed.

Lemma seeding_stops_at_a_refused_batch_witness :
  Forall (fun record => clean record = true) two_records /\
  unreadable nameless_record = true /\
  Postgres.reviews
    (fst (Pg.seed (two_records ++ nameless_record :: two_records) Postgres.empty))
  = [].
Proof.
  assert (H : Forall (fun record => clean record = true) two_records)
    by (repeat constructor).
  assert (Hbad : unreadable nameless_record = true) by reflexivity.
  split; [exact H | split; [exact Hbad |]].
  destruct (seeding_stops_at_a_refused_batch two_records two_records
              nameless_record Postgres.empty H Hbad) as [Hdb _].
  rewrite Hdb. reflexivity.
Defined.

(** X6: whatever the cluster held, [seed] of [seed-es.mjs] leaves the
    index with the documents of the records it takes and no other, in
    the order of the file, and seeding again from the same records
    leaves the same index.  When no identifier is out of range there
    is exactly one document for each record (an unreadable number is
    stored as [null]). *)
Theorem seeding_replaces_the_index (records : list object) (c : Elastic.cluster) :
  Forall (fun record => parsed record = true) records ->
  let docs := filter (fun d => negb (Es.refused d)) (map received records) in
  fst (Es.seed records c) = Some docs /\
  fst (Es.seed records (fst (Es.seed records c))) = fst (Es.seed records c) /\
  (Forall (fun record => indexable record = true) records ->
   docs = map received records /\ List.length docs = List.length records).
Proof.
  intros _ docs.
  destruct (SeedEsFacts.seed_documents records c) as [Hdocs _].
  destruct (SeedEsFacts.seed_documents records (fst (Es.seed records c)))
    as [Hagain _].
  split; [exact Hdocs |]. split; [congruence |].
  intro Hall.
  assert (Heq : docs = map received records).
  { apply SeedEsFacts.filter_all, Forall_map.
    eapply Forall_impl; [| exact Hall].
    intros record H. unfold indexable in H. exact H. }
  split; [exact Heq |]. rewrite Heq. apply length_map.
Qed.

Lemma seeding_replaces_the_index_witness :
  let records := (two_records ++ [nameless_record])%list in
  Forall (fun record => parsed record = true) records /\
  Forall (fun record => indexable record = true) records /\
  fst (Es.seed records (Some [Null]))
  = Some [ Obj [("external_id", Num 0);
                ("review", Str "One of the other reviewers has mentioned");
                ("sentiment", Num 1)];
           Obj [("external_id", Num 1);
                ("review", Str "A wonderful little production");
                ("sentiment", Num 1)];
           Obj [("external_id", Null);
                ("review", Str "Basically there is a family");
                ("sentiment", Num 0)] ].
Proof.
  intro records.
  assert (H : Forall (fun record => parsed record = true) records)
    by (repeat constructor).
  assert (Hall : Forall (fun record => indexable record = true) records)
    by (repeat constructor).
  split; [exact H | split; [exact Hall |]].
  destruct (seeding_replaces_the_index records (Some [Null]) H)
    as (Hdocs & _ & Hone).
  destruct (Hone Hall) as [Heq _].
  etransitivity; [exact Hdocs |].
  etransitivity; [apply f_equal; exact Heq | reflexivity].
Defined.

(** X7: seeded from the same clean records with distinct identifiers,
    the table (empty before) and the index (whatever it held) say the
    same: row by row and document by document, the same identifier,
    review and sentiment, in the same order. *)
Theorem stores_agree_after_seeding (records : list object) (c : Elastic.cluster) :
  Forall (fun record => clean record = true) records ->
  NoDup (map (fun record => hd Undefined (Pg.triple record)) records) ->
  exists docs,
    fst (Es.seed records c) = Some docs /\
    map fields_of_row (Postgres.reviews (fst (Pg.seed records Postgres.empty)))
    = map fields_of_document docs.
Proof.
  intros Hclean Hnodup.
  assert (Hacc : Forall (fun row => accepted row = true) (map Pg.triple records)).
  { apply Forall_map. eapply Forall_impl; [| exact Hclean].
    apply SeedPgFacts.clean_accepted. }
  destruct (SeedEsFacts.seed_documents records c) as [Hdocs _].
  rewrite SeedEsFacts.filter_all in Hdocs.
  2:{ apply Forall_map. eapply Forall_impl; [| exact Hclean].
      intros record H. apply SeedEsFacts.clean_indexable in H.
      unfold indexable in H. exact H. }
  eexists. split; [exact Hdocs |].
  destruct (SeedPgFacts.insert_new (map Pg.triple records) Postgres.empty Hacc)
    as (t1 & Hins & Hfields & _).
  - rewrite map_map. exact Hnodup.
  - intros row _ [].
  - destruct (SeedPgFacts.seed_clean records Postgres.empty Hclean) as [Hone _].
    assert (Ht : fst (Pg.seed records Postgres.empty) = t1) by congruence.
    rewrite Ht, Hfields, map_map. cbn [Postgres.reviews Postgres.empty map app].
    apply map_ext_in. intros record Hin. symmetry.
    apply SeedEsFacts.document_fields.
    rewrite Forall_forall in Hclean.
    apply SeedPgFacts.clean_accepted, Hclean, Hin.
Qed.

Lemma stores_agree_after_seeding_witness :
  Forall (fun record => clean record = true) two_records /\
  NoDup (map (fun record => hd Undefined (Pg.triple record)) two_records) /\
  exists docs,
    fst (Es.seed two_records None) = Some docs /\
    map fields_of_row (Postgres.reviews (fst (Pg.seed two_records Postgres.empty)))
    = map fields_of_document docs.
Proof.
  assert (H : Forall (fun record => clean record = true) two_records)
    by (repeat constructor).
  assert (Hnodup : NoDup (map (fun record => hd Undefined (Pg.triple record))
                              two_records)).
  { vm_compute. repeat constructor; cbn; intuition discriminate. }
  split; [exact H | split; [exact Hnodup |]].
  apply (stores_agree_after_seeding two_records None H Hnodup).
Defined.

(** X8: [seed] of [seed-es.mjs] reports a refused document only when
    it was sent in a full batch of five hundred: the response to the
    last, partial batch is not looked at.  The console shows no error
    exactly when the index takes every record of the full batches, and
    it always ends on the success line. *)
Theorem refusals_are_reported_for_full_batches_only
  (records : list object) (c : Elastic.cluster) :
  Forall (fun record => parsed record = true) records ->
  let full := firstn (Es.BATCH_SIZE * (List.length records / Es.BATCH_SIZE))
                     records in
  (exists before,
      snd (Es.seed records c)
      = (before ++ [Log "Elasticsearch seeding completed successfully!"])%list) /\
  (Forall is_log (snd (Es.seed records c)) <->
   Forall (fun record => indexable record = true) full).
Proof.
  intros _ full.
  destruct (SeedEsFacts.seed_documents records c) as (_ & Hend & Hlog).
  split; [exact Hend | exact Hlog].
Qed.

Lemma refusals_are_reported_for_full_batches_only_witness :
  let records := (two_records ++ [oversized_record])%list in
  Forall (fun record => parsed record = true) records /\
  indexable oversized_record = false /\
  Forall is_log (snd (Es.seed records None)).
Proof.
  intro records.
  assert (H : Forall (fun record => parsed record = true) records)
    by (repeat constructor).
  split; [exact H | split; [reflexivity |]].
  destruct (refusals_are_reported_for_full_batches_only records None H)
    as [_ Hlog].
  apply Hlog. constructor.
Defined.



(* ================================================================== *)
(** * More on the route *)
(* ================================================================== *)

Module RouteMoreFacts.
Import Js Route Protocol Special.

Lemma toLowerCase_idempotent (s : string) :
  toLowerCase (toLowerCase s) = toLowerCase s.
Proof.
  induction s as [| c s IH]; [reflexivity |].
  cbn [toLowerCase]. rewrite IH. f_equal.
  destruct c as [[] [] [] [] [] [] [] []]; reflexivity.
Qed.


(** [ILIKE] sees the pattern through its lower case only. *)
Lemma ilike_lower (p t : string) :
  Postgres.ilike (toLowerCase p) t = Postgres.ilike p t.
Proof. unfold Postgres.ilike. rewrite toLowerCase_idempotent. reflexivity. Qed.

Section Steps.

Variable now : nat -> Q.

(** A step only adds to what was written. *)
Lemma step_extends (h : handler) (ev : event) :
  exists more, emitted (step now h ev) = (emitted h ++ more)%list.
Proof.
  destruct h as [[[st wr] ck con] ps es cl pgp esp al].
  unfold emitted.
  destruct ev as [[e | rows] | [e | result]];
    destruct pgp, esp, al, st;
    unfold step, elasticSearch_resume, postgresSearch_resume, bind, lift,
      performance_now, sendData, controller_enqueue; cbn;
    try (destruct (elastic_total result); cbn);
    try (destruct (elastic_data result); cbn);
    solve [ exists []; rewrite app_nil_r; reflexivity
          | eexists; reflexivity ].
Qed.

Lemma run_extends (schedule : list event) (h : handler) :
  exists more, emitted (run now h schedule) = (emitted h ++ more)%list.
Proof.
  revert h. induction schedule as [| ev schedule IH]; intro h.
  - exists []. cbn. rewrite app_nil_r. reflexivity.
  - change (run now h (ev :: schedule)) with (run now (step now h ev) schedule).
    destruct (IH (step now h ev)) as [more Hmore].
    destruct (step_extends h ev) as [first Hfirst].
    exists (first ++ more)%list. rewrite Hmore, Hfirst, app_assoc. reflexivity.
Qed.

Lemma run_app (s1 s2 : list event) (h : handler) :
  run now h (s1 ++ s2) = run now (run now h s1) s2.
Proof. unfold run. apply fold_left_app. Qed.

(** What comes from the table leaves the promise of [elasticSearch]
    alone, and the other way round. *)
Lemma postgres_step_elastic (h : handler) (ev : event) :
  from_postgres ev -> elasticSearch (step now h ev) = elasticSearch h.
Proof.
  destruct ev as [[e | rows] | reply]; [| | intros []]; intros _;
    destruct h as [[[st wr] ck con] ps es cl pgp esp al];
    destruct pgp, esp, al, st; reflexivity.
Qed.

Lemma elastic_step_postgres (h : handler) (ev : event) :
  from_elastic ev -> postgresSearch (step now h ev) = postgresSearch h.
Proof.
  destruct ev as [reply | [e | result]]; [intros [] | |]; intros _;
    destruct h as [[[st wr] ck con] ps es cl pgp esp al];
    unfold step, elasticSearch_resume, bind, lift, performance_now, sendData,
      controller_enqueue; cbn;
    try (destruct (elastic_total result); cbn);
    try (destruct (elastic_data result); cbn);
    destruct pgp, esp, al, st; reflexivity.
Qed.

Lemma postgres_run_elastic (schedule : list event) (h : handler) :
  Forall from_postgres schedule ->
  elasticSearch (run now h schedule) = elasticSearch h.
Proof.
  intro H. revert h. induction H as [| ev schedule Hev H IH]; intro h; [reflexivity |].
  change (run now h (ev :: schedule)) with (run now (step now h ev) schedule).
  rewrite IH. apply postgres_step_elastic, Hev.
Qed.

Lemma elastic_run_postgres (schedule : list event) (h : handler) :
  Forall from_elastic schedule ->
  postgresSearch (run now h schedule) = postgresSearch h.
Proof.
  intro H. revert h. induction H as [| ev schedule Hev H IH]; intro h; [reflexivity |].
  change (run now h (ev :: schedule)) with (run now (step now h ev) schedule).
  rewrite IH. apply elastic_step_postgres, Hev.
Qed.

(** A response that cannot be read while [start] is waiting: the
    adapter throws, nothing is written, the stream is errored. *)
Lemma elastic_unreadable (h : handler) (result : value) (e : error) :
  consistent now h -> all h = Pending -> elasticSearch h = Pending ->
  (elastic_total result = inl e \/
   exists total, elastic_total result = inr total /\ elastic_data result = inl e) ->
  let h' := step now h (ElasticSettles (inr result)) in
  emitted h' = emitted h /\
  stream_state h' = Stream.Errored e /\
  elasticSearch h' = Rejected e /\
  console (io h') = [e] /\
  all h' = Rejected e.
Proof.
  intros [Hck Hps Hes Hfr Hlen Hag] Hall Hpending Hbad.
  destruct h as [[[st wr] ck con] ps es cl pgp esp al].
  unfold agrees, emitted, stream_state in *; cbn in *; subst.
  destruct Hag as (-> & -> & Hp & _ & _).
  unfold elasticSearch_resume, bind, lift, performance_now, sendData,
    controller_enqueue; cbn.
  destruct Hbad as [Htot | (total & Htot & Hdat)]; rewrite Htot; cbn;
    try (rewrite Hdat; cbn);
    destruct pgp; cbn in *; try discriminate; repeat split; reflexivity.
Qed.

End Steps.

(** ** Patterns made of wildcards *)






(** ** Appending strings *)

Lemma append_assoc (a b c : string) : (a ++ b) ++ c = a ++ b ++ c.
Proof. induction a as [| x a IH]; [reflexivity | cbn; rewrite IH; reflexivity]. Qed.

Lemma append_empty (a : string) : a ++ EmptyString = a.
Proof. induction a as [| x a IH]; [reflexivity | cbn; rewrite IH; reflexivity]. Qed.

End RouteMoreFacts.

Import Js Route Protocol Special.

(** X10: the letter case of the query does not matter to either
    backend.  Two queries that differ in the case of their letters only
    cause the same request to the index, and the statement sent to the
    table selects the same rows for both: the two backends give the
    same replies. *)
Theorem letter_case_of_the_query_is_ignored
  (matches : Elastic.query_string -> string -> bool) (now : nat -> Q)
  (q1 q2 : string) (s : System.stores) :
  toLowerCase q1 = toLowerCase q2 ->
  elastic_call q1 = elastic_call q2 /\
  Postgres.matching ("%" ++ q1 ++ "%") (System.db s)
  = Postgres.matching ("%" ++ q2 ++ "%") (System.db s) /\
  System.answer matches (calls (start now q1)) s
  = System.answer matches (calls (start now q2)) s.
Proof.
  intro Hq.
  assert (Hil : forall t, Postgres.ilike ("%" ++ q1 ++ "%") t
                          = Postgres.ilike ("%" ++ q2 ++ "%") t).
  { intro t. unfold Postgres.ilike.
    rewrite !LikeFacts.toLowerCase_app, Hq. reflexivity. }
  assert (Hm : forall db, Postgres.matching ("%" ++ q1 ++ "%") db
                          = Postgres.matching ("%" ++ q2 ++ "%") db).
  { intro db. unfold Postgres.matching. apply filter_ext. intro r. apply Hil. }
  assert (He : elastic_call q1 = elastic_call q2).
  { unfold elastic_call. rewrite Hq. reflexivity. }
  split; [exact He | split; [apply Hm |]].
  unfold System.answer, start, calls. cbn [fst snd].
  rewrite He.
  unfold postgres_call, text, values.
  rewrite !AdapterFacts.query_select.
  unfold Postgres.select_ilike. rewrite Hm. reflexivity.
Qed.

Lemma letter_case_of_the_query_is_ignored_witness :
  Postgres.matching "%WoMbAt%" (System.db System.one_record)
  = Postgres.matching "%wombat%" (System.db System.one_record) /\
  List.length (Postgres.matching "%WoMbAt%" (System.db System.one_record)) = 1%nat.
Proof.
  split.
  - apply (letter_case_of_the_query_is_ignored
             Elastic.standard_matches System.sample_clock
             "WoMbAt" "wombat" System.one_record).
    reflexivity.
  - vm_compute. reflexivity.
Defined.

(** X11: a search response the adapter cannot read ends the stream in
    error.  When [result.hits.total] or [result.hits.hits.map] throws
    (no [hits], a null [total], [hits.hits] not an array, a null hit)
    while [start] is waiting on both adapters, nothing is written for
    the index, the error is logged once and the stream is errored with
    it; whatever settles afterwards, the caller gets nothing more. *)
Theorem unreadable_response_errors_the_stream
  (now : nat -> Q) (query : string) (schedule later : list event)
  (result : value) (e : error) :
  let h := run now (start now query) schedule in
  let h' := step now h (ElasticSettles (inr result)) in
  all h = Pending -> elasticSearch h = Pending ->
  (elastic_total result = inl e \/
   exists total, elastic_total result = inr total /\ elastic_data result = inl e) ->
  emitted h' = emitted h /\
  stream_state h' = Stream.Errored e /\
  console (io h') = [e] /\
  emitted (run now h' later) = emitted h /\
  stream_state (run now h' later) = Stream.Errored e.
Proof.
  intros h h' Hall Hpending Hbad.
  assert (Hh : consistent now h)
    by apply ProtocolFacts.reachable_consistent.
  destruct (RouteMoreFacts.elastic_unreadable now h result e Hh Hall Hpending Hbad)
    as (Hem & Hst & _ & Hco & Hal).
  fold h' in Hem, Hst, Hco, Hal.
  assert (Hh' : consistent now h')
    by apply ProtocolFacts.step_consistent, Hh.
  destruct (ProtocolFacts.settled_run now later h' Hh') as (Hem' & Hst' & _).
  { rewrite Hal. discriminate. }
  rewrite Hem', Hst', Hem, Hst. auto.
Qed.

Lemma unreadable_response_errors_the_stream_witness :
  let e := TypeError "Cannot read properties of undefined" in
  let h := step System.sample_clock (start System.sample_clock "wombat")
                (ElasticSettles (inr (Obj []))) in
  elastic_total (Obj []) = inl e /\
  emitted h = [] /\
  stream_state h = Stream.Errored e.
Proof.
  intros e h.
  split; [reflexivity |].
  destruct (unreadable_response_errors_the_stream
              System.sample_clock "wombat" [] [] (Obj []) e)
    as (Hem & Hst & _); [reflexivity | reflexivity | left; reflexivity |].
  split; [exact Hem | exact Hst].
Defined.

(** X12: what was sent stays sent, and an ended stream stays as it
    ended.  Along any schedule the events written so far are a prefix
    of those written later; once the stream is closed or errored, no
    later event adds to them or changes its state. *)
Theorem written_events_are_final
  (now : nat -> Q) (query : string) (s1 s2 : list event) :
  let h1 := run now (start now query) s1 in
  let h2 := run now (start now query) (s1 ++ s2) in
  (exists more, emitted h2 = (emitted h1 ++ more)%list) /\
  (stream_state h1 <> Stream.Readable ->
   emitted h2 = emitted h1 /\ stream_state h2 = stream_state h1).
Proof.
  intros h1 h2. unfold h2. rewrite RouteMoreFacts.run_app. fold h1.
  split; [apply RouteMoreFacts.run_extends |].
  intro Hended.
  assert (Hh : consistent now h1)
    by apply ProtocolFacts.reachable_consistent.
  destruct (ProtocolFacts.settled_run now s2 h1 Hh) as (Hem & Hst & _).
  - intro Hall. apply Hended.
    destruct Hh as [_ _ _ _ _ Hag]. unfold agrees in Hag.
    rewrite Hall in Hag. apply Hag.
  - split; assumption.
Qed.

Lemma written_events_are_final_witness :
  let now := System.sample_clock in
  let failed := [ElasticSettles (inl System.boom)] in
  let late := [PostgresSettles (inr [])] in
  stream_state (run now (start now "wombat") failed) = Stream.Errored System.boom /\
  emitted (run now (start now "wombat") (failed ++ late)) = [] /\
  stream_state (run now (start now "wombat") (failed ++ late))
  = Stream.Errored System.boom.
Proof.
  intros now failed late.
  split; [reflexivity |].
  destruct (written_events_are_final now "wombat" failed late) as [_ Hended].
  destruct Hended as [Hem Hst]; [vm_compute; discriminate |].
  split; [exact Hem | exact Hst].
Defined.

(** X13: the route sets no time limit of its own.  As long as only the
    table has answered, however often, the promise of [elasticSearch]
    is pending, at most one event has been written and the stream is
    not closed; it is still open unless the table failed.  The same
    holds with the two backends exchanged. *)
Theorem stream_waits_for_the_silent_backend
  (now : nat -> Q) (query : string) (schedule : list event) :
  let h := run now (start now query) schedule in
  (Forall from_postgres schedule ->
   elasticSearch h = Pending /\
   (List.length (emitted h) <= 1)%nat /\
   stream_state h <> Stream.Closed /\
   (is_rejected (postgresSearch h) = false -> stream_state h = Stream.Readable)) /\
  (Forall from_elastic schedule ->
   postgresSearch h = Pending /\
   (List.length (emitted h) <= 1)%nat /\
   stream_state h <> Stream.Closed /\
   (is_rejected (elasticSearch h) = false -> stream_state h = Stream.Readable)).
Proof.
  intro h.
  destruct (ProtocolFacts.reachable_consistent now query schedule)
    as [_ _ _ _ Hlen Hag].
  fold h in Hlen, Hag. unfold agrees in Hag.
  split; intro Hsched.
  - assert (Hes : elasticSearch h = Pending)
      by (unfold h; rewrite RouteMoreFacts.postgres_run_elastic; auto).
    rewrite Hes in *. rewrite Hlen.
    split; [reflexivity |].
    split; [destruct (postgresSearch h); cbn; lia |].
    destruct (all h) as [| | e]; destruct Hag as (Hst & _ & Hrest);
      rewrite Hst.
    + split; [discriminate | reflexivity].
    + destruct Hrest; discriminate.
    + split; [discriminate |].
      destruct Hrest as [Hp | Hp]; [| discriminate].
      rewrite Hp. discriminate.
  - assert (Hps : postgresSearch h = Pending)
      by (unfold h; rewrite RouteMoreFacts.elastic_run_postgres; auto).
    rewrite Hps in *. rewrite Hlen.
    split; [reflexivity |].
    split; [destruct (elasticSearch h); cbn; lia |].
    destruct (all h) as [| | e]; destruct Hag as (Hst & _ & Hrest);
      rewrite Hst.
    + split; [discriminate | reflexivity].
    + destruct Hrest; discriminate.
    + split; [discriminate |].
      destruct Hrest as [Hp | Hp]; [discriminate |].
      rewrite Hp. discriminate.
Qed.

Lemma stream_waits_for_the_silent_backend_witness :
  let now := System.sample_clock in
  let schedule := [PostgresSettles (inr []); PostgresSettles (inr [])] in
  let h := run now (start now "wombat") schedule in
  Forall from_postgres schedule /\
  elasticSearch h = Pending /\
  stream_state h = Stream.Readable.
Proof.
  intros now schedule h.
  assert (Hs : Forall from_postgres schedule)
    by (repeat constructor).
  split; [exact Hs |].
  destruct (stream_waits_for_the_silent_backend now "wombat" schedule)
    as [Hpg _].
  destruct (Hpg Hs) as (Hes & _ & _ & Hopen).
  split; [exact Hes | apply Hopen; reflexivity].
Defined.



(* ================================================================== *)
(** * The page and the route *)
(* ================================================================== *)

Module UrlFacts.
Import Js Url.

Lemma free_of_cons (sep c : ascii) (s : string) :
  free_of sep (String c s) <-> Ascii.eqb c sep = false /\ free_of sep s.
Proof.
  unfold free_of. split.
  - intro H. split.
    + destruct (Ascii.eqb_spec c sep) as [-> | _]; [| reflexivity].
      exfalso. apply (H EmptyString s). reflexivity.
    + intros a b ->. apply (H (String c a) b). reflexivity.
  - intros [Hc H] a b Heq. destruct a as [| x a]; cbn in Heq.
    + injection Heq as -> _. rewrite Ascii.eqb_refl in Hc. discriminate.
    + injection Heq as _ ->. apply (H a b). reflexivity.
Qed.

Lemma free_of_app (sep : ascii) (s t : string) :
  free_of sep s -> free_of sep t -> free_of sep (s ++ t).
Proof.
  induction s as [| c s IH]; intros Hs Ht; [exact Ht |].
  cbn [append]. apply free_of_cons in Hs. destruct Hs as [Hc Hs].
  apply free_of_cons. split; [exact Hc | apply IH; assumption].
Qed.

Lemma before_free (sep : ascii) (s : string) :
  free_of sep s -> before sep s = s.
Proof.
  induction s as [| c s IH]; intro H; [reflexivity |].
  apply free_of_cons in H. destruct H as [Hc H].
  cbn [before]. rewrite Hc, IH by exact H. reflexivity.
Qed.

Lemma split_free (sep : ascii) (s cur : string) :
  free_of sep s -> split sep s cur = [cur ++ s].
Proof.
  revert cur.
  induction s as [| c s IH]; intros cur H.
  - cbn. rewrite RouteMoreFacts.append_empty. reflexivity.
  - apply free_of_cons in H. destruct H as [Hc H].
    cbn [split]. rewrite Hc, IH by exact H.
    rewrite RouteMoreFacts.append_assoc. reflexivity.
Qed.

(** What [encodeURIComponent] writes for a character holds none of the
    characters that cut an address or its query. *)
Lemma encode_char_free (c : ascii) :
  free_of "#" (encode_char c) /\ free_of "&" (encode_char c) /\
  free_of "=" (encode_char c) /\ free_of "?" (encode_char c).
Proof.
  destruct c as [[] [] [] [] [] [] [] []];
    (repeat split);
    repeat (apply free_of_cons; split; [reflexivity |]);
    intros [| ? ?] ?; discriminate.
Qed.

Lemma encoded_free (s : string) :
  free_of "#" (encodeURIComponent s) /\ free_of "&" (encodeURIComponent s) /\
  free_of "=" (encodeURIComponent s) /\ free_of "?" (encodeURIComponent s).
Proof.
  induction s as [| c s (H1 & H2 & H3 & H4)].
  - repeat split; intros [| ? ?] ?; discriminate.
  - destruct (encode_char_free c) as (C1 & C2 & C3 & C4).
    cbn [encodeURIComponent]. repeat split; apply free_of_app; assumption.
Qed.

Lemma plus_to_space_encode_char (c : ascii) (t : string) :
  plus_to_space (encode_char c ++ t) = encode_char c ++ plus_to_space t.
Proof. destruct c as [[] [] [] [] [] [] [] []]; reflexivity. Qed.

Lemma percent_decode_encode_char (c : ascii) (t : string) :
  percent_decode (encode_char c ++ t) = String c (percent_decode t).
Proof. destruct c as [[] [] [] [] [] [] [] []]; reflexivity. Qed.

(** Decoding undoes [encodeURIComponent]. *)
Lemma decode_encode (s : string) : decode (encodeURIComponent s) = s.
Proof.
  unfold decode.
  replace (plus_to_space (encodeURIComponent s)) with (encodeURIComponent s).
  - induction s as [| c s IH]; [reflexivity |].
    cbn [encodeURIComponent]. rewrite percent_decode_encode_char, IH. reflexivity.
  - induction s as [| c s IH]; [reflexivity |].
    cbn [encodeURIComponent]. rewrite plus_to_space_encode_char, <- IH. reflexivity.
Qed.

(** The route reads the query back as the page wrote it. *)
Lemma received_request (text : string) :
  Page.received_query (Page.request text) = Some text.
Proof.
  destruct (encoded_free text) as (Hhash & Hamp & Heq & _).
  unfold Page.received_query, searchParams, search, Page.request.
  set (enc := encodeURIComponent text) in *.
  assert (Hbefore : before "#" ("/api/search?q=" ++ enc) = "/api/search?q=" ++ enc).
  { apply before_free.
    repeat (cbn [append]; apply free_of_cons; split; [reflexivity |]).
    exact Hhash. }
  rewrite Hbefore.
  change (after "?" ("/api/search?q=" ++ enc)) with (Some ("q=" ++ enc)).
  rewrite split_free.
  2:{ repeat (cbn [append]; apply free_of_cons; split; [reflexivity |]).
      exact Hamp. }
  change (EmptyString ++ "q=" ++ enc) with (String "q" (String "=" enc)).
  cbn [filter String.eqb negb map].
  unfold parameter.
  change (before "=" (String "q" (String "=" enc))) with "q".
  change (after "=" (String "q" (String "=" enc))) with (Some enc).
  change (decode "q") with "q".
  unfold enc. rewrite decode_encode. reflexivity.
Qed.

End UrlFacts.

(** X16: every request the page sends is served, with the query as it
    was typed.  [handleSearch] sends nothing and leaves the page as it
    is when the input is blank; otherwise it clears both results,
    starts the spinner, and the address it opens gives the route the
    very text of the input, which the route accepts: both adapters are
    called with it and the 400 response never goes to the page. *)
Theorem page_requests_are_served (now : nat -> Q) (st : Page.state) :
  match Page.handleSearch st with
  | (st', None) => st' = st /\ Page.trim (Page.query st) = EmptyString
  | (st', Some url) =>
      Page.trim (Page.query st) <> EmptyString /\
      Page.received_query url = Some (Page.query st) /\
      adapter_calls (GET now (Page.received_query url))
      = Some (postgres_call (Page.query st), elastic_call (Page.query st)) /\
      Page.query st' = Page.query st /\
      Page.postgresResult st' = None /\ Page.elasticResult st' = None /\
      Page.isSearching st' = true
  end.
Proof.
  unfold Page.handleSearch.
  destruct (Page.trim (Page.query st)) as [| c t] eqn:Htrim.
  - split; reflexivity.
  - rewrite UrlFacts.received_request.
    split; [discriminate |]. split; [reflexivity |].
    split; [| repeat split].
    destruct (Page.query st) as [| x q]; [discriminate Htrim | reflexivity].
Qed.

Module JsonParseFacts.
Import Js Json.

(** *** Strings *)

Lemma parse_chars_escape_char (c : ascii) (t : string) :
  parse_chars (escape_char c ++ t) = consed c (parse_chars t).
Proof. destruct c as [[] [] [] [] [] [] [] []]; reflexivity. Qed.

(** Reading a quoted string gives the string back. *)
Lemma parse_chars_escape (s rest : string) :
  parse_chars (escape s ++ String dquote rest) = Parsed s rest.
Proof.
  induction s as [| c s IH]; [reflexivity |].
  cbn [escape]. rewrite RouteMoreFacts.append_assoc, parse_chars_escape_char, IH.
  reflexivity.
Qed.

(** *** Numbers *)

Lemma stops_no_digit (rest : string) :
  stops rest ->
  drop_digits rest = rest /\
  (forall acc, digits 10 rest acc = acc) /\
  match rest with
  | EmptyString => True
  | String x _ =>
      Ascii.eqb x "." || Ascii.eqb x "e" || Ascii.eqb x "E" = false
  end.
Proof.
  destruct rest as [| c rest]; [repeat split |].
  intros [-> | [-> | ->]]; repeat split.
Qed.

Lemma drop_digits_uint (d : Decimal.uint) (rest : string) :
  stops rest -> drop_digits (NilEmpty.string_of_uint d ++ rest) = rest.
Proof.
  intro Hrest.
  induction d; cbn [NilEmpty.string_of_uint append drop_digits];
    [apply stops_no_digit, Hrest | exact IHd ..].
Qed.

Lemma digits_uint_acc (d : Decimal.uint) (rest : string) (acc : Z) :
  stops rest ->
  digits 10 (NilEmpty.string_of_uint d ++ rest) acc
  = digits 10 (NilEmpty.string_of_uint d) acc.
Proof.
  intro Hrest. revert acc.
  induction d; intro acc; cbn [NilEmpty.string_of_uint append];
    [ cbn [digits]; apply stops_no_digit, Hrest
    | repeat JsFacts.eat_digit; apply IHd .. ].
Qed.

(** The decimal writing of a positive number does not start with a
    zero. *)
Lemma to_uint_head (p : positive) (d : Decimal.uint) :
  Pos.to_uint p <> Decimal.D0 d.
Proof.
  intro Hd.
  pose proof (Unsigned.to_of (Pos.to_uint p)) as Hnorm.
  rewrite Unsigned.of_to in Hnorm. cbn [N.to_uint] in Hnorm.
  rewrite Hd, DecimalFacts.unorm_D0 in Hnorm.
  destruct (Decimal.nzhead d) eqn:Hhead;
    [ | rewrite DecimalFacts.unorm_nzhead in Hnorm by (rewrite Hhead; discriminate);
        symmetry in Hnorm; apply (DecimalFacts.nzhead_nonzero _ _ Hnorm) .. ].
  assert (H0 : Decimal.unorm d = Decimal.D0 Decimal.Nil)
    by (apply DecimalFacts.unorm_0; exact Hhead).
  rewrite H0 in Hnorm. injection Hnorm as Hnil. subst d.
  apply (Unsigned.to_uint_nonzero p). exact Hd.
Qed.

Lemma parse_natural_pos (p : positive) (rest : string) :
  stops rest ->
  parse_natural (NilEmpty.string_of_uint (Pos.to_uint p) ++ rest)
  = Parsed (Z.pos p) rest.
Proof.
  intro Hrest.
  assert (Hval : digits 10 (NilEmpty.string_of_uint (Pos.to_uint p) ++ rest) 0
                 = Z.pos p).
  { rewrite digits_uint_acc by exact Hrest.
    rewrite JsFacts.digits_of_uint, Unsigned.of_to. reflexivity. }
  destruct (stops_no_digit rest Hrest) as (_ & _ & Hdot).
  pose proof (Unsigned.to_uint_nonnil p) as Hnil.
  pose proof (to_uint_head p) as Hhead.
  remember (Pos.to_uint p) as u eqn:Hu.
  destruct u as [|d|d|d|d|d|d|d|d|d|d];
    [ exfalso; apply Hnil; reflexivity
    | exfalso; apply (Hhead d); reflexivity
    | .. ];
    cbn [NilEmpty.string_of_uint append] in *;
    unfold parse_natural;
    match goal with
    | |- context [is_digit ?c] => change (is_digit c) with true
    end;
    cbv iota; rewrite drop_digits_uint by exact Hrest;
    match goal with
    | |- context [Ascii.eqb ?c "0"] => change (Ascii.eqb c "0") with false
    end;
    cbn [andb]; rewrite Hval;
    (destruct rest as [| x rest']; [reflexivity | rewrite Hdot; reflexivity]).
Qed.

Lemma parse_number_string_of_Z (n : Z) (rest : string) :
  stops rest ->
  parse_number (string_of_Z n ++ rest) = Parsed (Num n) rest.
Proof.
  intro Hrest. unfold string_of_Z.
  destruct (stops_no_digit rest Hrest) as (Hdrop & Hdig & Hdot).
  destruct n as [| p | p]; cbn [Z.to_int NilZero.string_of_int].
  - change (NilZero.string_of_uint (Decimal.D0 Decimal.Nil) ++ rest)
      with (String "0" rest).
    change (parse_number (String "0" rest))
      with (match parse_natural (String "0" rest) with
            | Parsed n rest' => Parsed (Num n) rest'
            | SyntaxError => SyntaxError
            | Unread => Unread
            end).
    assert (Hzero : parse_natural (String "0" rest) = Parsed 0 rest).
    { unfold parse_natural. change (is_digit "0") with true. cbv iota.
      rewrite Hdrop, String.eqb_refl. cbn [negb andb Ascii.eqb Bool.eqb].
      JsFacts.eat_digit. rewrite Hdig.
      destruct rest as [| x rest']; [reflexivity | rewrite Hdot; reflexivity]. }
    rewrite Hzero. reflexivity.
  - rewrite JsFacts.string_of_uint_nonnil by apply Unsigned.to_uint_nonnil.
    pose proof (parse_natural_pos p rest Hrest) as Hnat.
    pose proof (Unsigned.to_uint_nonnil p) as Hnil.
    unfold parse_number.
    destruct (NilEmpty.string_of_uint (Pos.to_uint p) ++ rest) as [| c t] eqn:Htext.
    + rewrite Hnat. reflexivity.
    + assert (Hc : c <> "-"%char).
      { intros ->. remember (Pos.to_uint p) as u eqn:Hu.
        destruct u; cbn in Htext; try discriminate Htext.
        apply Hnil. reflexivity. }
      destruct c as [[] [] [] [] [] [] [] []];
        try (exfalso; apply Hc; reflexivity); rewrite Hnat; reflexivity.
  - rewrite JsFacts.string_of_uint_nonnil by apply Unsigned.to_uint_nonnil.
    cbn [append parse_number].
    rewrite parse_natural_pos by exact Hrest. reflexivity.
Qed.

(** *** Values *)

Lemma parse_value_elements (fuel : nat) (c : ascii) (t : string) :
  opens c = true ->
  parse_value (S fuel) (String "[" (String c t))
  = parse_elements fuel (String c t) [].
Proof.
  destruct c as [[] [] [] [] [] [] [] []]; intro H;
    try discriminate H; reflexivity.
Qed.

Lemma parse_value_number (fuel : nat) (c : ascii) (t : string) :
  is_digit c = true \/ c = "-"%char ->
  parse_value (S fuel) (String c t) = parse_number (String c t).
Proof.
  intros [H | ->]; [| reflexivity].
  destruct c as [[] [] [] [] [] [] [] []]; try discriminate H; reflexivity.
Qed.

Lemma uint_head (d : Decimal.uint) :
  d <> Decimal.Nil ->
  exists c t, NilEmpty.string_of_uint d = String c t /\ is_digit c = true.
Proof.
  destruct d; [contradiction | ..]; intros _;
    cbn [NilEmpty.string_of_uint]; eexists; eexists; split; reflexivity.
Qed.

Lemma string_of_Z_head (n : Z) :
  exists c t, string_of_Z n = String c t /\ (is_digit c = true \/ c = "-"%char).
Proof.
  unfold string_of_Z.
  destruct n as [| p | p]; cbn [Z.to_int NilZero.string_of_int].
  - exists "0"%char, EmptyString. split; [reflexivity | left; reflexivity].
  - rewrite JsFacts.string_of_uint_nonnil by apply Unsigned.to_uint_nonnil.
    destruct (uint_head (Pos.to_uint p)) as (c & t & Hc & Hd);
      [apply Unsigned.to_uint_nonnil |].
    exists c, t. split; [exact Hc | left; exact Hd].
  - eexists; eexists. split; [reflexivity | right; reflexivity].
Qed.

(** A text [JSON.stringify] wrote starts with a character that opens a
    value. *)
Lemma stringify_head (v : value) (t : string) :
  stringify v = Some t -> exists c t', t = String c t' /\ opens c = true.
Proof.
  destruct v as [ | | b | n | | s | items | props]; cbn [stringify];
    try discriminate; try (intros [= <-]; eexists; eexists; split; reflexivity).
  - destruct b; intros [= <-]; eexists; eexists; split; reflexivity.
  - intros [= <-].
    destruct (string_of_Z_head n) as (c & t' & Ht & Hc).
    exists c, t'. split; [exact Ht |].
    destruct Hc as [Hc | ->]; [| reflexivity].
    destruct c as [[] [] [] [] [] [] [] []]; try discriminate Hc; reflexivity.
Qed.

Lemma element_text_head (x : value) :
  exists c t', element_text x = String c t' /\ opens c = true.
Proof.
  unfold element_text. destruct (stringify x) as [t |] eqn:Ht.
  - apply (stringify_head x t Ht).
  - eexists; eexists; split; reflexivity.
Qed.

Lemma skip_ws_opens (c : ascii) (t : string) :
  opens c = true -> skip_ws (String c t) = String c t.
Proof.
  unfold opens. cbn [skip_ws]. destruct (is_ws c); [discriminate | reflexivity].
Qed.

Lemma stops_skip_ws (rest : string) : stops rest -> skip_ws rest = rest.
Proof.
  destruct rest as [| c rest]; [reflexivity |].
  intros [-> | [-> | ->]]; reflexivity.
Qed.

Lemma join_cons (sep x : string) (l : list string) :
  join sep (x :: l)
  = x ++ match l with
         | [] => EmptyString
         | _ :: _ => sep ++ join sep l
         end.
Proof.
  destruct l; cbn [join]; [rewrite RouteMoreFacts.append_empty |]; reflexivity.
Qed.

Lemma length_append (a b : string) :
  String.length (a ++ b) = (String.length a + String.length b)%nat.
Proof. induction a as [| c a IH]; [reflexivity | cbn; rewrite IH; reflexivity]. Qed.

Lemma transmit_undefined (x : value) :
  Wire.transmit x = Undefined <-> x = Undefined.
Proof. destruct x; cbn; split; congruence. Qed.

Lemma stringify_none (x : value) : stringify x = None <-> x = Undefined.
Proof. destruct x as [ | | [] | | | | | ]; cbn; split; congruence. Qed.

Lemma element_reads_back (x : value) (rest : string) (fuel : nat) :
  reads_back x -> tidy x = true ->
  (String.length (element_text x) < fuel)%nat ->
  stops rest ->
  parse_value fuel (element_text x ++ rest) = Parsed (element x) rest.
Proof.
  intros Hx Htidy Hfuel Hrest.
  unfold element_text, element in *.
  destruct (stringify x) as [t |] eqn:Ht.
  - rewrite (Hx Htidy t rest fuel Ht Hfuel Hrest).
    destruct (Wire.transmit x) eqn:Hv; try reflexivity.
    apply (proj1 (transmit_undefined x)) in Hv. subst x. discriminate Ht.
  - apply (proj1 (stringify_none x)) in Ht. subst x.
    destruct fuel as [| fuel]; [cbn in Hfuel; lia | reflexivity].
Qed.

Lemma element_text_length (x : value) :
  (1 <= String.length (element_text x))%nat.
Proof.
  destruct (element_text_head x) as (c & t & -> & _). cbn. lia.
Qed.

Lemma elements_read_back (items : list value) :
  Forall reads_back items ->
  forallb tidy items = true ->
  items <> [] ->
  forall (fuel : nat) (acc : list value) (rest : string),
    (String.length (join "," (map element_text items)) + 1 < fuel)%nat ->
    parse_elements fuel (join "," (map element_text items) ++ String "]" rest) acc
    = Parsed (Arr (acc ++ map element items)) rest.
Proof.
  intros Hall. induction Hall as [| x l Hx Hl IH]; intros Htidy Hne; [congruence |].
  intros fuel acc rest Hfuel.
  cbn [forallb] in Htidy. apply andb_true_iff in Htidy. destruct Htidy as [Hxt Hlt].
  pose proof (element_text_length x) as Hlen.
  cbn [map] in *. rewrite join_cons in *. rewrite length_append in Hfuel.
  destruct fuel as [| fuel]; [lia |].
  cbn [parse_elements].
  rewrite RouteMoreFacts.append_assoc.
  destruct l as [| y l].
  - cbn [map append String.length] in *.
    rewrite (element_reads_back x (String "]" rest) fuel Hx Hxt);
      [| lia | cbn; auto].
    reflexivity.
  - remember (y :: l) as l' eqn:Hl'.
    assert (Htail : match map element_text l' with
                    | [] => EmptyString
                    | _ :: _ => "," ++ join "," (map element_text l')
                    end = String "," (join "," (map element_text l')))
      by (rewrite Hl'; reflexivity).
    rewrite Htail in *. cbn [append String.length] in *.
    rewrite (element_reads_back x _ fuel Hx Hxt); [| lia | cbn; auto].
    cbn [skip_ws]. change (is_ws ",") with false. cbv iota.
    cbn [Ascii.eqb Bool.eqb].
    rewrite IH; [| exact Hlt | rewrite Hl'; discriminate | lia].
    rewrite <- app_assoc. reflexivity.
Qed.

Lemma define_fresh (k : string) (v : value) (acc : object) :
  existsb (String.eqb k) (map fst acc) = false ->
  define k v acc = (acc ++ [(k, v)])%list.
Proof.
  induction acc as [| [k' v'] acc IH]; [reflexivity |].
  cbn [map fst existsb define app]. intro H.
  apply orb_false_iff in H. destruct H as [Hk H].
  rewrite String.eqb_sym, Hk, IH by exact H. reflexivity.
Qed.

Lemma existsb_app_false (k : string) (a b : list string) :
  existsb (String.eqb k) (a ++ b) = false ->
  existsb (String.eqb k) a = false /\ existsb (String.eqb k) b = false.
Proof. rewrite existsb_app. apply orb_false_iff. Qed.

Lemma distinct_middle (a b : list string) (k : string) :
  distinct (a ++ k :: b) = true ->
  existsb (String.eqb k) a = false /\
  distinct (a ++ b) = true /\
  distinct ((a ++ [k]) ++ b) = true.
Proof.
  intro H. split; [| split].
  - induction a as [| x a IH]; [reflexivity |].
    cbn [app distinct existsb] in *.
    apply andb_true_iff in H. destruct H as [Hx H].
    apply negb_true_iff in Hx. rewrite existsb_app in Hx.
    apply orb_false_iff in Hx. destruct Hx as [_ Hx].
    cbn [existsb] in Hx. apply orb_false_iff in Hx. destruct Hx as [Hx _].
    rewrite String.eqb_sym, Hx. apply IH, H.
  - induction a as [| x a IH].
    + cbn [app distinct] in *. apply andb_true_iff in H. apply H.
    + cbn [app distinct] in *.
      apply andb_true_iff in H. destruct H as [Hx H].
      rewrite (IH H), andb_true_r.
      apply negb_true_iff in Hx. apply negb_true_iff.
      rewrite existsb_app in *. apply orb_false_iff in Hx. destruct Hx as [Ha Hb].
      cbn [existsb] in Hb. apply orb_false_iff in Hb. destruct Hb as [_ Hb].
      rewrite Ha, Hb. reflexivity.
  - rewrite <- app_assoc. exact H.
Qed.

Lemma members_nil (props : list (string * value)) :
  flat_map member_text props = [] -> flat_map member props = [].
Proof.
  induction props as [| [k x] l IH]; [reflexivity |].
  cbn [flat_map]. unfold member_text, member. cbn [fst snd].
  destruct (stringify x) as [t |] eqn:Ht; [discriminate |].
  apply (proj1 (stringify_none x)) in Ht. subst x. cbn. exact IH.
Qed.

Lemma members_read_back (props : list (string * value)) :
  Forall (fun p => reads_back (snd p)) props ->
  forallb (fun p => tidy (snd p)) props = true ->
  flat_map member_text props <> [] ->
  forall (fuel : nat) (acc : object) (rest : string),
    distinct (map fst acc ++ map fst props) = true ->
    (String.length (join "," (flat_map member_text props)) + 1 < fuel)%nat ->
    parse_members fuel
      (join "," (flat_map member_text props) ++ String "}" rest) acc
    = Parsed (Obj (acc ++ flat_map member props)) rest.
Proof.
  intros Hall.
  induction Hall as [| [k x] l Hx Hl IH]; intros Htidy Hne;
    [exfalso; apply Hne; reflexivity |].
  intros fuel acc rest Hkeys Hfuel.
  cbn [forallb snd] in Htidy. apply andb_true_iff in Htidy.
  destruct Htidy as [Hxt Hlt].
  cbn [map fst] in Hkeys.
  destruct (distinct_middle _ _ _ Hkeys) as (Hfresh & Hskip & Hnext).
  cbn [flat_map] in *. unfold member_text at 1, member at 1.
  unfold member_text at 1 in Hfuel. unfold member_text at 1 in Hne.
  cbn [fst snd] in *.
  destruct (stringify x) as [t |] eqn:Ht.
  - assert (Hv : Wire.transmit x <> Undefined).
    { intro Hu. apply (proj1 (transmit_undefined x)) in Hu. subst x. discriminate. }
    assert (Hm : match Wire.transmit x with
                 | Undefined => []
                 | y => [(k, y)]
                 end = [(k, Wire.transmit x)])
      by (destruct (Wire.transmit x); try reflexivity; congruence).
    rewrite Hm. clear Hm.
    cbn [app] in *. rewrite join_cons in *.
    rewrite !length_append in Hfuel.
    unfold quote in *. cbn [append String.length] in Hfuel.
    rewrite !length_append in Hfuel. cbn [String.length] in Hfuel.
    destruct fuel as [| fuel]; [lia |].
    set (tail := match flat_map member_text l with
                 | [] => EmptyString
                 | _ :: _ => "," ++ join "," (flat_map member_text l)
                 end) in *.
    assert (Htext :
              (String dquote (escape k ++ str1 dquote) ++ ":" ++ t) ++ tail
              ++ String "}" rest
              = String dquote
                  (escape k ++
                   String dquote (String ":" (t ++ tail ++ String "}" rest)))).
    { cbn [append]. rewrite !RouteMoreFacts.append_assoc. reflexivity. }
    rewrite RouteMoreFacts.append_assoc, Htext.
    cbn [parse_members skip_ws].
    change (is_ws dquote) with false. cbv iota.
    rewrite Ascii.eqb_refl, parse_chars_escape.
    cbn [skip_ws]. change (is_ws ":") with false. cbv iota.
    rewrite Ascii.eqb_refl.
    destruct (flat_map member_text l) as [| m texts] eqn:Htexts.
    + unfold tail. cbn [append].
      rewrite (Hx Hxt t (String "}" rest) fuel Ht); [| lia | cbn; auto].
      cbn [skip_ws]. change (is_ws "}") with false. cbv iota.
      cbn [Ascii.eqb Bool.eqb].
      rewrite define_fresh by exact Hfresh.
      rewrite (members_nil l Htexts). reflexivity.
    + unfold tail. cbn [append].
      rewrite (Hx Hxt t _ fuel Ht); [| lia | cbn; auto].
      cbn [skip_ws]. change (is_ws ",") with false. cbv iota.
      cbn [Ascii.eqb Bool.eqb].
      rewrite define_fresh by exact Hfresh.
      rewrite IH.
      * rewrite <- app_assoc. reflexivity.
      * exact Hlt.
      * discriminate.
      * rewrite map_app. exact Hnext.
      * unfold tail in Hfuel. cbn [append String.length] in Hfuel. lia.
  - apply (proj1 (stringify_none x)) in Ht. subst x.
    cbn [Wire.transmit app] in *.
    apply IH; assumption.
Qed.

(** Reading the text of a value gives the value the receiver gets. *)
Lemma stringify_reads_back (v : value) : reads_back v.
Proof.
  induction v as [ | | b | n | | s | items IH | props IH]
    using JsonFacts.value_induction;
    intros Htidy t rest fuel Ht Hfuel Hrest;
    try discriminate Ht.
  - injection Ht as <-. cbn [String.length] in Hfuel.
    destruct fuel as [| fuel]; [lia | reflexivity].
  - destruct b; injection Ht as <-; cbn [String.length] in Hfuel;
      (destruct fuel as [| fuel]; [lia | reflexivity]).
  - injection Ht as <-.
    destruct fuel as [| fuel]; [lia |].
    destruct (string_of_Z_head n) as (c & t' & Hhead & Hc).
    change (Wire.transmit (Num n)) with (Num n).
    rewrite <- (parse_number_string_of_Z n rest Hrest).
    rewrite Hhead. cbn [append]. apply parse_value_number, Hc.
  - injection Ht as <-. cbn [String.length] in Hfuel.
    destruct fuel as [| fuel]; [lia | reflexivity].
  - injection Ht as <-.
    destruct fuel as [| fuel]; [lia |].
    unfold quote. cbn [append parse_value skip_ws].
    change (is_ws dquote) with false. cbv iota.
    rewrite Ascii.eqb_refl.
    rewrite RouteMoreFacts.append_assoc. cbn [str1 append].
    rewrite parse_chars_escape. reflexivity.
  - change (stringify (Arr items))
      with (Some ("[" ++ join "," (map element_text items) ++ "]")) in Ht.
    injection Ht as <-.
    destruct fuel as [| fuel]; [lia |].
    cbn [tidy] in Htidy.
    change (Wire.transmit (Arr items)) with (Arr (map element items)).
    destruct items as [| x items].
    + reflexivity.
    + cbn [append String.length] in *. rewrite length_append in Hfuel.
      rewrite RouteMoreFacts.append_assoc.
      destruct (element_text_head x) as (c & t' & Hhead & Hc).
      assert (Hjoin : exists t'', join "," (map element_text (x :: items))
                                  = String c t'').
      { cbn [map]. rewrite join_cons, Hhead. eexists. reflexivity. }
      destruct Hjoin as [t'' Hjoin].
      set (body := join "," (map element_text (x :: items))) in *.
      assert (Hstep : parse_value (S fuel) (String "[" (body ++ "]" ++ rest))
                      = parse_elements fuel (body ++ "]" ++ rest) []).
      { rewrite Hjoin. cbn [append]. apply parse_value_elements, Hc. }
      rewrite Hstep. unfold body.
      change ("]" ++ rest) with (String "]" rest).
      apply elements_read_back; [exact IH | exact Htidy | discriminate |].
      fold body. cbn [String.length] in Hfuel. lia.
  - change (stringify (Obj props))
      with (Some ("{" ++ join "," (flat_map member_text props) ++ "}")) in Ht.
    injection Ht as <-.
    destruct fuel as [| fuel]; [lia |].
    cbn [tidy] in Htidy. apply andb_true_iff in Htidy. destruct Htidy as [Hkeys Htidy].
    change (Wire.transmit (Obj props)) with (Obj (flat_map member props)).
    destruct (flat_map member_text props) as [| m texts] eqn:Htexts.
    + rewrite (members_nil props Htexts). reflexivity.
    + rewrite <- Htexts in *.
      cbn [append String.length] in *. rewrite length_append in Hfuel.
      rewrite RouteMoreFacts.append_assoc.
      assert (Hjoin : exists t'', join "," (flat_map member_text props)
                                  = String dquote t'').
      { rewrite Htexts, join_cons.
        assert (Hm : exists t0, m = String dquote t0).
        { clear - Htexts. induction props as [| [k x] l IHl]; [discriminate |].
          cbn [flat_map] in Htexts. unfold member_text at 1 in Htexts.
          cbn [fst snd] in Htexts.
          destruct (stringify x); [| apply IHl, Htexts].
          injection Htexts as <- _. unfold quote. eexists. reflexivity. }
        destruct Hm as [t0 ->]. eexists. reflexivity. }
      destruct Hjoin as [t'' Hjoin].
      set (body := join "," (flat_map member_text props)) in *.
      assert (Hstep : parse_value (S fuel) (String "{" (body ++ "}" ++ rest))
                      = parse_members fuel (body ++ "}" ++ rest) []).
      { rewrite Hjoin. reflexivity. }
      rewrite Hstep. unfold body.
      change ("}" ++ rest) with (String "}" rest).
      change (flat_map member props) with ([] ++ flat_map member props)%list.
      apply members_read_back;
        [exact IH | exact Htidy | rewrite Htexts; discriminate | exact Hkeys |].
      fold body. cbn [String.length] in Hfuel. lia.
Qed.

(** [JSON.parse] undoes [JSON.stringify], up to what JSON cannot
    write. *)
Lemma parse_stringify (v : value) :
  tidy v = true -> v <> Undefined ->
  JSON_parse (JSON_stringify v) = Parsed (Wire.transmit v) EmptyString.
Proof.
  intros Htidy Hv.
  unfold JSON_parse, JSON_stringify.
  destruct (stringify v) as [t |] eqn:Ht.
  - pose proof (stringify_reads_back v Htidy t EmptyString
                  (S (String.length t)) Ht) as H.
    rewrite RouteMoreFacts.append_empty in H.
    rewrite H; [reflexivity | lia | exact I].
  - apply (proj1 (stringify_none v)) in Ht. contradiction.
Qed.

End JsonParseFacts.

(* ================================================================== *)
(** * The stream as the page reads it *)
(* ================================================================== *)

Module SseFacts.
Import Js Sse.

Lemma lines_single_line (p rest cur : string) :
  single_line p = true ->
  lines (p ++ String LF rest) cur = (cur ++ p) :: lines rest EmptyString.
Proof.
  revert cur.
  induction p as [| c p IH]; intros cur Hp.
  - cbn. rewrite RouteMoreFacts.append_empty. reflexivity.
  - cbn [single_line] in Hp.
    apply andb_true_iff in Hp. destruct Hp as [Hc Hp].
    apply andb_true_iff in Hc. destruct Hc as [Hlf Hcr].
    apply negb_true_iff in Hlf, Hcr.
    cbn [append lines]. rewrite Hlf, Hcr, IH by exact Hp.
    rewrite RouteMoreFacts.append_assoc. reflexivity.
Qed.

Lemma chop_line (p : string) : chop (p ++ str1 LF) = p.
Proof.
  induction p as [| c p IH]; [reflexivity |].
  cbn [append chop]. rewrite IH.
  destruct p; reflexivity.
Qed.

(** A block of the route is one event of type [message]. *)
Lemma events_block (p rest : string) :
  single_line p = true ->
  events (lines (block p ++ rest) EmptyString) empty
  = ("message", p) :: events (lines rest EmptyString) empty.
Proof.
  intro Hp.
  assert (Hlines : lines (block p ++ rest) EmptyString
                   = ("data: " ++ p) :: EmptyString :: lines rest EmptyString).
  { unfold block. rewrite !RouteMoreFacts.append_assoc.
    change (lines ("data: " ++ p ++ String LF (str1 LF) ++ rest) EmptyString)
      with (lines (p ++ String LF (String LF rest)) "data: ").
    rewrite lines_single_line by exact Hp. reflexivity. }
  rewrite Hlines.
  change (events (("data: " ++ p) :: EmptyString :: lines rest EmptyString) empty)
    with (match take EmptyString {| data := p ++ str1 LF; kind := EmptyString |} with
          | (b', Some e) => e :: events (lines rest EmptyString) b'
          | (b', None) => events (lines rest EmptyString) b'
          end).
  unfold take. cbn [data kind].
  destruct (p ++ str1 LF) as [| c t] eqn:Hdata; [destruct p; discriminate |].
  rewrite <- Hdata, chop_line. reflexivity.
Qed.

Lemma concat_cons (x : string) (l : list string) :
  String.concat EmptyString (x :: l) = x ++ String.concat EmptyString l.
Proof.
  destruct l; cbn [String.concat]; [rewrite RouteMoreFacts.append_empty |];
    reflexivity.
Qed.

Lemma events_blocks (payloads : list string) :
  Forall (fun p => single_line p = true) payloads ->
  events (lines (String.concat EmptyString (map block payloads)) EmptyString) empty
  = map (fun p => ("message", p)) payloads.
Proof.
  induction 1 as [| p l Hp _ IH]; [reflexivity |].
  cbn [map]. rewrite concat_cons, events_block by exact Hp.
  rewrite IH. reflexivity.
Qed.

(** The page gets the payloads of the blocks, in order. *)
Lemma messages_blocks (payloads : list string) :
  Forall (fun p => single_line p = true) payloads ->
  messages (String.concat EmptyString (map block payloads)) = payloads.
Proof.
  intro H. unfold messages.
  assert (Hbom : strip_bom (String.concat EmptyString (map block payloads))
                 = String.concat EmptyString (map block payloads)).
  { destruct payloads as [| p l]; [reflexivity |].
    cbn [map]. rewrite concat_cons. reflexivity. }
  rewrite Hbom, events_blocks by exact H.
  clear Hbom H.
  induction payloads as [| p l IH]; [reflexivity |].
  cbn [map filter fst snd String.eqb Ascii.eqb Bool.eqb].
  rewrite IH. reflexivity.
Qed.

End SseFacts.

Module PageFacts.
Import Js Route.

Lemma frame_block (source : string) (data : value) (time : Z) :
  frame source data time
  = Sse.block (JSON_stringify (Sse.payload source data time)).
Proof. reflexivity. Qed.




Lemma wire_record_of_row (r : Postgres.row) :
  Json.wire (Special.record_of_row r) = true.
Proof. reflexivity. Qed.





End PageFacts.

Module SessionFacts.
Import Js Route Protocol.

Section Served.

Variable matches : Elastic.query_string -> string -> bool.
Variable now : nat -> Q.


End Served.



End SessionFacts.

Import Js Route Protocol Special.

(** X17: the page reads back what the route wrote.  The blocks
    [sendData] writes for any outcomes, one after the other, reach
    [onmessage] as one message each, in order, and [JSON.parse] gives
    for each the object [{ source, data, time }] that was written, as
    JSON carries it. *)
Theorem events_are_read_back_as_sent (sent : list (string * value * Z)) :
  Forall (fun o => Json.tidy (snd (fst o)) = true) sent ->
  let stream :=
    String.concat EmptyString
      (map (fun o => frame (fst (fst o)) (snd (fst o)) (snd o)) sent) in
  map Json.JSON_parse (Sse.messages stream)
  = map (fun o =>
           Json.Parsed
             (Wire.transmit (Sse.payload (fst (fst o)) (snd (fst o)) (snd o)))
             EmptyString)
        sent.
Proof.
  intros Htidy stream. unfold stream.
  assert (Hblocks :
            map (fun o => frame (fst (fst o)) (snd (fst o)) (snd o)) sent
            = map Sse.block
                (map (fun o => JSON_stringify
                                 (Sse.payload (fst (fst o)) (snd (fst o)) (snd o)))
                     sent))
    by (rewrite map_map; reflexivity).
  rewrite Hblocks, SseFacts.messages_blocks.
  - rewrite map_map. apply map_ext_in. intros o Ho.
    rewrite Forall_forall in Htidy.
    apply JsonParseFacts.parse_stringify; [| discriminate].
    unfold Sse.payload.
    cbn [Json.tidy map fst snd forallb Json.distinct existsb
         String.eqb Ascii.eqb Bool.eqb negb andb orb].
    rewrite (Htidy o Ho). reflexivity.
  - apply Forall_map, Forall_forall. intros o _.
    apply JsonFacts.single_line_JSON_stringify.
Qed.

Lemma events_are_read_back_as_sent_witness :
  let sent := [("postgres", Obj [("data", Arr [System.wombat_source; NaN]);
                                 ("total", Num 1); ("note", Undefined)], 12);
               ("elastic", Str (sq "a 'quoted' line"), -3)] in
  map Json.JSON_parse
      (Sse.messages
         (String.concat EmptyString
            (map (fun o => frame (fst (fst o)) (snd (fst o)) (snd o)) sent)))
  = [ Json.Parsed
        (Sse.payload "postgres"
           (Obj [("data", Arr [System.wombat_source; Null]); ("total", Num 1)]) 12)
        EmptyString;
      Json.Parsed (Sse.payload "elastic" (Str (sq "a 'quoted' line")) (-3))
                  EmptyString ].
Proof.
  intro sent.
  etransitivity.
  - apply (events_are_read_back_as_sent sent). repeat constructor.
  - reflexivity.
Defined.




